(** * osgEarth::Threading — Event, Future/Promise, Gate, ReadWriteMutex, ThreadPool,
    RecursiveMutex, ScopedAtomicCounter

    Shallow embedding of [src/osgEarth/Threading] (header) and
    [src/osgEarth/Threading.cpp].

    Every primitive guards its state with one [Mutex] and blocks on one
    [std::condition_variable_any].  The embedding follows that structure:

    - a member function is cut at its blocking points; each piece that runs
      with the mutex held (from acquiring the mutex to the next
      [_cond.wait] or to the return) is one atomic transition;
    - [_cond.wait(lock)] releases the mutex and parks the caller
      ([Blocked]); [notify_all] moves every parked thread to [Woken]; a
      woken thread still has to re-acquire the mutex, which is a
      transition of its own, so other threads may run in between;
    - a condition variable may also wake a parked thread spuriously;
    - where shared state is written without the mutex
      (ThreadPool::stopThreads), evaluating a wait predicate and parking
      are separate transitions, so that such a write can fall in between;
    - threads are numbered by [nat]; the per-thread control state is a
      function from thread numbers. *)

From Stdlib Require Import ZArith.
From stdpp Require Import base option list gmap.

(** ** Transition systems: runs and reachability *)

Section Runs.
Context {A S : Type} (step : A → S → option S).

Fixpoint run (acts : list A) (s : S) : option S :=
  match acts with
  | [] => Some s
  | a :: rest =>
      match step a s with
      | Some s' => run rest s'
      | None => None
      end
  end.

Inductive reach (init : S) : S → Prop :=
| reach_init : reach init init
| reach_step a s s' : reach init s → step a s = Some s' → reach init s'.

End Runs.

(** Point update of a per-thread (or per-key) table. *)
Definition upd {K} `{EqDecision K} {V} (f : K → V) (k : K) (v : V) : K → V :=
  fun j => if decide (j = k) then v else f j.

(** [std::cv_status], the result of [wait_for]. *)
Inductive cv_status := no_timeout | timeout.

(** ** Event *)

Module Event.

(** Which member function a parked thread is in. *)
Inductive wait_kind :=
| Untimed     (* wait()            *)
| Timed       (* wait(timeout_ms)  *)
| AndReset.   (* waitAndReset()    *)

Inductive status :=
| Idle                                   (* not inside a member function *)
| Blocked (k : wait_kind)                (* parked in _cond.wait / wait_for *)
| Woken (k : wait_kind) (r : cv_status)  (* unparked, _m not yet re-acquired *)
| Returned (b : bool).                   (* the last wait returned b *)

(** [_m] is free between transitions, so only [_set] and the threads are
    state. *)
Record event := mk {
  _set : bool;
  thr : nat → status;
}.

(** Event::Event() : _set(false) *)
Definition init : event := {| _set := false; thr := fun _ => Idle |}.

Definition wake (s : status) : status :=
  match s with
  | Blocked k => Woken k no_timeout
  | _ => s
  end.

(** _cond.notify_all() *)
Definition notify_all (e : event) : event :=
  {| _set := _set e; thr := fun t => wake (thr e t) |}.

(** void Event::set() *)
Definition set (e : event) : event :=
  if negb (_set e)
  then notify_all {| _set := true; thr := thr e |}
  else e.

(** void Event::reset() *)
Definition reset (e : event) : event :=
  {| _set := false; thr := thr e |}.

(** The body of Event::~Event(): _set = false, then 255 broadcasts.  When
    the body is done the members [_cond] and [_m] are destroyed and the
    life of the object is over; what a thread woken by these broadcasts
    meets when it goes on to lock [_m] again is not defined.  This is why
    the destructor is no transition of [step] below. *)
Definition destroy (e : event) : event :=
  Nat.iter 255 notify_all {| _set := false; thr := thr e |}.
Arguments destroy : simpl never.

(** bool Event::wait(), up to its blocking point. *)
Definition wait_enter (t : nat) (e : event) : event :=
  if negb (_set e)
  then {| _set := _set e; thr := upd (thr e) t (Blocked Untimed) |}
  else {| _set := _set e; thr := upd (thr e) t (Returned true) |}.

(** bool Event::wait(unsigned), up to its blocking point. *)
Definition wait_for_enter (t : nat) (e : event) : event :=
  if negb (_set e)
  then {| _set := _set e; thr := upd (thr e) t (Blocked Timed) |}
  else {| _set := _set e; thr := upd (thr e) t (Returned true) |}.

(** bool Event::waitAndReset(), up to its blocking point. *)
Definition waitAndReset_enter (t : nat) (e : event) : event :=
  if negb (_set e)
  then {| _set := _set e; thr := upd (thr e) t (Blocked AndReset) |}
  else {| _set := false; thr := upd (thr e) t (Returned true) |}.

(** The rest of each wait after the condition variable let the thread go:
    wait() returns true, wait(ms) returns [result == no_timeout],
    waitAndReset() clears [_set] and returns true.  None re-reads [_set]. *)
Definition resume (t : nat) (k : wait_kind) (r : cv_status) (e : event) : event :=
  match k with
  | Untimed => {| _set := _set e; thr := upd (thr e) t (Returned true) |}
  | Timed =>
      {| _set := _set e;
         thr := upd (thr e) t
                  (Returned match r with no_timeout => true | timeout => false end) |}
  | AndReset => {| _set := false; thr := upd (thr e) t (Returned true) |}
  end.

Inductive call :=
| CWait
| CWaitFor (timeout_ms : nat)
| CWaitAndReset
| CSet
| CReset.

Inductive action :=
| Call (t : nat) (c : call)   (* t enters a member function *)
| Resume (t : nat)            (* a woken t re-acquires _m and returns *)
| Elapse (t : nat)            (* the timeout of t's wait_for expires *)
| Spurious (t : nat).         (* the condition variable lets t go unprompted *)

Definition ready (s : status) : bool :=
  match s with
  | Idle | Returned _ => true
  | _ => false
  end.

Definition do_call (t : nat) (c : call) (e : event) : event :=
  match c with
  | CWait => wait_enter t e
  | CWaitFor _ => wait_for_enter t e
  | CWaitAndReset => waitAndReset_enter t e
  | CSet => set e
  | CReset => reset e
  end.

Definition step (a : action) (e : event) : option event :=
  match a with
  | Call t c => if ready (thr e t) then Some (do_call t c e) else None
  | Resume t =>
      match thr e t with
      | Woken k r => Some (resume t k r e)
      | _ => None
      end
  | Elapse t =>
      match thr e t with
      | Blocked Timed => Some {| _set := _set e; thr := upd (thr e) t (Woken Timed timeout) |}
      | _ => None
      end
  | Spurious t =>
      match thr e t with
      | Blocked k => Some {| _set := _set e; thr := upd (thr e) t (Woken k no_timeout) |}
      | _ => None
      end
  end.

(** The states an event goes through during its life, from the
    constructor on and before the destructor. *)
Definition reachable : event → Prop := reach step init.

(** [a] is not a call made by thread [t]. *)
Definition other_call (t : nat) (a : action) : bool :=
  match a with
  | Call u _ => negb (u =? t)
  | _ => true
  end.

(** [a] is the expiry of [t]'s timeout. *)
Definition elapse_of (t : nat) (a : action) : bool :=
  match a with
  | Elapse u => u =? t
  | _ => false
  end.

(** [a] can let a parked [t] go: a set(), or a spurious wake-up of [t]. *)
Definition releases (t : nat) (a : action) : bool :=
  match a with
  | Call _ CSet => true
  | Spurious u => u =? t
  | _ => false
  end.

(** [a] neither clears [_set] nor lets [t] go without a set(). *)
Definition undisturbed (t : nat) (a : action) : bool :=
  match a with
  | Call _ CReset | Call _ CWaitAndReset => false
  | Spurious u => negb (u =? t)
  | _ => true
  end.

(** No thread is inside waitAndReset(). *)
Definition no_consumer (e : event) : Prop :=
  ∀ u, match thr e u with
       | Blocked AndReset | Woken AndReset _ => False
       | _ => True
       end.

(** Where a thread that entered wait() can be, as long as it makes no new
    call. *)
Definition in_wait (s : status) : Prop :=
  s = Blocked Untimed ∨ s = Woken Untimed no_timeout ∨ s = Returned true.

(** What a run keeps when nothing clears the flag and a parked [t] is let
    go by set() only. *)
Definition quiet_inv (t : nat) (e : event) : Prop :=
  no_consumer e ∧
  (thr e t = Blocked Untimed ∨
   (thr e t = Woken Untimed no_timeout ∨ thr e t = Returned true) ∧ _set e = true).

(** Where a thread that entered wait(ms) on an unsignaled event can be,
    given whether its timeout has expired ([el]). *)
Definition timed_track (el : bool) (s : status) : Prop :=
  match s with
  | Blocked Timed => el = false
  | Woken Timed no_timeout => el = false
  | Woken Timed timeout => el = true
  | Returned b => b = negb el
  | _ => False
  end.

(** ... and once it has been notified in time. *)
Definition timed_safe (s : status) : Prop :=
  s = Woken Timed no_timeout ∨ s = Returned true.

(** The value of [Event::wait(ms)] as its caller sees it: [true] at once on
    a signaled event, otherwise what [wait_for] reported. *)
Definition wait_for_result (signaled : bool) (r : cv_status) : bool :=
  if negb signaled
  then match r with no_timeout => true | timeout => false end
  else true.

End Event.

(** ** Future / Promise *)

Module Future.
Section WithValue.

(** The referenced type [T]; a [T*] is an [option T], [None] being [0L]. *)
Context {T : Type}.

(** What every [Future] copy shares: the [RefEvent] behind [_ev] and the
    [RefPtrRef] behind [_objRef], with the latter's reference count.

    Modelled from the spec: [osg::Referenced::referenceCount()] (the
    OpenSceneGraph base class is not part of the sources) is the number of
    [Future] objects whose [_objRef] points at the cell, the one embedded
    in each [Promise] included; copying a [Future] adds one, destroying a
    [Future] takes one away. *)
Record shared := mk {
  _ev : Event.event;
  _obj : option T;
  referenceCount : nat;
}.

(** Future(): _ev = new RefEvent(); _objRef = new RefPtrRef() *)
Definition Future_new : shared :=
  {| _ev := Event.init; _obj := None; referenceCount := 1 |}.

(** Future(const Future& rhs) *)
Definition Future_copy (c : shared) : shared :=
  {| _ev := _ev c; _obj := _obj c; referenceCount := S (referenceCount c) |}.

(** ~Future() *)
Definition Future_destroy (c : shared) : shared :=
  {| _ev := _ev c; _obj := _obj c; referenceCount := referenceCount c - 1 |}.

(** bool isAvailable() const { return _ev->isSet(); } *)
Definition isAvailable (c : shared) : bool := Event._set (_ev c).

(** bool isAbandoned() const { return _objRef->referenceCount() == 1; } *)
Definition isAbandoned (c : shared) : bool := referenceCount c =? 1.

(** T* get(): while(!_ev->wait(1000u)) if (isAbandoned()) return 0L;
              return _objRef->_obj.get();

    [polls] lists what the successive [wait_for] calls report (they are
    consulted only while the event is unsignaled); the cell is not
    touched by other threads during the call.  The result is [None] while
    the caller is still inside the loop when [polls] runs out. *)
Fixpoint get (polls : list cv_status) (c : shared) : option (option T) :=
  match polls with
  | [] => if Event._set (_ev c) then Some (_obj c) else None
  | r :: rest =>
      if Event.wait_for_result (Event._set (_ev c)) r then Some (_obj c)
      else if isAbandoned c then Some None
      else get rest c
  end.

(** T* release(): as [get], then [_obj.release()] and [_ev->reset()]. *)
Fixpoint release (polls : list cv_status) (c : shared) : option (option T * shared) :=
  let taken :=
    (_obj c, {| _ev := Event.reset (_ev c); _obj := None;
                referenceCount := referenceCount c |}) in
  match polls with
  | [] => if Event._set (_ev c) then Some taken else None
  | r :: rest =>
      if Event.wait_for_result (Event._set (_ev c)) r then Some taken
      else if isAbandoned c then Some (None, c)
      else release rest c
  end.

(** void Promise::resolve(T* value):
      _future._objRef->_obj = value; _future._ev->set(); *)
Definition resolve (value : option T) (c : shared) : shared :=
  {| _ev := Event.set (_ev c); _obj := value; referenceCount := referenceCount c |}.

(** bool Promise::isResolved() const { return _future._ev->isSet(); } *)
Definition isResolved (c : shared) : bool := Event._set (_ev c).

(** bool Promise::isAbandoned() const
      { return _future._objRef->referenceCount() == 1; } *)
Definition Promise_isAbandoned (c : shared) : bool := referenceCount c =? 1.

(** One channel: the shared cell and how many [Promise] and (free-standing)
    [Future] objects currently point at it. *)
Record channel := mkc {
  cell : shared;
  promises : nat;
  futures : nat;
}.

(** Promise(): its member [_future] is a fresh [Future]. *)
Definition init : channel := {| cell := Future_new; promises := 1; futures := 0 |}.

Inductive action :=
| GetFuture                          (* promise.getFuture(), the copy kept *)
| CopyFuture
| DestroyFuture
| CopyPromise
| DestroyPromise
| Resolve (value : option T)
| Release (polls : list cv_status).

(** A call of a member function is one transition.  resolve() and
    release() are two statements each and share no lock: a call of one
    that falls between the two statements of the other is not a run of
    this system, and nothing is stated below about such overlaps. *)
Definition step (a : action) (s : channel) : option channel :=
  match a with
  | GetFuture =>
      if 0 <? promises s
      then Some {| cell := Future_copy (cell s); promises := promises s;
                   futures := S (futures s) |}
      else None
  | CopyFuture =>
      if 0 <? futures s
      then Some {| cell := Future_copy (cell s); promises := promises s;
                   futures := S (futures s) |}
      else None
  | DestroyFuture =>
      if 0 <? futures s
      then Some {| cell := Future_destroy (cell s); promises := promises s;
                   futures := futures s - 1 |}
      else None
  | CopyPromise =>
      if 0 <? promises s
      then Some {| cell := Future_copy (cell s); promises := S (promises s);
                   futures := futures s |}
      else None
  | DestroyPromise =>
      if 0 <? promises s
      then Some {| cell := Future_destroy (cell s); promises := promises s - 1;
                   futures := futures s |}
      else None
  | Resolve value =>
      if 0 <? promises s
      then Some {| cell := resolve value (cell s); promises := promises s;
                   futures := futures s |}
      else None
  | Release polls =>
      if 0 <? futures s
      then match release polls (cell s) with
           | Some (_, c) => Some {| cell := c; promises := promises s;
                                    futures := futures s |}
           | None => None
           end
      else None
  end.

Definition reachable : channel → Prop := reach step init.

(** Actions that neither resolve the promise (again) nor release the value. *)
Definition observing (a : action) : bool :=
  match a with
  | Resolve _ | Release _ => false
  | _ => true
  end.

(** T* get(const Cancelable* cancelable):
      while(!_ev->wait(1000u)) {
          if (isAbandoned()) return 0L;
          if (cancelable && cancelable->isCanceled()) return 0L;
      }
      return _objRef->_obj.get();

    [has] tells whether [cancelable] is a non-null pointer; each poll
    carries what [wait_for] reports and what [isCanceled()] would answer
    at that moment. *)
Fixpoint get_cancelable (has : bool) (polls : list (cv_status * bool))
    (c : shared) : option (option T) :=
  match polls with
  | [] => if Event._set (_ev c) then Some (_obj c) else None
  | (r, canceled) :: rest =>
      if Event.wait_for_result (Event._set (_ev c)) r then Some (_obj c)
      else if isAbandoned c then Some None
      else if has && canceled then Some None
      else get_cancelable has rest c
  end.

(** T* release(const Cancelable* cancelable) *)
Fixpoint release_cancelable (has : bool) (polls : list (cv_status * bool))
    (c : shared) : option (option T * shared) :=
  let taken :=
    (_obj c, {| _ev := Event.reset (_ev c); _obj := None;
                referenceCount := referenceCount c |}) in
  match polls with
  | [] => if Event._set (_ev c) then Some taken else None
  | (r, canceled) :: rest =>
      if Event.wait_for_result (Event._set (_ev c)) r then Some taken
      else if isAbandoned c then Some (None, c)
      else if has && canceled then Some (None, c)
      else release_cancelable has rest c
  end.

(** bool FutureResult::isReady() const
      { return _future.isAvailable() || _future.isAbandoned(); } *)
Definition isReady (c : shared) : bool := isAvailable c || isAbandoned c.

(** FutureResult(T* data) { Promise<T> p; _future = p.getFuture();
                           p.resolve(data); }
    The cell of [p] is copied into [_future], resolved, and loses the
    promise's reference when [p] goes out of scope. *)
Definition FutureResult_immediate (data : option T) : shared :=
  Future_destroy (resolve data (Future_copy Future_new)).

End WithValue.
Arguments shared : clear implicits.
Arguments channel : clear implicits.
Arguments action : clear implicits.
End Future.

(** ** Gate *)

Module Gate.

(** The map's value type is [int]. *)
Definition int (z : Z) : Z := ((z + 2 ^ 31) `mod` 2 ^ 32 - 2 ^ 31)%Z.

Definition remove_first (t : nat) : list nat → list nat :=
  fix go l :=
    match l with
    | [] => []
    | x :: r => if decide (x = t) then r else x :: go r
    end.

Section WithKey.
Context {K : Type} `{Countable K}.

Inductive status :=
| Idle
| Blocked (key : K)   (* parked in _unlocked.wait inside lock(key) *)
| Woken (key : K).    (* unparked, _m not yet re-acquired *)

(** [holders k] lists the threads whose [lock(k)] has returned and whose
    [unlock(k)] has not run yet; it is bookkeeping of the model, the code
    keeps only the counts. *)
Record gate := mk {
  _users : gmap K Z;
  thr : nat → status;
  holders : K → list nat;
}.

Definition init : gate :=
  {| _users := ∅; thr := fun _ => Idle; holders := fun _ => [] |}.

(** [_users[key]]: [std::unordered_map::operator[]] inserts a
    value-initialised entry when the key is missing. *)
Definition index (key : K) (m : gmap K Z) : Z * gmap K Z :=
  match m !! key with
  | Some c => (c, m)
  | None => (0%Z, <[key := 0%Z]> m)
  end.

Definition wake (s : status) : status :=
  match s with
  | Blocked k => Woken k
  | _ => s
  end.

(** Gate::lock(key) from the loop test on, [_m] held:
      while(_users[key] > 0) _unlocked.wait(lock);
      ++_users[key]; *)
Definition lock_body (t : nat) (key : K) (g : gate) : gate :=
  let '(c, m) := index key (_users g) in
  if (0 <? c)%Z
  then {| _users := m; thr := upd (thr g) t (Blocked key); holders := holders g |}
  else
    let '(c', m') := index key m in
    {| _users := <[key := int (c' + 1)]> m';
       thr := upd (thr g) t Idle;
       holders := upd (holders g) key (t :: holders g key) |}.

(** Gate::unlock(key):
      --_users[key];
      if (_users[key] == 0) { _users.erase(key); _unlocked.notify_all(); } *)
Definition unlock (t : nat) (key : K) (g : gate) : gate :=
  let '(c, m) := index key (_users g) in
  let m1 := <[key := int (c - 1)]> m in
  let '(c1, m2) := index key m1 in
  let hs := upd (holders g) key (remove_first t (holders g key)) in
  if (c1 =? 0)%Z
  then {| _users := delete key m2; thr := fun u => wake (thr g u); holders := hs |}
  else {| _users := m2; thr := thr g; holders := hs |}.

Inductive action :=
| Lock (t : nat) (key : K)     (* t calls lock(key) *)
| Retry (t : nat)              (* a woken t re-acquires _m and re-tests *)
| Unlock (t : nat) (key : K)   (* a holder of key calls unlock(key) *)
| Spurious (t : nat).

Definition step (a : action) (g : gate) : option gate :=
  match a with
  | Lock t key =>
      match thr g t with
      | Idle => Some (lock_body t key g)
      | _ => None
      end
  | Retry t =>
      match thr g t with
      | Woken key => Some (lock_body t key g)
      | _ => None
      end
  | Unlock t key =>
      match thr g t with
      | Idle => if decide (t ∈ holders g key) then Some (unlock t key g) else None
      | _ => None
      end
  | Spurious t =>
      match thr g t with
      | Blocked key =>
          Some {| _users := _users g; thr := upd (thr g) t (Woken key);
                  holders := holders g |}
      | _ => None
      end
  end.

Definition reachable : gate → Prop := reach step init.

(** In well-bracketed use every key is either absent and held by nobody,
    or present with count 1 and held by exactly one thread. *)
Definition consistent (g : gate) : Prop :=
  ∀ k, (_users g !! k = None ∧ holders g k = []) ∨
       (_users g !! k = Some 1%Z ∧ ∃ t, holders g k = [t]).

(** The count [unlock(key)] leaves after its decrement. *)
Definition decremented (key : K) (g : gate) : Z :=
  int (default 0%Z (_users g !! key) - 1).

End WithKey.
Arguments status : clear implicits.
Arguments gate K {_ _}.
Arguments action : clear implicits.
End Gate.

(** ** ReadWriteMutex *)

Module ReadWriteMutex.

Local Open Scope Z_scope.

(** [_writers] and [_readers] are [unsigned]: arithmetic modulo 2^32. *)
Definition unsigned (z : Z) : Z := z `mod` 2 ^ 32.

Inductive status :=
| Idle
| BlockedR    (* parked in _unlocked.wait inside read_lock()  *)
| WokenR
| BlockedW    (* parked in _unlocked.wait inside write_lock() *)
| WokenW.

(** [read_holds] and [write_holds] count the read_lock() / write_lock()
    calls that have returned and whose unlock has not run yet; they are
    bookkeeping of the model and the code never reads them. *)
Record rwmutex := mk {
  _writers : Z;
  _readers : Z;
  thr : nat → status;
  read_holds : Z;
  write_holds : Z;
}.

(** ReadWriteMutex() : _readers(0), _writers(0) *)
Definition init : rwmutex :=
  {| _writers := 0; _readers := 0; thr := fun _ => Idle;
     read_holds := 0; write_holds := 0 |}.

Definition wake (s : status) : status :=
  match s with
  | BlockedR => WokenR
  | BlockedW => WokenW
  | _ => s
  end.

(** read_lock() from the loop test on:
      while (_writers > 0) _unlocked.wait(lock);
      ++_readers; *)
Definition read_lock_body (t : nat) (m : rwmutex) : rwmutex :=
  if 0 <? _writers m
  then {| _writers := _writers m; _readers := _readers m;
          thr := upd (thr m) t BlockedR;
          read_holds := read_holds m; write_holds := write_holds m |}
  else {| _writers := _writers m; _readers := unsigned (_readers m + 1);
          thr := upd (thr m) t Idle;
          read_holds := read_holds m + 1; write_holds := write_holds m |}.

(** read_unlock(): --_readers; if (_readers == 0) _unlocked.notify_all(); *)
Definition read_unlock (m : rwmutex) : rwmutex :=
  let r := unsigned (_readers m - 1) in
  {| _writers := _writers m; _readers := r;
     thr := if r =? 0 then (fun u => wake (thr m u)) else thr m;
     read_holds := read_holds m - 1; write_holds := write_holds m |}.

(** write_lock() from the loop test on:
      while (_writers > 0 || _readers > 0) _unlocked.wait(lock);
      ++_writers; *)
Definition write_lock_body (t : nat) (m : rwmutex) : rwmutex :=
  if (0 <? _writers m) || (0 <? _readers m)
  then {| _writers := _writers m; _readers := _readers m;
          thr := upd (thr m) t BlockedW;
          read_holds := read_holds m; write_holds := write_holds m |}
  else {| _writers := unsigned (_writers m + 1); _readers := _readers m;
          thr := upd (thr m) t Idle;
          read_holds := read_holds m; write_holds := write_holds m + 1 |}.

(** write_unlock(): _writers = 0; _unlocked.notify_all(); *)
Definition write_unlock (m : rwmutex) : rwmutex :=
  {| _writers := 0; _readers := _readers m;
     thr := fun u => wake (thr m u);
     read_holds := read_holds m; write_holds := write_holds m - 1 |}.

Inductive action :=
| ReadLock (t : nat)
| ReadUnlock (t : nat)     (* by a thread that holds a read lock *)
| WriteLock (t : nat)
| WriteUnlock (t : nat)    (* by the thread that holds the write lock *)
| Retry (t : nat)          (* a woken t re-acquires _m and re-tests *)
| Spurious (t : nat).

Definition step (a : action) (m : rwmutex) : option rwmutex :=
  match a with
  | ReadLock t =>
      match thr m t with Idle => Some (read_lock_body t m) | _ => None end
  | WriteLock t =>
      match thr m t with Idle => Some (write_lock_body t m) | _ => None end
  | ReadUnlock t =>
      match thr m t with
      | Idle => if 0 <? read_holds m then Some (read_unlock m) else None
      | _ => None
      end
  | WriteUnlock t =>
      match thr m t with
      | Idle => if 0 <? write_holds m then Some (write_unlock m) else None
      | _ => None
      end
  | Retry t =>
      match thr m t with
      | WokenR => Some (read_lock_body t m)
      | WokenW => Some (write_lock_body t m)
      | _ => None
      end
  | Spurious t =>
      match thr m t with
      | BlockedR | BlockedW =>
          Some {| _writers := _writers m; _readers := _readers m;
                  thr := upd (thr m) t (wake (thr m t));
                  read_holds := read_holds m; write_holds := write_holds m |}
      | _ => None
      end
  end.

Definition reachable : rwmutex → Prop := reach step init.

(** States reached without ever having 2^32 or more read holds
    outstanding. *)
Inductive reachable_below : rwmutex → Prop :=
| below_init : reachable_below init
| below_step a m m' :
    reachable_below m → step a m = Some m' → read_holds m' < 2 ^ 32 →
    reachable_below m'.

(** What the counters are while fewer than 2^32 read holds are
    outstanding. *)
Definition counted (m : rwmutex) : Prop :=
  _writers m = write_holds m ∧ (write_holds m = 0 ∨ write_holds m = 1) ∧
  _readers m = read_holds m ∧ 0 ≤ read_holds m < 2 ^ 32 ∧
  (write_holds m = 1 → read_holds m = 0).

(** "Unlocked", "a writer holds it", "readers hold it". *)
Definition unlocked (m : rwmutex) : Prop := read_holds m = 0 ∧ write_holds m = 0.
Definition writer_holds (m : rwmutex) : Prop := 0 < write_holds m.
Definition readers_hold (m : rwmutex) : Prop := 0 < read_holds m.

(** The invariant of the specification. *)
Definition invariant (m : rwmutex) : Prop :=
  (unlocked m → _writers m = 0) ∧
  (writer_holds m → _writers m = 1 ∧ _readers m = 0) ∧
  (readers_hold m → 1 ≤ _readers m ∧ _writers m = 0) ∧
  ¬ (writer_holds m ∧ readers_hold m).

End ReadWriteMutex.

(** ** ThreadPool *)

Module ThreadPool.

(** stopThreads() writes [_done] and broadcasts on [_block] without taking
    [_queueMutex], so here the worker's wait is cut once more: evaluating
    the wait predicate (mutex held) and parking (mutex released) are two
    transitions, and what does not need the mutex can run in between. *)

Inductive wstatus :=
| NoThread         (* no such worker *)
| Top              (* at the test of while(!_done) *)
| AtWait           (* about to lock _queueMutex and enter _block.wait *)
| Parking          (* predicate found false, about to park; holds the mutex *)
| Blocked          (* parked in _block.wait *)
| Woken            (* unparked, _queueMutex not yet re-acquired *)
| Has (op : nat)   (* op dequeued into the local ref_ptr, not yet run *)
| Ran (op : nat)   (* op has run, getKeep() not yet read *)
| Exited.          (* the thread function returned *)

(** Where the thread running ~ThreadPool() / stopThreads() stands. *)
Inductive dstatus :=
| Live                 (* not being destroyed *)
| DoneSet              (* _done = true written *)
| Joining (i : nat)    (* in the join loop, threads below i joined *)
| Destroyed.           (* the destructor has returned *)

(** How often [op] occurs in a log. *)
Definition times (op : nat) (log : list nat) : nat :=
  length (filter (λ x, x = op) log).

Section WithOperations.

(** An [osg::Operation] is known by its address (a [nat]; the null pointer
    is [None] where one can be passed).  What running it does and what its
    keep flag reads are the operation's own business: [World] stands for
    everything operations can touch. *)
Context {World : Type}.
Variable execute : nat → World → World.   (* op->operator()(nullptr) *)
Variable getKeep : nat → World → bool.    (* op->getKeep() *)

(** [_queueMutex] is [Some w] while worker [w] holds the mutex from one
    transition to the next, [None] when it is free between transitions.
    [executed] logs the operations run, oldest first; it is bookkeeping of
    the model. *)
Record pool := mk {
  _queue : list nat;          (* front of the std::queue first *)
  _queueMutex : option nat;
  _done : bool;
  _numThreads : nat;
  _threads : list nat;        (* the std::thread handles, by worker number *)
  workers : nat → wstatus;
  dtor : dstatus;
  world : World;
  executed : list nat;
}.

(** ThreadPool(numThreads): _done(false), then startThreads(). *)
Definition init (numThreads : nat) (w : World) : pool :=
  {| _queue := []; _queueMutex := None; _done := false;
     _numThreads := numThreads; _threads := seq 0 numThreads;
     workers := fun i => if decide (i < numThreads) then Top else NoThread;
     dtor := Live; world := w; executed := [] |}.

Definition free (p : pool) : bool :=
  match _queueMutex p with
  | None => true
  | Some _ => false
  end.

Definition set_worker (p : pool) (w : nat) (s : wstatus) : pool :=
  {| _queue := _queue p; _queueMutex := _queueMutex p; _done := _done p;
     _numThreads := _numThreads p; _threads := _threads p;
     workers := upd (workers p) w s;
     dtor := dtor p; world := world p; executed := executed p |}.

Definition wake (s : wstatus) : wstatus :=
  match s with
  | Blocked => Woken
  | _ => s
  end.

(** _block.notify_all(): only parked threads are woken. *)
Definition notify_all (p : pool) : pool :=
  {| _queue := _queue p; _queueMutex := _queueMutex p; _done := _done p;
     _numThreads := _numThreads p; _threads := _threads p;
     workers := fun i => wake (workers p i);
     dtor := dtor p; world := world p; executed := executed p |}.

(** The worker's critical section, from taking the free _queueMutex on:
      _block.wait(lock, [this] { return !_queue.empty() || _done; });
      if (!_queue.empty() && !_done) { op = _queue.front(); _queue.pop(); }
    When the predicate is false the worker keeps the mutex and goes on to
    park. *)
Definition wait_body (w : nat) (p : pool) : pool :=
  if negb (bool_decide (_queue p = [])) || _done p
  then match _queue p with
       | op :: rest =>
           if negb (_done p)
           then {| _queue := rest; _queueMutex := _queueMutex p;
                   _done := _done p; _numThreads := _numThreads p;
                   _threads := _threads p;
                   workers := upd (workers p) w (Has op);
                   dtor := dtor p; world := world p; executed := executed p |}
           else set_worker p w Top
       | [] => set_worker p w Top
       end
  else {| _queue := _queue p; _queueMutex := Some w; _done := _done p;
          _numThreads := _numThreads p; _threads := _threads p;
          workers := upd (workers p) w Parking;
          dtor := dtor p; world := world p; executed := executed p |}.

(** The condition variable releases the mutex and parks the caller. *)
Definition park (w : nat) (p : pool) : pool :=
  {| _queue := _queue p; _queueMutex := None; _done := _done p;
     _numThreads := _numThreads p; _threads := _threads p;
     workers := upd (workers p) w Blocked;
     dtor := dtor p; world := world p; executed := executed p |}.

(** op->operator()(nullptr), written [( *op.get())(nullptr)] in the source *)
Definition run_op (w op : nat) (p : pool) : pool :=
  {| _queue := _queue p; _queueMutex := _queueMutex p; _done := _done p;
     _numThreads := _numThreads p; _threads := _threads p;
     workers := upd (workers p) w (Ran op);
     dtor := dtor p; world := execute op (world p);
     executed := executed p ++ [op] |}.

(** if (op->getKeep()) { lock; _queue.push(op); }  op = nullptr; *)
Definition requeue (w op : nat) (p : pool) : pool :=
  {| _queue := if getKeep op (world p) then _queue p ++ [op] else _queue p;
     _queueMutex := _queueMutex p; _done := _done p;
     _numThreads := _numThreads p; _threads := _threads p;
     workers := upd (workers p) w Top;
     dtor := dtor p; world := world p; executed := executed p |}.

(** void ThreadPool::run(osg::Operation* op), for a non-null [op]:
      lock; _queue.push(op); _block.notify_all(); *)
Definition run_ (op : nat) (p : pool) : pool :=
  notify_all
    {| _queue := _queue p ++ [op]; _queueMutex := _queueMutex p;
       _done := _done p; _numThreads := _numThreads p;
       _threads := _threads p; workers := workers p; dtor := dtor p;
       world := world p; executed := executed p |}.

(** unsigned getNumOperationsInQueue() const { return _queue.size(); }
    The [size_t] is converted to [unsigned]: modulo 2^32. *)
Definition getNumOperationsInQueue (p : pool) : Z :=
  (Z.of_nat (length (_queue p)) `mod` 2 ^ 32)%Z.

Definition set_dtor (p : pool) (d : dstatus) : pool :=
  {| _queue := _queue p; _queueMutex := _queueMutex p; _done := _done p;
     _numThreads := _numThreads p; _threads := _threads p;
     workers := workers p;
     dtor := d; world := world p; executed := executed p |}.

(** stopThreads(), first statement: _done = true;  (no lock taken) *)
Definition stop_set_done (p : pool) : pool :=
  {| _queue := _queue p; _queueMutex := _queueMutex p; _done := true;
     _numThreads := _numThreads p; _threads := _threads p;
     workers := workers p;
     dtor := DoneSet; world := world p; executed := executed p |}.

(** stopThreads(), after the join loop:
      _threads.clear(); { lock; _queue.swap(Queue()); } *)
Definition stop_clear (p : pool) : pool :=
  {| _queue := []; _queueMutex := _queueMutex p; _done := _done p;
     _numThreads := _numThreads p; _threads := [];
     workers := workers p;
     dtor := Destroyed; world := world p; executed := executed p |}.

Inductive action :=
| Loop (w : nat)        (* worker w tests while(!_done) *)
| Enter (w : nat)       (* worker w takes _queueMutex: predicate, dequeue *)
| Park (w : nat)        (* worker w releases the mutex and parks *)
| Exec (w : nat)        (* worker w runs the operation it holds *)
| Requeue (w : nat)     (* worker w reads getKeep() and requeues or drops *)
| Spurious (w : nat)
| Run (op : option nat) (* some thread calls run(op) *)
| StopSetDone           (* ~ThreadPool: _done = true *)
| StopNotify            (* _block.notify_all() *)
| StopJoin              (* _threads[i].join() returns, ++i *)
| StopClear.            (* _threads.clear(), queue swapped out; return *)

(** A transition that locks [_queueMutex] can only happen while the mutex
    is free. *)
Definition step (a : action) (p : pool) : option pool :=
  match a with
  | Loop w =>
      match workers p w with
      | Top => Some (set_worker p w (if _done p then Exited else AtWait))
      | _ => None
      end
  | Enter w =>
      match workers p w with
      | AtWait | Woken => if free p then Some (wait_body w p) else None
      | _ => None
      end
  | Park w =>
      match workers p w with
      | Parking => Some (park w p)
      | _ => None
      end
  | Exec w =>
      match workers p w with
      | Has op => Some (run_op w op p)
      | _ => None
      end
  | Requeue w =>
      match workers p w with
      | Ran op =>
          if getKeep op (world p) && negb (free p) then None
          else Some (requeue w op p)
      | _ => None
      end
  | Spurious w =>
      match workers p w with
      | Blocked => Some (set_worker p w Woken)
      | _ => None
      end
  | Run op =>
      match dtor p with
      | Destroyed => None
      | _ =>
          match op with
          | Some o => if free p then Some (run_ o p) else None
          | None => Some p
          end
      end
  | StopSetDone =>
      match dtor p with
      | Live => Some (stop_set_done p)
      | _ => None
      end
  | StopNotify =>
      match dtor p with
      | DoneSet => Some (set_dtor (notify_all p) (Joining 0))
      | _ => None
      end
  | StopJoin =>
      match dtor p with
      | Joining i =>
          if decide (i < _numThreads p)
          then match _threads p !! i with
               | Some w =>
                   match workers p w with
                   | Exited => Some (set_dtor p (Joining (S i)))
                   | _ => None
                   end
               | None => None
               end
          else None
      | _ => None
      end
  | StopClear =>
      match dtor p with
      | Joining i =>
          if decide (i < _numThreads p) then None
          else if free p then Some (stop_clear p) else None
      | _ => None
      end
  end.

Definition reachable (numThreads : nat) (w : World) : pool → Prop :=
  reach step (init numThreads w).

(** Worker w is between dequeuing [op] and dropping its reference to it. *)
Definition in_flight (p : pool) (op : nat) : Prop :=
  ∃ w, workers p w = Has op ∨ workers p w = Ran op.

(** Worker w holds [op] and has not run it yet. *)
Definition pending (p : pool) (op : nat) : Prop :=
  ∃ w, workers p w = Has op.

(** The worker thread exists and has not returned. *)
Definition alive (s : wstatus) : Prop :=
  match s with
  | NoThread | Exited => False
  | _ => True
  end.

(** ... and is neither parked nor about to park. *)
Definition unblocked (s : wstatus) : Prop :=
  match s with
  | NoThread | Exited | Blocked | Parking => False
  | _ => True
  end.

(** [op] is neither queued nor held by a worker. *)
Definition gone (p : pool) (op : nat) : Prop :=
  (op ∉ _queue p) ∧ ∀ w, workers p w ≠ Has op ∧ workers p w ≠ Ran op.

(** [op] is queued or held by a worker. *)
Definition present (p : pool) (op : nat) : Prop :=
  op ∈ _queue p ∨ in_flight p op.

(** The keep flag of [op] reads true whenever it is read. *)
Definition always_keep (op : nat) : Prop := ∀ w, getKeep op w = true.

Definition resubmits (op : nat) (a : action) : bool :=
  match a with
  | Run (Some o) => o =? op
  | _ => false
  end.

(** The worker, if any, that performs an action. *)
Definition actor (a : action) : option nat :=
  match a with
  | Loop w | Enter w | Park w | Exec w | Requeue w | Spurious w => Some w
  | _ => None
  end.

(** Neither a spurious wake-up nor a new submission. *)
Definition unaided (a : action) : bool :=
  match a with
  | Spurious _ | Run (Some _) => false
  | _ => true
  end.

(** What holds of a pool of [n] threads in every reachable state. *)
Record wf (n : nat) (p : pool) : Prop := mk_wf {
  wf_num : _numThreads p = n;
  wf_done : dtor p ≠ Live → _done p = true;
  wf_live : dtor p = Live → _done p = false;
  wf_threads : dtor p ≠ Destroyed → _threads p = seq 0 n;
  wf_none : ∀ w, n ≤ w → workers p w = NoThread;
  wf_some : ∀ w, w < n → workers p w ≠ NoThread;
  wf_mutex : ∀ w, _queueMutex p = Some w ↔ workers p w = Parking;
  wf_parking : ∀ w, workers p w = Parking → _queue p = [];
  wf_alive : _done p = false → ∀ w, w < n → alive (workers p w);
  wf_unblocked :
    0 < n → _done p = false → _queue p ≠ [] → ∃ w, unblocked (workers p w);
  wf_join :
    ∀ i, dtor p = Joining i → i ≤ n ∧ (∀ w, w < i → workers p w = Exited);
  wf_destroyed :
    dtor p = Destroyed →
      (∀ w, w < n → workers p w = Exited) ∧ _threads p = [] ∧ _queue p = [];
}.

(** [p'] differs from [p] in worker [w], the queue, the world and the log
    at most. *)
Definition frame (w : nat) (p p' : pool) : Prop :=
  (∀ u, u ≠ w → workers p' u = workers p u) ∧
  _done p' = _done p ∧ dtor p' = dtor p ∧
  _numThreads p' = _numThreads p ∧ _threads p' = _threads p ∧
  _queueMutex p' = _queueMutex p.

(** The actions that take worker [w], wherever it is, to its exit once
    [_done] is set. *)
Definition exit_path (s : wstatus) (w : nat) : list action :=
  match s with
  | Top => [Loop w]
  | AtWait | Woken => [Enter w; Loop w]
  | Has _ => [Exec w; Requeue w; Loop w]
  | Ran _ => [Requeue w; Loop w]
  | _ => []
  end.

(** The operations passed to run(), in the order of the calls. *)
Definition submitted (acts : list action) : list nat :=
  omap (λ a, match a with Run (Some op) => Some op | _ => None end) acts.

(** [op] has been run, is queued, or is held by a worker. *)
Definition known (p : pool) (op : nat) : Prop :=
  op ∈ executed p ∨ op ∈ _queue p ∨ in_flight p op.

(** The keep flag of [op] reads false whenever it is read. *)
Definition never_keep (op : nat) : Prop := ∀ w, getKeep op w = false.

End WithOperations.
Arguments pool : clear implicits.
End ThreadPool.

(** ** RecursiveMutex *)

Module RecursiveMutex.

(** The [std::recursive_mutex] behind [_handle] belongs to the C++
    library, not to the sources; it is modelled as the standard describes
    it: owned by at most one thread, which may lock it again, and set free
    by as many unlock() calls as there were lock() calls. *)
Record native := mkn {
  owner : option nat;
  depth : nat;
}.

Definition native_free : native := {| owner := None; depth := 0 |}.

(** [None]: the caller has to wait. *)
Definition native_lock (t : nat) (h : native) : option native :=
  match owner h with
  | None => Some {| owner := Some t; depth := 1 |}
  | Some o =>
      if decide (o = t) then Some {| owner := Some t; depth := S (depth h) |}
      else None
  end.

Definition native_try_lock (t : nat) (h : native) : bool * native :=
  match native_lock t h with
  | Some h' => (true, h')
  | None => (false, h)
  end.

(** Unlocking a mutex one does not own is undefined; the model leaves the
    mutex as it is. *)
Definition native_unlock (t : nat) (h : native) : native :=
  match owner h with
  | Some o =>
      if decide (o = t)
      then match depth h with
           | S (S d) => {| owner := Some t; depth := S d |}
           | _ => native_free
           end
      else h
  | None => h
  end.

Record rmutex := mk {
  _enabled : bool;
  _handle : native;
}.

(** RecursiveMutex() : _enabled(true), a new std::recursive_mutex *)
Definition init : rmutex := {| _enabled := true; _handle := native_free |}.

(** void disable() { _enabled = false; } *)
Definition disable (m : rmutex) : rmutex :=
  {| _enabled := false; _handle := _handle m |}.

(** void lock() { if (_enabled) handle->lock(); } *)
Definition lock (t : nat) (m : rmutex) : option rmutex :=
  if _enabled m
  then match native_lock t (_handle m) with
       | Some h => Some {| _enabled := _enabled m; _handle := h |}
       | None => None
       end
  else Some m.

(** void unlock() { if (_enabled) handle->unlock(); } *)
Definition unlock (t : nat) (m : rmutex) : rmutex :=
  if _enabled m
  then {| _enabled := _enabled m; _handle := native_unlock t (_handle m) |}
  else m.

(** bool try_lock() { if (_enabled) return handle->try_lock();
                      else return true; } *)
Definition try_lock (t : nat) (m : rmutex) : bool * rmutex :=
  if _enabled m
  then let '(b, h) := native_try_lock t (_handle m) in
       (b, {| _enabled := _enabled m; _handle := h |})
  else (true, m).

Inductive action :=
| Lock (t : nat)
| TryLock (t : nat)
| Unlock (t : nat)     (* by the owner, as the caller contract demands *)
| Disable.

Definition step (a : action) (m : rmutex) : option rmutex :=
  match a with
  | Lock t => lock t m
  | TryLock t => Some (snd (try_lock t m))
  | Unlock t =>
      if _enabled m
      then if decide (owner (_handle m) = Some t) then Some (unlock t m) else None
      else Some (unlock t m)
  | Disable => Some (disable m)
  end.

(** [t] locks [n] times in a row. *)
Definition lock_n (t n : nat) (m : rmutex) : option rmutex :=
  Nat.iter n (λ r, r ≫= lock t) (Some m).

Definition unlock_n (t n : nat) (m : rmutex) : rmutex :=
  Nat.iter n (unlock t) m.

End RecursiveMutex.

(** ** ScopedAtomicCounter *)

Module ScopedAtomicCounter.

Local Open Scope Z_scope.

(** The value of a [std::atomic_int]: arithmetic wraps around in two's
    complement. *)
Definition atomic_int (z : Z) : Z := (z + 2 ^ 31) `mod` 2 ^ 32 - 2 ^ 31.

Definition in_range (z : Z) : Prop := - 2 ^ 31 ≤ z < 2 ^ 31.

(** ScopedAtomicCounter(std::atomic_int& a) : _a(a) { ++_a; } *)
Definition enter (a : Z) : Z := atomic_int (a + 1).

(** ~ScopedAtomicCounter() { --_a; } *)
Definition leave (a : Z) : Z := atomic_int (a - 1).

End ScopedAtomicCounter.

(** * Properties *)

(** ** Runs *)

Section RunFacts.
Context {A S : Type} (step : A → S → option S).

Lemma run_app acts1 acts2 s :
  run step (acts1 ++ acts2) s = run step acts1 s ≫= run step acts2.
Proof.
  revert s. induction acts1 as [|a acts1 IH]; intros s; simpl; [done|].
  destruct (step a s); simpl; auto.
Qed.

Lemma run_app_Some acts1 acts2 s s1 s2 :
  run step acts1 s = Some s1 → run step acts2 s1 = Some s2 →
  run step (acts1 ++ acts2) s = Some s2.
Proof. intros H1 H2. rewrite run_app, H1. exact H2. Qed.

Lemma run_app_inv acts1 acts2 s s2 :
  run step (acts1 ++ acts2) s = Some s2 →
  ∃ s1, run step acts1 s = Some s1 ∧ run step acts2 s1 = Some s2.
Proof.
  rewrite run_app. destruct (run step acts1 s) as [s1|]; simpl; [eauto | done].
Qed.

Lemma run_cons_inv a acts s s2 :
  run step (a :: acts) s = Some s2 →
  ∃ s1, step a s = Some s1 ∧ run step acts s1 = Some s2.
Proof. simpl. destruct (step a s) as [s1|]; [eauto | done]. Qed.

Lemma reach_run init acts s s' :
  reach step init s → run step acts s = Some s' → reach step init s'.
Proof.
  revert s. induction acts as [|a acts IH]; intros s Hs Hrun; simpl in Hrun.
  - by inversion Hrun; subst.
  - destruct (step a s) as [s1|] eqn:E; [|done].
    eapply IH; [|exact Hrun]. eapply reach_step; eauto.
Qed.

Lemma run_reach init acts s : run step acts init = Some s → reach step init s.
Proof. apply reach_run, reach_init. Qed.

(** A property kept by every transition holds along every run. *)
Lemma run_preserves (P : S → Prop) (ok : A → bool) :
  (∀ a s s', ok a = true → P s → step a s = Some s' → P s') →
  ∀ acts s s', forallb ok acts = true → P s → run step acts s = Some s' → P s'.
Proof.
  intros Hstep. induction acts as [|a acts IH]; intros s s' Hok HP Hrun.
  - simpl in Hrun. by inversion Hrun; subst.
  - simpl in Hok. apply andb_prop in Hok as [Ha Hacts].
    apply run_cons_inv in Hrun as (s1 & H1 & H2). eauto.
Qed.

End RunFacts.

Lemma upd_eq {K} `{EqDecision K} {V} (f : K → V) k v : upd f k v k = v.
Proof. unfold upd. by rewrite decide_True. Qed.

Lemma upd_ne {K} `{EqDecision K} {V} (f : K → V) k v j :
  j ≠ k → upd f k v j = f j.
Proof. intros. unfold upd. by rewrite decide_False. Qed.

(** Splits on whether the thread looked at is the one just updated. *)
Ltac upd_cases :=
  repeat match goal with
  | |- context [upd _ ?k _ ?j] =>
      destruct (decide (j = k)) as [->|?];
      [rewrite !upd_eq | rewrite !upd_ne by done]
  | H : context [upd _ ?k _ ?j] |- _ =>
      destruct (decide (j = k)) as [->|?];
      [rewrite !upd_eq in H | rewrite !upd_ne in H by done]
  end.

(** ** Event *)

Section EventFacts.
Import Event.

Lemma ev_thr_iter_notify n e t :
  thr (Nat.iter (S n) notify_all e) t = wake (thr e t).
Proof.
  induction n as [|n IH]; [done|].
  change (Nat.iter (S (S n)) notify_all e)
    with (notify_all (Nat.iter (S n) notify_all e)).
  cbn [notify_all thr]. rewrite IH. by destruct (thr e t).
Qed.

Lemma ev_set_iter_notify n e : _set (Nat.iter n notify_all e) = _set e.
Proof. induction n as [|n IH]; [done|]. simpl. exact IH. Qed.

Lemma ev_thr_destroy e t : thr (destroy e) t = wake (thr e t).
Proof. unfold destroy. by rewrite ev_thr_iter_notify. Qed.

Lemma ev_set_destroy e : _set (destroy e) = false.
Proof. unfold destroy. by rewrite ev_set_iter_notify. Qed.

(** From here on the destructor is used through the two lemmas above. *)
Opaque destroy.

(** A parked thread is parked on an unsignaled event. *)
Lemma ev_blocked_unsignaled e :
  reachable e → ∀ t k, thr e t = Blocked k → _set e = false.
Proof.
  induction 1 as [|a e e' _ IH Hstep]; [done|].
  intros t k Ht. destruct a as [u c|u|u|u]; simpl in Hstep.
  - destruct (ready (thr e u)) eqn:Hr; [|done].
    injection Hstep as <-.
    destruct c; simpl in *;
      unfold wait_enter, wait_for_enter, waitAndReset_enter, set, reset in *;
      destruct (_set e) eqn:Hs; simpl in *; try done; upd_cases; try done; eauto.
    by destruct (thr e t).
  - destruct (thr e u) as [|?|k' r|?] eqn:Hu; try done.
    injection Hstep as <-. destruct k'; simpl in *; upd_cases; try done; eauto.
  - destruct (thr e u) as [|[]|?|?] eqn:Hu; try done.
    injection Hstep as <-. simpl in *. upd_cases; try done; eauto.
  - destruct (thr e u) as [|?|?|?] eqn:Hu; try done.
    injection Hstep as <-. simpl in *. upd_cases; try done; eauto.
Qed.

(** C5. [set()] on an unsignaled event makes it signaled and unparks every
    parked waiter (none is left parked); [set()] on a signaled event
    returns the very same state, so nobody is notified; [reset()] makes the
    event unsignaled whatever it was, and touches no waiter. *)
Theorem ev_set_reset_transitions (e : event) :
  (_set e = false →
     _set (set e) = true ∧
     ∀ t, thr (set e) t = wake (thr e t) ∧ ∀ k, thr (set e) t ≠ Blocked k) ∧
  (_set e = true → set e = e) ∧
  (_set (reset e) = false ∧ thr (reset e) = thr e) ∧
  (∀ t, ready (thr e t) = true →
     step (Call t CSet) e = Some (set e) ∧
     step (Call t CReset) e = Some (reset e)).
Proof.
  repeat split.
  - unfold set. by rewrite H.
  - unfold set. by rewrite H.
  - unfold set. rewrite H. simpl. by destruct (thr e t).
  - intros H. unfold set. by rewrite H.
  - simpl. by rewrite H.
  - simpl. by rewrite H.
Qed.

Ltac ev_step_cases H :=
  match type of H with
  | step ?a ?e = Some ?e' =>
      destruct a as [?u ?c|?u|?u|?u]; simpl in H;
      [ destruct (ready (thr e u)) eqn:?Hr; [|discriminate H];
        injection H as <-; destruct c; simpl;
        unfold wait_enter, wait_for_enter, waitAndReset_enter, set, reset;
        destruct (_set e) eqn:?Hs; simpl
      | let kw := fresh "kw" in
        destruct (thr e u) as [|?|kw ?r|?] eqn:?Hu; try discriminate H;
        injection H as <-; destruct kw; simpl
      | destruct (thr e u) as [|[]|?|?] eqn:?Hu; try discriminate H;
        injection H as <-; simpl
      | destruct (thr e u) as [|?|?|?] eqn:?Hu; try discriminate H;
        injection H as <-; simpl ]
  end.

Lemma ev_in_wait_step t a e e' :
  other_call t a = true → in_wait (thr e t) → step a e = Some e' →
  in_wait (thr e' t).
Proof.
  unfold in_wait. intros Ha Ht Hstep.
  ev_step_cases Hstep; simpl in Ha; upd_cases;
    try (rewrite Nat.eqb_refl in Ha; discriminate Ha);
    try exact Ht;
    try (rewrite Hu in Ht; destruct Ht as [Ht|[Ht|Ht]]; inversion Ht; subst; auto).
  all: destruct Ht as [->|[->| ->]]; simpl; auto.
Qed.

Lemma ev_stays_blocked_step t k a e e' :
  other_call t a && negb (releases t a) = true →
  thr e t = Blocked k → step a e = Some e' →
  k = Timed ∧ elapse_of t a = true ∨ thr e' t = Blocked k.
Proof.
  intros Ha Ht Hstep. apply andb_prop in Ha as [Ha Hb].
  ev_step_cases Hstep; simpl in Ha, Hb |- *; upd_cases;
    try (rewrite Nat.eqb_refl in Ha; discriminate Ha);
    try (rewrite Nat.eqb_refl in Hb; discriminate Hb);
    try discriminate Hb;
    try (right; exact Ht);
    try (rewrite Hu in Ht; inversion Ht; subst; rewrite ?Nat.eqb_refl; auto; fail).
Qed.

(** Until something releases it, a thread parked in wait() stays parked. *)
Lemma ev_stays_blocked_run t acts e e' :
  forallb (fun a => other_call t a && negb (releases t a)) acts = true →
  thr e t = Blocked Untimed → run step acts e = Some e' →
  thr e' t = Blocked Untimed.
Proof.
  apply (run_preserves step (fun e => thr e t = Blocked Untimed)).
  intros a s s' Ha Hs Hstep.
  destruct (ev_stays_blocked_step _ _ _ _ _ Ha Hs Hstep) as [[? _]|?]; done.
Qed.

Lemma ev_quiet_step t a e e' :
  other_call t a && undisturbed t a = true →
  quiet_inv t e → step a e = Some e' → quiet_inv t e'.
Proof.
  intros Ha [Hc Ht] Hstep. apply andb_prop in Ha as [Ha Hb].
  assert (Hcu := Hc).
  unfold quiet_inv, no_consumer in *.
  ev_step_cases Hstep; try discriminate Hb; simpl in Ha, Hb |- *;
    try discriminate Hb;
    try (specialize (Hcu u); rewrite Hu in Hcu; done).
  all: split;
    [ intros v; specialize (Hc v); unfold upd; try case_decide; try done;
      try (by destruct (thr e v) as [|[]|[]|]);
      by (subst v; rewrite Hu in Hc) |].
  all: upd_cases; try (rewrite Nat.eqb_refl in Ha; discriminate Ha);
    try (rewrite Nat.eqb_refl in Hb; discriminate Hb); try exact Ht.
  all: destruct Ht as [Ht|[[Ht|Ht] Hs']]; rewrite ?Ht;
    try (rewrite Ht in Hu; discriminate Hu);
    try (rewrite Ht in Hr; discriminate Hr); simpl; auto.
Qed.

Lemma ev_returned_step t b a e e' :
  other_call t a = true → thr e t = Returned b → step a e = Some e' →
  thr e' t = Returned b.
Proof.
  intros Ha Ht Hstep.
  ev_step_cases Hstep; simpl in Ha; upd_cases;
    try (rewrite Nat.eqb_refl in Ha; discriminate Ha);
    try exact Ht; try congruence.
  all: by rewrite Ht.
Qed.

Lemma ev_forallb_not_exists {X} (f g : X → bool) l :
  forallb f l = true → existsb g l = false →
  forallb (fun a => f a && negb (g a)) l = true.
Proof.
  induction l as [|x l IH]; simpl; [done|].
  intros [Hf Hl]%andb_prop [Hg Hl']%orb_false_elim.
  rewrite Hf, Hg. simpl. auto.
Qed.

Lemma ev_forallb_and {X} (f g : X → bool) l :
  forallb f l = true → forallb g l = true →
  forallb (fun a => f a && g a) l = true.
Proof.
  induction l as [|x l IH]; simpl; [done|].
  intros [Hf Hl]%andb_prop [Hg Hl']%andb_prop.
  rewrite Hf, Hg. simpl. auto.
Qed.

(** What Event::wait() does keep.  It only ever returns [true].  On a
    signaled event it returns without parking.  On an unsignaled event the
    caller parks, and leaves the parked state only on a set() or on a
    spurious wake-up.  It returns without reading [_set] again; [_set] is
    true at the return when, since the call, nothing cleared it (reset(),
    waitAndReset()) and the caller was not woken spuriously. *)
Lemma ev_wait_returns_when_released e t acts e' :
  ready (thr e t) = true →
  run step (Call t CWait :: acts) e = Some e' →
  forallb (other_call t) acts = true →
  in_wait (thr e' t) ∧
  (_set e = true →
     thr (wait_enter t e) t = Returned true ∧ thr e' t = Returned true) ∧
  (_set e = false →
     thr (wait_enter t e) t = Blocked Untimed ∧
     (thr e' t ≠ Blocked Untimed → existsb (releases t) acts = true)) ∧
  (thr e' t = Returned true → forallb (undisturbed t) acts = true →
     no_consumer e → _set e' = true).
Proof.
  intros Hr Hrun Hoth.
  apply run_cons_inv in Hrun as (e1 & H1 & Hrun).
  simpl in H1. rewrite Hr in H1. injection H1 as <-.
  assert (Hin : in_wait (thr (wait_enter t e) t)).
  { unfold in_wait, wait_enter. destruct (_set e); simpl; rewrite upd_eq; auto. }
  split; [|split; [|split]].
  - eapply (run_preserves step (fun e => in_wait (thr e t))); eauto.
    intros; eapply ev_in_wait_step; eauto.
  - intros Hs.
    assert (H1 : thr (wait_enter t e) t = Returned true).
    { unfold wait_enter. rewrite Hs. simpl. by rewrite upd_eq. }
    split; [done|].
    eapply (run_preserves step (fun e => thr e t = Returned true)); eauto.
    intros; eapply ev_returned_step; eauto.
  - intros Hs.
    assert (H1 : thr (wait_enter t e) t = Blocked Untimed).
    { unfold wait_enter. rewrite Hs. simpl. by rewrite upd_eq. }
    split; [done|]. intros Hnb.
    destruct (existsb (releases t) acts) eqn:Hex; [done|].
    exfalso. apply Hnb.
    eapply ev_stays_blocked_run; eauto using ev_forallb_not_exists.
  - intros Hret Hq Hc.
    assert (Hinv : quiet_inv t e').
    { eapply (run_preserves step (quiet_inv t)
                (fun a => other_call t a && undisturbed t a)); [| | |exact Hrun].
      - intros a s s'. apply ev_quiet_step.
      - by apply ev_forallb_and.
      - split.
        + intros v. specialize (Hc v). unfold wait_enter.
          destruct (_set e); simpl; upd_cases; done.
        + unfold wait_enter. destruct (_set e); simpl; rewrite upd_eq; auto. }
    destruct Hinv as [_ [Hb|[_ Hs]]]; [congruence | done].
Qed.

Lemma ev_step_resume e t k r :
  thr e t = Woken k r → step (Resume t) e = Some (resume t k r e).
Proof. intros Ht. unfold step. by rewrite Ht. Qed.

Lemma ev_set_resume t k r e :
  _set (resume t k r e) = match k with AndReset => false | _ => _set e end.
Proof. by destruct k. Qed.

(** C6. Code bug.  Event::wait() tests [_set] once ([if], not [while])
    and does not look at it again after [_cond.wait]: a caller parked on
    an unsignaled event that the condition variable wakes spuriously
    returns [true], although nobody has called set() and the event is
    still unsignaled when the call returns.  No other thread is
    involved. *)
Theorem ev_wait_returns_without_set e t :
  ready (thr e t) = true →
  _set e = false →
  ∃ e', run step [Call t CWait; Spurious t; Resume t] e = Some e' ∧
        thr e' t = Returned true ∧ _set e' = false ∧
        ∀ u, u ≠ t → thr e' u = thr e u.
Proof.
  intros Hr Hs.
  eexists. split.
  - cbn [run]. simpl. rewrite Hr. simpl.
    unfold wait_enter. rewrite Hs. simpl. rewrite upd_eq. simpl.
    rewrite upd_eq. reflexivity.
  - simpl. split; [apply upd_eq|]. split; [done|].
    intros u Hu. by rewrite !upd_ne.
Qed.

Lemma ev_wait_returns_without_set_witness :
  ∃ e', run step [Call 0 CWait; Spurious 0; Resume 0] init = Some e' ∧
        thr e' 0 = Returned true ∧ _set e' = false ∧
        ∀ u, u ≠ 0 → thr e' u = thr init u.
Proof. apply (ev_wait_returns_without_set init 0); reflexivity. Defined.

Lemma ev_timed_track_step t el a e e' :
  other_call t a = true → timed_track el (thr e t) → step a e = Some e' →
  timed_track (el || elapse_of t a) (thr e' t).
Proof.
  intros Ha Ht Hstep.
  ev_step_cases Hstep; simpl in Ha |- *; upd_cases;
    try (rewrite Nat.eqb_refl in Ha; discriminate Ha);
    rewrite ?Nat.eqb_refl, ?orb_false_r, ?orb_true_r;
    try (rewrite (proj2 (Nat.eqb_neq _ _)) by done; rewrite ?orb_false_r);
    try exact Ht;
    try (rewrite Hu in Ht; simpl in Ht; try done; subst; done);
    try (rewrite Hu in Ht; simpl in Ht; destruct r; subst; done).
  all: destruct (thr e t) as [|[]|[] []|]; simpl in *; done.
Qed.

Lemma ev_timed_track_run t acts : ∀ el e e',
  forallb (other_call t) acts = true → timed_track el (thr e t) →
  run step acts e = Some e' →
  timed_track (el || existsb (elapse_of t) acts) (thr e' t).
Proof.
  induction acts as [|a acts IH]; intros el e e' Hoth Ht Hrun.
  - simpl in *. injection Hrun as <-. by rewrite orb_false_r.
  - simpl in Hoth. apply andb_prop in Hoth as [Ha Hoth].
    apply run_cons_inv in Hrun as (e1 & H1 & Hrun).
    simpl. rewrite orb_assoc. eapply IH; eauto using ev_timed_track_step.
Qed.

Lemma ev_timed_safe_step t a e e' :
  other_call t a = true → timed_safe (thr e t) → step a e = Some e' →
  timed_safe (thr e' t).
Proof.
  unfold timed_safe. intros Ha Ht Hstep.
  ev_step_cases Hstep; simpl in Ha |- *; upd_cases;
    try (rewrite Nat.eqb_refl in Ha; discriminate Ha);
    try exact Ht;
    try (rewrite Hu in Ht; destruct Ht as [Ht|Ht]; inversion Ht; subst; auto; fail).
  all: destruct Ht as [->| ->]; simpl; auto.
Qed.

(** What Event::wait(ms) does keep.  Called by [t] and followed by any
    run in which [t] makes no other call, once it has returned [b]:
    on an event that was signaled at the call it returned [true] without
    parking; on an unsignaled one it returned [false] exactly when its
    timeout expired while it was still parked; and when some set() came
    before any expiry it returned [true].  The call can always end: the
    timeout may expire, and then it returns [false]. *)
Lemma ev_timed_wait_result e t ms acts e' b :
  reachable e →
  ready (thr e t) = true →
  run step (Call t (CWaitFor ms) :: acts) e = Some e' →
  forallb (other_call t) acts = true →
  thr e' t = Returned b →
  (_set e = true →
     thr (wait_for_enter t e) t = Returned true ∧ b = true) ∧
  (_set e = false →
     thr (wait_for_enter t e) t = Blocked Timed ∧
     b = negb (existsb (elapse_of t) acts)) ∧
  (∀ pre u post, acts = pre ++ Call u CSet :: post →
     existsb (elapse_of t) pre = false → b = true) ∧
  (_set e = false →
     ∃ e'', run step [Call t (CWaitFor ms); Elapse t; Resume t] e = Some e''
            ∧ thr e'' t = Returned false).
Proof.
  intros Hreach Hr Hrun Hoth Hret.
  pose proof Hrun as Hrun0.
  apply run_cons_inv in Hrun as (e1 & H1 & Hrun).
  pose proof H1 as Hstep1.
  simpl in H1. rewrite Hr in H1. injection H1 as <-. simpl in Hstep1.
  assert (Hsig : _set e = true →
            thr (wait_for_enter t e) t = Returned true ∧ b = true).
  { intros Hs.
    assert (H1 : thr (wait_for_enter t e) t = Returned true).
    { unfold wait_for_enter. rewrite Hs. simpl. by rewrite upd_eq. }
    split; [done|].
    assert (thr e' t = Returned true); [|congruence].
    eapply (run_preserves step (fun e => thr e t = Returned true)); eauto.
    intros; eapply ev_returned_step; eauto. }
  assert (Hblk : _set e = false → thr (wait_for_enter t e) t = Blocked Timed).
  { intros Hs. unfold wait_for_enter. rewrite Hs. simpl. by rewrite upd_eq. }
  split; [exact Hsig|]. split; [|split].
  - intros Hs. split; [auto|].
    pose proof (ev_timed_track_run t acts false _ _ Hoth
                  ltac:(rewrite (Hblk Hs); reflexivity) Hrun) as Htr.
    rewrite Hret in Htr. exact Htr.
  - intros pre u post -> Hpre.
    destruct (_set e) eqn:Hs; [by apply Hsig|].
    rewrite forallb_app in Hoth. apply andb_prop in Hoth as [Hoth1 Hoth2].
    simpl in Hoth2. apply andb_prop in Hoth2 as [Hu Hoth2].
    apply run_app_inv in Hrun as (e2 & Hrun1 & Hrun2).
    apply run_cons_inv in Hrun2 as (e3 & Hset & Hrun3).
    pose proof (ev_timed_track_run t pre false _ _ Hoth1
                  ltac:(rewrite (Hblk eq_refl); reflexivity) Hrun1) as Htr.
    rewrite Hpre in Htr. simpl in Htr.
    assert (Hreach2 : reachable e2).
    { eapply reach_run; [|exact Hrun1].
      eapply (reach_step step init (Call t (CWaitFor ms))); [exact Hreach|].
      simpl. by rewrite Hr. }
    assert (Hsafe : timed_safe (thr e3 t)).
    { simpl in Hset. destruct (ready (thr e2 u)); [|done].
      injection Hset as <-. simpl. unfold timed_safe, set.
      destruct (thr e2 t) as [|[]|[] []|[]] eqn:Ht2; simpl in Htr; try done.
      - rewrite (ev_blocked_unsignaled _ Hreach2 _ _ Ht2). simpl.
        rewrite Ht2. auto.
      - destruct (_set e2); simpl; rewrite ?Ht2; auto.
      - destruct (_set e2); simpl; rewrite ?Ht2; auto. }
    assert (Hfin : timed_safe (thr e' t)).
    { eapply (run_preserves step (fun e => timed_safe (thr e t))); eauto.
      intros; eapply ev_timed_safe_step; eauto. }
    rewrite Hret in Hfin. destruct Hfin as [?|Hfin]; [done|]. by injection Hfin.
  - intros Hs. eexists. split.
    + simpl. rewrite Hr. simpl. rewrite (Hblk Hs). simpl.
      rewrite upd_eq. reflexivity.
    + simpl. by rewrite upd_eq.
Qed.

(** C7. Code bug.  Event::wait(ms) returns what [wait_for] reports and
    does not look at [_set] again: a caller parked on an unsignaled event
    that the condition variable wakes spuriously before the timeout
    returns [true], although nobody has called set(), the timeout has not
    expired and the event is still unsignaled when the call returns.  So
    [true] does not mean that the event was signaled. *)
Theorem ev_timed_wait_true_without_set e t ms :
  ready (thr e t) = true →
  _set e = false →
  ∃ e', run step [Call t (CWaitFor ms); Spurious t; Resume t] e = Some e' ∧
        thr e' t = Returned true ∧ _set e' = false ∧
        ∀ u, u ≠ t → thr e' u = thr e u.
Proof.
  intros Hr Hs.
  eexists. split.
  - cbn [run]. simpl. rewrite Hr. simpl.
    unfold wait_for_enter. rewrite Hs. simpl. rewrite upd_eq. simpl.
    rewrite upd_eq. reflexivity.
  - simpl. split; [apply upd_eq|]. split; [done|].
    intros u Hu. by rewrite !upd_ne.
Qed.

Lemma ev_timed_wait_true_without_set_witness :
  ∃ e', run step [Call 0 (CWaitFor 1000); Spurious 0; Resume 0] init = Some e' ∧
        thr e' 0 = Returned true ∧ _set e' = false ∧
        ∀ u, u ≠ 0 → thr e' u = thr init u.
Proof. apply (ev_timed_wait_true_without_set init 0 1000); reflexivity. Defined.

End EventFacts.

(** ** Future / Promise *)

Section FutureFacts.
Import Future.
Context {T : Type}.
Implicit Types (c : shared T) (s : channel T) (polls : list cv_status).

Lemma fut_event_set_signals (e : Event.event) : Event._set (Event.set e) = true.
Proof. unfold Event.set. by destruct (Event._set e) eqn:E. Qed.

(** On a signaled cell get() returns the stored pointer at once. *)
Lemma fut_get_signaled polls c :
  Event._set (_ev c) = true → get polls c = Some (_obj c).
Proof. intros Hs. destruct polls; simpl; by rewrite Hs. Qed.

(** The count in the cell is the number of live handles. *)
Lemma fut_reachable_inv s :
  reachable s → referenceCount (cell s) = promises s + futures s.
Proof.
  induction 1 as [|a s s' _ IHn Hstep]; [done|].
  destruct a; simpl in Hstep;
    try (destruct (0 <? promises s) eqn:Hp; [apply Nat.ltb_lt in Hp|done]);
    try (destruct (0 <? futures s) eqn:Hf; [apply Nat.ltb_lt in Hf|done]).
  1-6: injection Hstep as <-; simpl; lia.
  destruct (release polls (cell s)) as [[o c]|] eqn:Hrel; [|done].
  injection Hstep as <-. simpl. rewrite <- IHn.
  clear -Hrel. induction polls as [|r polls IH]; simpl in Hrel.
  - destruct (Event._set (_ev (cell s))); [|done]. by injection Hrel as _ <-.
  - destruct (Event.wait_for_result _ r); [by injection Hrel as _ <-|].
    destruct (isAbandoned (cell s)); [by injection Hrel as _ <-|auto].
Qed.

(** What an observing action keeps: the flag and the stored pointer. *)
Lemma fut_observing_step (a : action T) s s' :
  observing a = true → step a s = Some s' →
  _ev (cell s') = _ev (cell s) ∧ _obj (cell s') = _obj (cell s).
Proof.
  intros Ha Hstep. destruct a; try discriminate Ha; simpl in Hstep;
    try (destruct (0 <? promises s); [|done]);
    try (destruct (0 <? futures s); [|done]);
    by injection Hstep as <-.
Qed.

(** C1, as the code has it.  Once resolve(value) has run, and as long as
    the channel is only observed (futures taken, copied and destroyed,
    promises copied and destroyed; no release(), no further resolve()),
    get() on any handle returns exactly [value], whatever its timed waits
    would report, and isAvailable() is true. *)
Theorem fut_get_after_resolve s (value : option T) acts s' polls :
  run step (Resolve value :: acts) s = Some s' →
  forallb observing acts = true →
  get polls (cell s') = Some value ∧ isAvailable (cell s') = true.
Proof.
  intros Hrun Hobs.
  apply run_cons_inv in Hrun as (s1 & H1 & Hrun).
  assert (Hinv : Event._set (_ev (cell s')) = true ∧ _obj (cell s') = value).
  { eapply (run_preserves step
              (fun s => Event._set (_ev (cell s)) = true ∧ _obj (cell s) = value)
              observing); [| exact Hobs | | exact Hrun].
    - intros a x x' Ha [Hx1 Hx2] Hstep.
      destruct (fut_observing_step a x x' Ha Hstep) as [-> ->]. done.
    - simpl in H1. destruct (0 <? promises s); [|done].
      injection H1 as <-. simpl. split; [apply fut_event_set_signals|done]. }
  destruct Hinv as [Hs Ho]. split.
  - rewrite fut_get_signaled by done. by rewrite Ho.
  - exact Hs.
Qed.

(** C10. resolve(0L) signals the event, so isAvailable() and isResolved()
    are true, and get() returns null; an abandoned, unsignaled cell makes
    get() return null as well: the two cannot be told apart by the value
    get() returns. *)
Theorem fut_null_resolution c (e : Event.event) (o : option T) polls :
  let resolved := resolve None c in
  let abandoned := {| _ev := Event.reset e; _obj := o; referenceCount := 1 |} in
  isAvailable resolved = true ∧ isResolved resolved = true ∧
  get polls resolved = Some None ∧
  isAvailable abandoned = false ∧ isAbandoned abandoned = true ∧
  get (timeout :: polls) abandoned = get polls resolved.
Proof.
  intros resolved abandoned.
  assert (Hs : Event._set (_ev resolved) = true) by apply fut_event_set_signals.
  assert (Hg : get polls resolved = Some None).
  { by rewrite fut_get_signaled. }
  repeat split; try done.
Qed.

End FutureFacts.

Lemma fut_get_after_resolve_witness :
  Future.get [timeout]
    (Future.Future_destroy (Future.resolve (Some 7) (Future.Future_copy Future.Future_new)))
  = Some (Some 7).
Proof.
  exact (proj1 (fut_get_after_resolve
    {| Future.cell := Future.Future_copy Future.Future_new;
       Future.promises := 1; Future.futures := 1 |}
    (Some 7) [Future.DestroyPromise]
    {| Future.cell :=
         Future.Future_destroy
           (Future.resolve (Some 7) (Future.Future_copy Future.Future_new));
       Future.promises := 0; Future.futures := 1 |}
    [timeout] eq_refl eq_refl)).
Defined.

(** C1 fails as stated: after resolve(7), a release() takes the value and
    resets the event, and a later get() never returns 7; a second
    resolve(8) makes later calls return 8. *)
Lemma fut_release_ends_resolution :
  (∃ s, run Future.step
          [Future.GetFuture; Future.Resolve (Some 7); Future.Release []]
          Future.init = Some s
        ∧ Future.isAvailable (Future.cell s) = false
        ∧ ∀ polls, Future.get polls (Future.cell s) ≠ Some (Some 7)) ∧
  (∃ s, run Future.step
          [Future.GetFuture; Future.Resolve (Some 7); Future.Resolve (Some 8)]
          Future.init = Some s
        ∧ ∀ polls, Future.get polls (Future.cell s) = Some (Some 8)).
Proof.
  split; eexists; (split; [reflexivity|]).
  - split; [reflexivity|]. induction polls as [|[] polls IH]; simpl; done.
  - intros polls. by rewrite fut_get_signaled.
Qed.

(** C2. Code bug.  Abandonment is read off the reference count alone
    ([referenceCount() == 1]).  When the promise is destroyed unresolved
    while two Future handles exist, the count is 2: isAbandoned() is
    false although the promise is gone, and get() is still polling after
    any number of expired waits. *)
Lemma fut_abandoned_two_handles_poll_forever :
  ∃ s : Future.channel nat,
    run Future.step
      [Future.GetFuture; Future.CopyFuture; Future.DestroyPromise]
      Future.init = Some s
    ∧ Future.promises s = 0 ∧ Future.futures s = 2
    ∧ Future.isAvailable (Future.cell s) = false
    ∧ Future.isAbandoned (Future.cell s) = false
    ∧ ∀ n, Future.get (repeat timeout n) (Future.cell s) = None.
Proof.
  eexists. split; [reflexivity|]. repeat split.
  induction n as [|n IH]; [done|]. exact IH.
Qed.

(** ** Gate *)

Section GateFacts.
Import Gate.
Context {K : Type} `{Countable K}.
Implicit Types (g : gate K) (k key : K).

Lemma gate_index_absent key (m : gmap K Z) :
  m !! key = None → index key m = (0%Z, <[key := 0%Z]> m).
Proof. intros Hm. unfold index. by rewrite Hm. Qed.

Lemma gate_index_present key (m : gmap K Z) c :
  m !! key = Some c → index key m = (c, m).
Proof. intros Hm. unfold index. by rewrite Hm. Qed.

Lemma gate_lock_body_free t key g :
  _users g !! key = None →
  lock_body t key g =
    {| _users := <[key := 1%Z]> (<[key := 0%Z]> (_users g));
       thr := upd (thr g) t Idle;
       holders := upd (holders g) key (t :: holders g key) |}.
Proof.
  intros Hm. unfold lock_body. rewrite (gate_index_absent _ _ Hm). simpl.
  rewrite (gate_index_present key _ 0%Z) by apply lookup_insert_eq.
  reflexivity.
Qed.

Lemma gate_lock_body_held t key g c :
  _users g !! key = Some c → (0 < c)%Z →
  lock_body t key g =
    {| _users := _users g; thr := upd (thr g) t (Blocked key);
       holders := holders g |}.
Proof.
  intros Hm Hc. unfold lock_body. rewrite (gate_index_present _ _ _ Hm).
  by rewrite (proj2 (Z.ltb_lt 0 c) Hc).
Qed.

(** unlock(key), by cases on the count its decrement leaves. *)
Lemma gate_unlock_cases t key g :
  (decremented key g = 0%Z →
     _users (unlock t key g) !! key = None ∧
     (∀ k, k ≠ key → _users (unlock t key g) !! k = _users g !! k) ∧
     (∀ u, thr (unlock t key g) u = wake (thr g u))) ∧
  (decremented key g ≠ 0%Z →
     _users (unlock t key g) !! key = Some (decremented key g) ∧
     thr (unlock t key g) = thr g) ∧
  holders (unlock t key g) = upd (holders g) key (remove_first t (holders g key)).
Proof.
  unfold unlock, decremented, index.
  destruct (_users g !! key) as [c|] eqn:Hm; simpl;
    rewrite lookup_insert_eq;
    match goal with |- context [(?x =? 0)%Z] => destruct (Z.eqb_spec x 0) end;
    simpl; repeat split; try done; intros;
    rewrite ?lookup_delete_eq, ?lookup_delete_ne, ?lookup_insert_eq,
      ?lookup_insert_ne by done; done.
Qed.

Lemma gate_consistent_step a g g' :
  consistent g → step a g = Some g' → consistent g'.
Proof.
  intros Hc Hstep.
  assert (Hlock : ∀ t key, consistent (lock_body t key g)).
  { intros t key k. destruct (Hc key) as [[Hm Hh]|[Hm [t0 Hh]]].
    - rewrite (gate_lock_body_free _ _ _ Hm). simpl.
      destruct (decide (k = key)) as [->|Hne].
      + right. rewrite lookup_insert_eq, upd_eq, Hh. eauto.
      + rewrite !lookup_insert_ne, upd_ne by done. apply Hc.
    - rewrite (gate_lock_body_held _ _ _ 1%Z Hm) by done. simpl. apply Hc. }
  destruct a as [t key|t|t key|t]; simpl in Hstep.
  - destruct (thr g t); try done. injection Hstep as <-. apply Hlock.
  - destruct (thr g t); try done. injection Hstep as <-. apply Hlock.
  - destruct (thr g t); try done.
    destruct (decide (t ∈ holders g key)) as [Hin|]; [|done].
    injection Hstep as <-. intros k.
    destruct (Hc key) as [[Hm Hh]|[Hm [t0 Hh]]].
    { rewrite Hh in Hin. by apply elem_of_nil in Hin. }
    rewrite Hh in Hin. apply list_elem_of_singleton in Hin as ->.
    destruct (gate_unlock_cases t0 key g) as (H0 & _ & Hhold).
    assert (Hd : decremented key g = 0%Z).
    { unfold decremented. rewrite Hm. reflexivity. }
    destruct (H0 Hd) as (Hk & Hother & _). rewrite Hhold.
    destruct (decide (k = key)) as [->|Hne].
    + left. rewrite upd_eq, Hh. simpl. rewrite decide_True by done. done.
    + rewrite Hother, upd_ne by done. apply Hc.
  - destruct (thr g t); try done. injection Hstep as <-. exact Hc.
Qed.

Lemma gate_reachable_consistent g : reachable g → consistent g.
Proof.
  induction 1 as [|a g g' _ IH Hstep].
  - intros k. left. split; [apply lookup_empty|done].
  - eapply gate_consistent_step; eauto.
Qed.

(** C3. In every state reached by threads that lock keys and unlock the
    keys they hold: no key has two holders; every key present in the map
    has a positive count; and an unlock(k) whose decrement leaves 0 erases
    the entry and unparks every parked thread, which is what every
    unlock(k) by a holder does. *)
Theorem gate_exclusion_and_counts g :
  reachable g →
  (∀ k, length (holders g k) ≤ 1) ∧
  (∀ k t1 t2, t1 ∈ holders g k → t2 ∈ holders g k → t1 = t2) ∧
  (∀ k c, _users g !! k = Some c → (0 < c)%Z) ∧
  (∀ t k, decremented k g = 0%Z →
     _users (unlock t k g) !! k = None ∧
     ∀ u key, thr (unlock t k g) u ≠ Blocked key) ∧
  (∀ t k g', step (Unlock t k) g = Some g' →
     decremented k g = 0%Z ∧ g' = unlock t k g ∧ holders g' k = []).
Proof.
  intros Hreach. pose proof (gate_reachable_consistent g Hreach) as Hc.
  split; [|split; [|split; [|split]]].
  - intros k. destruct (Hc k) as [[_ ->]|[_ [t ->]]]; simpl; lia.
  - intros k t1 t2 H1 H2.
    destruct (Hc k) as [[_ Hh]|[_ [t Hh]]]; rewrite Hh in H1, H2.
    + by apply elem_of_nil in H1.
    + apply list_elem_of_singleton in H1, H2. congruence.
  - intros k c Hk. destruct (Hc k) as [[Hm _]|[Hm _]]; rewrite Hm in Hk.
    + done.
    + injection Hk as <-. done.
  - intros t k Hd. destruct (gate_unlock_cases t k g) as (H0 & _ & _).
    destruct (H0 Hd) as (Hk & _ & Hw). split; [done|].
    intros u key. rewrite Hw. by destruct (thr g u).
  - intros t k g' Hstep. simpl in Hstep.
    destruct (thr g t); try done.
    destruct (decide (t ∈ holders g k)) as [Hin|]; [|done].
    injection Hstep as <-.
    destruct (Hc k) as [[Hm Hh]|[Hm [t0 Hh]]]; rewrite Hh in Hin.
    { by apply elem_of_nil in Hin. }
    apply list_elem_of_singleton in Hin as ->.
    split; [|split; [done|]].
    + unfold decremented. rewrite Hm. reflexivity.
    + destruct (gate_unlock_cases t0 k g) as (_ & _ & ->).
      rewrite upd_eq, Hh. simpl. by rewrite decide_True.
Qed.

End GateFacts.

Lemma gate_exclusion_and_counts_witness :
  length (Gate.holders (Gate.lock_body 0 5 (@Gate.init nat _ _)) 5) ≤ 1.
Proof.
  refine (proj1 (gate_exclusion_and_counts (Gate.lock_body 0 5 Gate.init) _) 5).
  apply (run_reach Gate.step Gate.init [Gate.Lock 0 5]). reflexivity.
Defined.

(** ** ReadWriteMutex *)

Section ReadWriteMutexFacts.
Import ReadWriteMutex.
Local Open Scope Z_scope.

Lemma rw_unsigned_small z : 0 ≤ z < 2 ^ 32 → unsigned z = z.
Proof. intros Hz. unfold unsigned. by apply Z.mod_small. Qed.

Lemma rw_counted_step a m m' :
  counted m → step a m = Some m' → read_holds m' < 2 ^ 32 → counted m'.
Proof.
  unfold counted. intros (Hw & Hwh & Hr & Hrh & Hex) Hstep Hb.
  assert (Hrl : ∀ t, read_holds (read_lock_body t m) < 2 ^ 32 →
            counted (read_lock_body t m)).
  { intros t. unfold counted, read_lock_body.
    destruct (Z.ltb_spec 0 (_writers m)); simpl; intros Hb'.
    - done.
    - rewrite Hr, rw_unsigned_small by lia. repeat split; try lia; auto. }
  assert (Hwl : ∀ t, counted (write_lock_body t m)).
  { intros t. unfold counted, write_lock_body.
    destruct (Z.ltb_spec 0 (_writers m)); simpl; [done|].
    destruct (Z.ltb_spec 0 (_readers m)); simpl; [done|].
    assert (_writers m = 0) as Hw0 by lia.
    assert (_readers m = 0) as Hr0 by lia.
    rewrite Hw0. rewrite Hw0 in Hw. rewrite Hr0 in Hr.
    change (unsigned (0 + 1)) with 1.
    repeat split; try lia; try done. }
  destruct a as [t|t|t|t|t|t]; simpl in Hstep.
  - destruct (thr m t); try done. injection Hstep as <-. by apply Hrl.
  - destruct (thr m t); try done.
    destruct (Z.ltb_spec 0 (read_holds m)); [|done].
    injection Hstep as <-. unfold read_unlock. simpl.
    rewrite Hr, rw_unsigned_small by lia. repeat split; try lia; auto.
  - destruct (thr m t); try done. injection Hstep as <-. apply Hwl.
  - destruct (thr m t); try done.
    destruct (Z.ltb_spec 0 (write_holds m)); [|done].
    injection Hstep as <-. unfold write_unlock. simpl.
    repeat split; try lia.
  - destruct (thr m t); try done; injection Hstep as <-;
      [by apply Hrl | apply Hwl].
  - destruct (thr m t); try done; injection Hstep as <-; simpl; done.
Qed.

Lemma rw_below_counted m : reachable_below m → counted m.
Proof.
  induction 1 as [|a m m' _ IH Hstep Hb].
  - unfold counted. simpl. repeat split; try lia; auto.
  - eapply rw_counted_step; eauto.
Qed.

(** C4, as the code has it.  Along every run of threads that take the
    lock and release what they hold, and in which fewer than 2^32 read
    holds are ever outstanding: while unlocked the writer count is 0;
    while a writer holds it the writer count is 1 and the reader count 0;
    while readers hold it the reader count is at least 1 and the writer
    count 0; writers and readers never hold together. *)
Theorem rw_invariant_below_wrap m : reachable_below m → invariant m.
Proof.
  intros Hm. destruct (rw_below_counted m Hm) as (Hw & Hwh & Hr & Hrh & Hex).
  unfold invariant, unlocked, writer_holds, readers_hold.
  repeat split; lia.
Qed.

Lemma rw_invariant_below_wrap_witness : invariant (read_lock_body 0 init).
Proof.
  apply rw_invariant_below_wrap.
  apply (below_step (ReadLock 0) init); [apply below_init|reflexivity|reflexivity].
Defined.

(** [n] read_lock() calls by thread 0 on a fresh mutex. *)
Lemma rw_read_locks_reach n :
  0 ≤ n →
  ∃ m, reachable m ∧ _writers m = 0 ∧ _readers m = n `mod` 2 ^ 32 ∧
       read_holds m = n ∧ write_holds m = 0 ∧
       thr m 0%nat = Idle ∧ thr m 1%nat = Idle.
Proof.
  revert n. apply natlike_ind.
  - exists init. repeat split. apply reach_init.
  - intros n Hn (m & Hreach & Hw & Hr & Hrh & Hwh & H0 & H1).
    exists (read_lock_body 0 m). split.
    + apply (reach_step step init (ReadLock 0) m); [exact Hreach|].
      simpl. by rewrite H0.
    + unfold read_lock_body. rewrite Hw. simpl.
      rewrite upd_eq, upd_ne by done.
      repeat split; try done; try lia.
      rewrite Hr. unfold unsigned, Z.succ. by rewrite Zplus_mod_idemp_l.
Qed.

(** C4 fails as stated: after 2^32 read_lock() calls the [unsigned] reader
    count has wrapped to 0 while all those read holds are outstanding, and
    a write_lock() then goes through, so a writer and readers hold the
    mutex together. *)
Lemma rw_reader_count_wraps :
  ∃ m m',
    reachable m ∧ readers_hold m ∧ _readers m = 0 ∧ ¬ invariant m ∧
    step (WriteLock 1) m = Some m' ∧ writer_holds m' ∧ readers_hold m'.
Proof.
  destruct (rw_read_locks_reach (2 ^ 32) ltac:(done))
    as (m & Hreach & Hw & Hr & Hrh & Hwh & H0 & H1).
  change (2 ^ 32 `mod` 2 ^ 32) with 0 in Hr.
  assert (Hrd : readers_hold m) by (unfold readers_hold; by rewrite Hrh).
  exists m, (write_lock_body 1 m). repeat split; try done.
  - intros (_ & _ & Hinv & _). specialize (Hinv Hrd). lia.
  - simpl. by rewrite H1.
  - unfold writer_holds, write_lock_body. rewrite Hw, Hr. simpl. lia.
  - unfold readers_hold, write_lock_body. rewrite Hw, Hr. simpl. by rewrite Hrh.
Qed.

End ReadWriteMutexFacts.

(** ** ThreadPool *)

Section ThreadPoolFacts.
Import ThreadPool.
Context {World : Type} (execute : nat → World → World)
  (getKeep : nat → World → bool).

Local Abbreviation pool := (ThreadPool.pool World).
Local Abbreviation step := (ThreadPool.step execute getKeep).
Local Abbreviation reachable := (ThreadPool.reachable execute getKeep).
Implicit Types (p : pool) (w op : nat).

Lemma pool_wf_init n (w0 : World) : wf n (init n w0).
Proof.
  constructor; simpl; try done.
  - intros w Hw. by rewrite decide_False by lia.
  - intros w Hw. by rewrite decide_True by lia.
  - intros w. split; [done|]. by destruct (decide (w < n)).
  - intros _ w Hw. by rewrite decide_True by lia.
Qed.

Lemma pool_free_spec p : free p = true ↔ _queueMutex p = None.
Proof. unfold free. by destruct (_queueMutex p). Qed.

(** A worker step moves one worker and leaves the others alone. *)
Ltac pool_worker_cases w' :=
  intros w'; simpl; unfold upd; destruct (decide (w' = _)) as [->|?].

(** A worker that is neither about to park nor gone moves to a status
    that is neither parked nor about to park. *)
Lemma pool_wf_set_worker n p w s (q : pool) :
  wf n p → w < n →
  workers p w ≠ Parking → workers p w ≠ Exited →
  s ≠ Parking → s ≠ NoThread → s ≠ Blocked →
  (s = Exited → _done p = true) →
  _done q = _done p → dtor q = dtor p → _numThreads q = _numThreads p →
  _threads q = _threads p → _queueMutex q = _queueMutex p →
  workers q = upd (workers p) w s →
  (_queue q = _queue p ∨
   (unblocked s ∧ (_queue p = [] → _queueMutex p = None))) →
  wf n q.
Proof.
  intros [Hnum Hdone Hlive Hthr Hnone Hsome Hmut Hpark Halive Hunb Hjoin Hdes]
    Hwn Hnp Hne Hsp Hsn Hsb Hse Hd Hdt Hn Ht Hm Hw Hq.
  constructor; rewrite ?Hd, ?Hdt, ?Hn, ?Ht, ?Hm, ?Hw; try done.
  - pool_worker_cases u; [lia|auto].
  - pool_worker_cases u; [done|auto].
  - pool_worker_cases u; [|apply Hmut].
    split; [|done]. intros Hmw. by apply Hmut in Hmw.
  - pool_worker_cases u; [done|]. intros Hu.
    destruct Hq as [->|(_ & Hq)]; [eauto|].
    assert (Hqe : _queue p = []) by eauto.
    apply Hmut in Hu. rewrite Hq in Hu; done.
  - intros Hdd. pool_worker_cases u; [|auto]. intros _.
    destruct s; try done. by rewrite Hse in Hdd.
  - intros Hpos Hdd Hqq.
    destruct Hq as [Hq|(Hs & _)].
    + rewrite Hq in Hqq. destruct (Hunb Hpos Hdd Hqq) as [u Hu].
      destruct (decide (u = w)) as [->|Hne'].
      * exists w. rewrite upd_eq. destruct s; try done.
        by rewrite Hse in Hdd.
      * exists u. by rewrite upd_ne.
    + exists w. by rewrite upd_eq.
  - intros i Hi. destruct (Hjoin i Hi) as (Hle & Hex). split; [done|].
    pool_worker_cases u; [|auto]. intros Hu. by rewrite Hex in Hne.
  - intros Hdd. destruct (Hdes Hdd) as (Hex & ? & Hqe).
    by rewrite Hex in Hne.
Qed.

Lemma pool_worker_exists n p w :
  wf n p → workers p w ≠ NoThread → w < n.
Proof.
  intros Hwf Hw. destruct (decide (w < n)); [done|].
  exfalso. apply Hw. apply (wf_none _ _ Hwf). lia.
Qed.

Lemma pool_wf_step n a p p' : wf n p → step a p = Some p' → wf n p'.
Proof.
  intros Hwf Hstep.
  pose proof Hwf as
    [Hnum Hdone Hlive Hthr Hnone Hsome Hmut Hpark Halive Hunb Hjoin Hdes].
  destruct a as [w|w|w|w|w|w|o| | | |]; simpl in Hstep.
  - (* Loop *)
    destruct (workers p w) eqn:Hw; try done. injection Hstep as <-.
    apply (pool_wf_set_worker n p w (if _done p then Exited else AtWait));
      rewrite ?Hw; try done; try (by destruct (_done p)); auto.
    apply (pool_worker_exists n p); [done|by rewrite Hw].
  - (* Enter *)
    assert (Hst : workers p w = AtWait ∨ workers p w = Woken).
    { destruct (workers p w); try done; auto. }
    assert (Hwn : w < n).
    { apply (pool_worker_exists n p); [done|]. by destruct Hst as [->| ->]. }
    assert (_queueMutex p = None ∧ p' = wait_body w p) as [Hfree ->].
    { destruct (free p) eqn:Hf.
      - apply pool_free_spec in Hf.
        destruct Hst as [Hw|Hw]; rewrite Hw in Hstep; by injection Hstep.
      - destruct Hst as [Hw|Hw]; rewrite Hw in Hstep; done. }
    clear Hstep. unfold wait_body.
    destruct (_queue p) as [|op rest] eqn:Hq; simpl;
      destruct (_done p) eqn:Hd; simpl.
    + apply (pool_wf_set_worker n p w Top); try done;
        try (by destruct Hst as [->| ->]); auto.
    + (* the predicate is false: the worker keeps the mutex *)
      constructor; simpl; rewrite ?Hq, ?Hd; try done.
      * pool_worker_cases u; [lia|auto].
      * pool_worker_cases u; [done|auto].
      * pool_worker_cases u; [done|]. split; [congruence|].
        intros Hu. apply Hmut in Hu. congruence.
      * intros _. pool_worker_cases u; [done|auto].
      * intros i Hi. by discriminate Hdone; rewrite Hi.
      * intros Hdd. by discriminate Hdone; rewrite Hdd.
    + apply (pool_wf_set_worker n p w Top); try done;
        try (by destruct Hst as [->| ->]); auto.
    + apply (pool_wf_set_worker n p w (Has op)); simpl; try done;
        try (by destruct Hst as [->| ->]).
      right. split; [done|]. by rewrite Hq.
  - (* Park *)
    destruct (workers p w) eqn:Hw; try done. injection Hstep as <-.
    assert (Hwn : w < n).
    { apply (pool_worker_exists n p); [done|]. by rewrite Hw. }
    pose proof (Hpark w Hw) as Hq.
    constructor; simpl; rewrite ?Hq; try done.
    + pool_worker_cases u; [lia|auto].
    + pool_worker_cases u; [done|auto].
    + pool_worker_cases u; [done|]. split; [done|].
      intros Hu. apply Hmut in Hu. apply Hmut in Hw. congruence.
    + intros Hd. pool_worker_cases u; [done|auto].
    + intros i Hi. destruct (Hjoin i Hi) as (Hle & Hex). split; [done|].
      pool_worker_cases u; [|auto]. intros Hu. by rewrite Hex in Hw.
    + intros Hd. destruct (Hdes Hd) as (Hex & ? & ?). by rewrite Hex in Hw.
  - (* Exec *)
    destruct (workers p w) eqn:Hw; try done. injection Hstep as <-.
    apply (pool_wf_set_worker n p w (Ran op)); rewrite ?Hw; try done; auto.
    apply (pool_worker_exists n p); [done|by rewrite Hw].
  - (* Requeue *)
    destruct (workers p w) eqn:Hw; try done.
    destruct (getKeep op (world p) && negb (free p)) eqn:Hk; [done|].
    injection Hstep as <-.
    apply (pool_wf_set_worker n p w Top); rewrite ?Hw; try done.
    + apply (pool_worker_exists n p); [done|by rewrite Hw].
    + simpl. destruct (getKeep op (world p)); [|auto].
      right. split; [done|]. intros _. apply pool_free_spec.
      by destruct (free p).
  - (* Spurious *)
    destruct (workers p w) eqn:Hw; try done. injection Hstep as <-.
    apply (pool_wf_set_worker n p w Woken); rewrite ?Hw; try done; auto.
    apply (pool_worker_exists n p); [done|by rewrite Hw].
  - (* Run *)
    assert (Hnd : dtor p ≠ Destroyed) by (intros Hd; by rewrite Hd in Hstep).
    destruct o as [o|]; [|destruct (dtor p); try done; by injection Hstep as <-].
    assert (_queueMutex p = None ∧ p' = run_ o p) as [Hfree ->].
    { destruct (free p) eqn:Hf.
      - apply pool_free_spec in Hf.
        destruct (dtor p); try done; by injection Hstep.
      - destruct (dtor p); done. }
    clear Hstep.
    assert (Hnp : ∀ u, workers p u ≠ Parking).
    { intros u Hu. apply Hmut in Hu. congruence. }
    constructor; simpl; try done.
    + intros u Hu. by rewrite Hnone.
    + intros u Hu. specialize (Hsome u Hu). by destruct (workers p u).
    + intros u. rewrite Hfree. split; [done|].
      specialize (Hnp u). by destruct (workers p u).
    + intros u Hu. specialize (Hnp u). by destruct (workers p u).
    + intros Hd u Hu. specialize (Halive Hd u Hu). by destruct (workers p u).
    + intros Hn Hd _. exists 0. specialize (Halive Hd 0 Hn).
      specialize (Hnp 0). by destruct (workers p 0).
    + intros i Hi. destruct (Hjoin i Hi) as (Hle & Hex).
      split; [done|]. intros u Hu. by rewrite Hex.
  - (* StopSetDone *)
    destruct (dtor p) eqn:Hd; try done. injection Hstep as <-.
    constructor; simpl; try done.
    intros _. by apply Hthr.
  - (* StopNotify *)
    destruct (dtor p) eqn:Hd; try done. injection Hstep as <-.
    assert (Hdn : _done p = true) by by apply Hdone.
    constructor; simpl; try done.
    + intros _. by apply Hthr.
    + intros u Hu. by rewrite Hnone.
    + intros u Hu. specialize (Hsome u Hu). by destruct (workers p u).
    + intros u. rewrite Hmut. by destruct (workers p u).
    + intros u Hu. apply (Hpark u). by destruct (workers p u).
    + by rewrite Hdn.
    + by rewrite Hdn.
    + intros i [= <-]. split; lia.
  - (* StopJoin *)
    destruct (dtor p) as [| |i|] eqn:Hd; try done.
    destruct (decide (i < _numThreads p)) as [Hi|]; [|done].
    rewrite Hthr in Hstep by done. rewrite Hnum in Hi.
    rewrite lookup_seq_lt in Hstep by done. simpl in Hstep.
    destruct (workers p i) eqn:Hw; try done. injection Hstep as <-.
    destruct (Hjoin i eq_refl) as (Hle & Hex).
    constructor; simpl; try done.
    + intros _. by apply Hdone.
    + intros _. by apply Hthr.
    + intros j [= <-]. split; [lia|].
      intros u Hu. destruct (decide (u = i)) as [->|]; [done|]. apply Hex. lia.
  - (* StopClear *)
    destruct (dtor p) as [| |i|] eqn:Hd; try done.
    destruct (decide (i < _numThreads p)) as [|Hi]; [done|].
    destruct (free p); [|done].
    injection Hstep as <-. rewrite Hnum in Hi.
    destruct (Hjoin i eq_refl) as (Hle & Hex).
    constructor; simpl; try done.
    + intros _. by apply Hdone.
    + intros _. split; [|done]. intros u Hu. apply Hex. lia.
Qed.

Lemma pool_reachable_wf n (w0 : World) p : reachable n w0 p → wf n p.
Proof.
  induction 1 as [|a p p' _ IH Hstep]; [apply pool_wf_init|].
  eapply pool_wf_step; eauto.
Qed.

Lemma pool_run_wf n acts p p' : wf n p → run step acts p = Some p' → wf n p'.
Proof.
  intros Hwf Hrun.
  eapply (run_preserves step (wf n) (fun _ => true)); eauto.
  - intros a s s' _. apply pool_wf_step.
  - by apply forallb_forall.
Qed.

Lemma pool_frame_refl w p : frame w p p.
Proof. by repeat split. Qed.

Lemma pool_frame_trans w p1 p2 p3 : frame w p1 p2 → frame w p2 p3 → frame w p1 p3.
Proof.
  intros (Ha & ? & ? & ? & ? & ?) (Hb & ? & ? & ? & ? & ?).
  repeat split; try congruence. intros u Hu. rewrite Hb, Ha; done.
Qed.

Lemma pool_step_loop w p :
  workers p w = Top →
  step (Loop w) p = Some (set_worker p w (if _done p then Exited else AtWait)).
Proof. intros Hw. simpl. by rewrite Hw. Qed.

Lemma pool_step_enter w p :
  workers p w = AtWait ∨ workers p w = Woken → _queueMutex p = None →
  step (Enter w) p = Some (wait_body w p).
Proof.
  intros Hw Hf. apply pool_free_spec in Hf.
  destruct Hw as [Hw|Hw]; simpl; by rewrite Hw, Hf.
Qed.

Lemma pool_step_exec w op p :
  workers p w = Has op → step (Exec w) p = Some (run_op execute w op p).
Proof. intros Hw. simpl. by rewrite Hw. Qed.

Lemma pool_step_requeue w op p :
  workers p w = Ran op → _queueMutex p = None →
  step (Requeue w) p = Some (requeue getKeep w op p).
Proof.
  intros Hw Hf. apply pool_free_spec in Hf. simpl.
  by rewrite Hw, Hf, andb_false_r.
Qed.

Lemma pool_wait_body_done w p :
  _done p = true → wait_body w p = set_worker p w Top.
Proof.
  intros Hd. unfold wait_body. rewrite Hd, orb_true_r. simpl.
  by destruct (_queue p).
Qed.

Lemma pool_frame_set_worker w p s : frame w p (set_worker p w s).
Proof. repeat split. intros u Hu. simpl. by rewrite upd_ne. Qed.

Lemma pool_frame_run_op w op p : frame w p (run_op execute w op p).
Proof. repeat split. intros u Hu. simpl. by rewrite upd_ne. Qed.

Lemma pool_frame_requeue w op p : frame w p (requeue getKeep w op p).
Proof. repeat split. intros u Hu. simpl. by rewrite upd_ne. Qed.

(** Once [_done] is set nothing is dequeued any more: what still runs was
    already in a worker's hands. *)
Lemma pool_done_step a p p' :
  _done p = true → step a p = Some p' →
  _done p' = true ∧
  (∃ l, executed p' = executed p ++ l ∧ ∀ op, op ∈ l → pending p op) ∧
  (∀ op, pending p' op → pending p op).
Proof.
  intros Hd Hstep.
  assert (Hnil : ∃ l, executed p = executed p ++ l ∧ ∀ op, op ∈ l → pending p op).
  { exists []. rewrite app_nil_r. split; [done|]. intros op Hop.
    by apply elem_of_nil in Hop. }
  assert (Hupd : ∀ w s, (∀ op, s ≠ Has op) →
            ∀ op, (∃ u, upd (workers p) w s u = Has op) → pending p op).
  { intros w s Hs op [u Hu]. unfold upd in Hu.
    destruct (decide (u = w)); [by apply Hs in Hu|by exists u]. }
  destruct a as [w|w|w|w|w|w|o| | | |]; simpl in Hstep.
  - destruct (workers p w) eqn:Hw; try done. injection Hstep as <-.
    rewrite Hd. simpl. repeat split; try done. by apply Hupd.
  - assert (p' = wait_body w p) as ->.
    { destruct (workers p w); try done; destruct (free p); try done;
        by injection Hstep. }
    rewrite pool_wait_body_done by done. simpl.
    repeat split; try done. by apply Hupd.
  - destruct (workers p w) eqn:Hw; try done. injection Hstep as <-. simpl.
    repeat split; try done. by apply Hupd.
  - destruct (workers p w) eqn:Hw; try done. injection Hstep as <-. simpl.
    repeat split; try done.
    + exists [op]. split; [done|]. intros o Ho.
      apply list_elem_of_singleton in Ho as ->. by exists w.
    + by apply Hupd.
  - destruct (workers p w) eqn:Hw; try done.
    destruct (getKeep op (world p) && negb (free p)); [done|].
    injection Hstep as <-. simpl.
    repeat split; try done. by apply Hupd.
  - destruct (workers p w) eqn:Hw; try done. injection Hstep as <-. simpl.
    repeat split; try done. by apply Hupd.
  - destruct o as [o|].
    + assert (p' = run_ o p) as ->.
      { destruct (dtor p); try done; destruct (free p); try done;
          by injection Hstep. }
      simpl. repeat split; try done.
      unfold pending. simpl. intros op [u Hu]. exists u.
      by destruct (workers p u).
    + assert (p' = p) as -> by (destruct (dtor p); try done; by injection Hstep).
      done.
  - destruct (dtor p); try done. by injection Hstep as <-.
  - destruct (dtor p); try done. injection Hstep as <-. simpl.
    repeat split; try done.
    unfold pending. simpl. intros op [u Hu]. exists u.
    by destruct (workers p u).
  - destruct (dtor p); try done. destruct (decide _); [|done].
    destruct (_threads p !! i); [|done].
    destruct (workers p n); try done. by injection Hstep as <-.
  - destruct (dtor p); try done. destruct (decide _); [done|].
    destruct (free p); [|done]. by injection Hstep as <-.
Qed.

Lemma pool_done_run acts : ∀ p p',
  _done p = true → run step acts p = Some p' →
  _done p' = true ∧
  ∃ l, executed p' = executed p ++ l ∧ ∀ op, op ∈ l → pending p op.
Proof.
  induction acts as [|a acts IH]; intros p p' Hd Hrun.
  - simpl in Hrun. injection Hrun as <-. split; [done|].
    exists []. rewrite app_nil_r. split; [done|].
    intros op Hop. by apply elem_of_nil in Hop.
  - apply run_cons_inv in Hrun as (p1 & H1 & Hrun).
    destruct (pool_done_step a p p1 Hd H1) as (Hd1 & (l1 & He1 & Hl1) & Hpend).
    destruct (IH p1 p' Hd1 Hrun) as (Hd' & l2 & He2 & Hl2).
    split; [done|]. exists (l1 ++ l2). split.
    + by rewrite He2, He1, app_assoc.
    + intros op [Hop|Hop]%elem_of_app; auto.
Qed.

(** X22. What the destructor guarantees when it does return, and what it never
    lets run: the join loop passes a worker only once its thread function
    has returned; after the return every worker has exited, [_threads] and
    the queue are empty; and from the moment [_done] is set no operation
    is dequeued, so that only operations a worker had already taken out of
    the queue are still run. *)
Lemma pool_shutdown_safety n (w0 : World) p :
  reachable n w0 p →
  (dtor p = Live → _done (stop_set_done p) = true) ∧
  (∀ w, workers p w = Blocked → workers (notify_all p) w = Woken) ∧
  (∀ i, dtor p = Joining i → ∀ w, w < i → workers p w = Exited) ∧
  (dtor p = Destroyed →
     (∀ w, w < n → workers p w = Exited) ∧
     (∀ w, n ≤ w → workers p w = NoThread) ∧
     _threads p = [] ∧ _queue p = []) ∧
  (_done p = true → ∀ acts p', run step acts p = Some p' →
     _done p' = true ∧
     ∃ l, executed p' = executed p ++ l ∧ ∀ op, op ∈ l → pending p op).
Proof.
  intros Hreach. pose proof (pool_reachable_wf n w0 p Hreach) as Hwf.
  split; [done|]. split; [|split; [|split]].
  - intros w Hw. simpl. by rewrite Hw.
  - intros i Hi. by destruct (wf_join _ _ Hwf i Hi) as (_ & Hex).
  - intros Hd. destruct (wf_destroyed _ _ Hwf Hd) as (Hex & Ht & Hq).
    repeat split; try done. apply (wf_none _ _ Hwf).
  - intros Hd acts p' Hrun. by apply (pool_done_run acts p).
Qed.

(** A worker parked after the destructor's broadcast stays parked, and the
    destructor stays in its join, unless the condition variable wakes the
    worker spuriously or somebody submits an operation. *)
Lemma pool_stuck_step w a p p' :
  workers p w = Blocked → dtor p = Joining w → w < _numThreads p →
  _threads p !! w = Some w →
  unaided a = true → step a p = Some p' →
  workers p' w = Blocked ∧ dtor p' = Joining w ∧
  _numThreads p' = _numThreads p ∧ _threads p' = _threads p.
Proof.
  intros Hw Hd Hn Ht Ha Hstep.
  destruct a as [u|u|u|u|u|u|o| | | |]; simpl in Hstep, Ha; try done.
  - destruct (workers p u) eqn:Hu; try done. injection Hstep as <-. simpl.
    unfold upd. destruct (decide (w = u)) as [->|]; [congruence|done].
  - assert (workers p u = AtWait ∨ workers p u = Woken) as Hu.
    { destruct (workers p u); try done; auto. }
    assert (p' = wait_body u p) as ->.
    { destruct Hu as [Hu|Hu]; rewrite Hu in Hstep; destruct (free p);
        try done; by injection Hstep. }
    assert (w ≠ u) by (intros ->; destruct Hu; congruence).
    unfold wait_body.
    destruct (negb _ || _); [destruct (_queue p); [|destruct (negb _)]|];
      simpl; by rewrite upd_ne.
  - destruct (workers p u) eqn:Hu; try done. injection Hstep as <-. simpl.
    unfold upd. destruct (decide (w = u)) as [->|]; [congruence|done].
  - destruct (workers p u) eqn:Hu; try done. injection Hstep as <-. simpl.
    unfold upd. destruct (decide (w = u)) as [->|]; [congruence|done].
  - destruct (workers p u) eqn:Hu; try done.
    destruct (getKeep op (world p) && negb (free p)); [done|].
    injection Hstep as <-. simpl.
    unfold upd. destruct (decide (w = u)) as [->|]; [congruence|done].
  - destruct o; [done|]. rewrite Hd in Hstep. by injection Hstep as <-.
  - by rewrite Hd in Hstep.
  - by rewrite Hd in Hstep.
  - rewrite Hd in Hstep. rewrite decide_True in Hstep by done.
    rewrite Ht, Hw in Hstep. done.
  - rewrite Hd in Hstep. rewrite decide_True in Hstep by done. done.
Qed.

Lemma pool_stuck_run w acts : ∀ p p',
  workers p w = Blocked → dtor p = Joining w → w < _numThreads p →
  _threads p !! w = Some w →
  forallb unaided acts = true → run step acts p = Some p' →
  workers p' w = Blocked ∧ dtor p' = Joining w.
Proof.
  induction acts as [|a acts IH]; intros p p' Hw Hd Hn Ht Hacts Hrun.
  - simpl in Hrun. by injection Hrun as <-.
  - simpl in Hacts. apply andb_prop in Hacts as [Ha Hacts].
    apply run_cons_inv in Hrun as (p1 & H1 & Hrun).
    destruct (pool_stuck_step w a p p1 Hw Hd Hn Ht Ha H1) as (Hw1 & Hd1 & Hn1 & Ht1).
    apply (IH p1 p'); try done; congruence.
Qed.

(** C9, where the code falls short.  One worker, empty queue: the worker
    finds the wait predicate false; before it parks, the destructor writes
    [_done] and broadcasts (neither takes the mutex, so nothing holds it
    back, and nobody is parked yet to hear the broadcast); the worker then
    parks.  From there, in every continuation without a spurious wake-up
    and without a new run(op), the worker stays parked and the destructor
    stays in join(): ~ThreadPool() does not return. *)
Theorem pool_shutdown_lost_wakeup (w0 : World) :
  ∃ p, run step [Loop 0; Enter 0; StopSetDone; StopNotify; Park 0]
         (init 1 w0) = Some p ∧
       _done p = true ∧ workers p 0 = Blocked ∧ dtor p = Joining 0 ∧
       ∀ acts p', forallb unaided acts = true → run step acts p = Some p' →
                  workers p' 0 = Blocked ∧ dtor p' = Joining 0 ∧
                  dtor p' ≠ Destroyed.
Proof.
  eexists. split; [reflexivity|]. split; [done|]. split; [done|]. split; [done|].
  intros acts p' Hacts Hrun.
  eapply (pool_stuck_run 0) in Hrun as [Hw Hd];
    [by rewrite Hd|done|done|simpl; lia|done|done].
Qed.

(** One turn of a worker's loop on a non-empty queue: the front operation
    is dequeued, run once, and pushed back at the tail exactly when its
    keep flag reads true after the run. *)
Lemma pool_worker_turn w op rest p :
  workers p w = AtWait ∨ workers p w = Woken → _queueMutex p = None →
  _queue p = op :: rest → _done p = false →
  ∃ p', run step [Enter w; Exec w; Requeue w] p = Some p' ∧
        executed p' = executed p ++ [op] ∧
        world p' = execute op (world p) ∧
        _queue p' = rest ++ (if getKeep op (world p') then [op] else []) ∧
        workers p' w = Top ∧ frame w p p'.
Proof.
  intros Hw Hfree Hq Hd.
  set (p1 := wait_body w p).
  assert (H1 : workers p1 w = Has op ∧ _queue p1 = rest ∧
               world p1 = world p ∧ executed p1 = executed p ∧ frame w p p1).
  { unfold p1, wait_body. rewrite Hq, Hd. simpl.
    rewrite upd_eq. repeat split; simpl; try done; try (by rewrite Hd).
    intros u Hu. by rewrite upd_ne. }
  destruct H1 as (Hw1 & Hq1 & Hwo1 & He1 & Hf1).
  assert (Hfree1 : _queueMutex p1 = None).
  { destruct Hf1 as (_ & _ & _ & _ & _ & ->). done. }
  set (p2 := run_op execute w op p1).
  assert (Hw2 : workers p2 w = Ran op) by (simpl; by rewrite upd_eq).
  exists (requeue getKeep w op p2).
  split; [|split; [|split; [|split; [|split]]]].
  - cbn [run]. rewrite (pool_step_enter w p Hw Hfree). fold p1.
    rewrite (pool_step_exec w op p1 Hw1). fold p2.
    by rewrite (pool_step_requeue w op p2 Hw2 Hfree1).
  - simpl. by rewrite He1.
  - simpl. by rewrite Hwo1.
  - simpl. rewrite Hq1, Hwo1.
    destruct (getKeep op (execute op (world p))); [done|by rewrite app_nil_r].
  - simpl. by rewrite upd_eq.
  - eapply pool_frame_trans; [exact Hf1|].
    eapply pool_frame_trans; [apply pool_frame_run_op|apply pool_frame_requeue].
Qed.

(** Between the dequeue and the drop of its reference the worker can only
    run the operation, then read its keep flag. *)
Lemma pool_worker_forced w a p p' :
  actor a = Some w → step a p = Some p' →
  (∀ op, workers p w = Has op → a = Exec w ∧ p' = run_op execute w op p) ∧
  (∀ op, workers p w = Ran op → a = Requeue w ∧ p' = requeue getKeep w op p).
Proof.
  intros Ha Hstep.
  destruct a as [u|u|u|u|u|u|o| | | |]; simpl in Ha; try done;
    injection Ha as ->; simpl in Hstep;
    split; intros op Hw; rewrite Hw in Hstep; try done.
  - by injection Hstep as <-.
  - destruct (getKeep op (world p) && negb (free p)); [done|].
    by injection Hstep as <-.
Qed.

(** An operation that is neither queued nor in a worker's hands stays so,
    and is not run, unless somebody submits it again. *)
Lemma pool_gone_step op a p p' :
  resubmits op a = false → gone p op → step a p = Some p' →
  gone p' op ∧ ∃ l, executed p' = executed p ++ l ∧ op ∉ l.
Proof.
  intros Ha [Hq Hw] Hstep.
  assert (Hnil : ∃ l, executed p = executed p ++ l ∧ op ∉ l).
  { exists []. rewrite app_nil_r. split; [done|]. apply not_elem_of_nil. }
  assert (Hupd : ∀ u s, s ≠ Has op → s ≠ Ran op →
            ∀ v, upd (workers p) u s v ≠ Has op ∧ upd (workers p) u s v ≠ Ran op).
  { intros u s H1 H2 v. unfold upd. destruct (decide (v = u)); [done|apply Hw]. }
  destruct a as [w|w|w|w|w|w|o| | | |]; simpl in Hstep.
  - destruct (workers p w) eqn:Hww; try done. injection Hstep as <-.
    split; [|done]. split; [done|]. simpl.
    apply Hupd; by destruct (_done p).
  - assert (p' = wait_body w p) as ->.
    { destruct (workers p w); try done; destruct (free p); try done;
        by injection Hstep. }
    unfold wait_body.
    destruct (_queue p) as [|x rest] eqn:Hqq; simpl;
      destruct (_done p); simpl; (split; [|done]); split; simpl;
      rewrite ?Hqq; try done; try (by apply Hupd).
    + intros Hin. apply Hq. by right.
    + apply Hupd; intros [= ->]; apply Hq; by left.
  - destruct (workers p w) eqn:Hww; try done. injection Hstep as <-.
    split; [|done]. split; [done|]. simpl. by apply Hupd.
  - destruct (workers p w) as [| | | | | |x|x|] eqn:Hww; try done.
    injection Hstep as <-.
    assert (x ≠ op) by (intros ->; by destruct (Hw w)).
    split.
    + split; [done|]. simpl. apply Hupd; congruence.
    + exists [x]. split; [done|]. intros Hin%list_elem_of_singleton. congruence.
  - destruct (workers p w) as [| | | | | |x|x|] eqn:Hww; try done.
    destruct (getKeep x (world p) && negb (free p)); [done|].
    injection Hstep as <-.
    assert (x ≠ op) by (intros ->; by destruct (Hw w)).
    split; [|done]. split; simpl; [|by apply Hupd].
    destruct (getKeep x (world p)); [|done].
    rewrite elem_of_app, list_elem_of_singleton. by intros [?|?].
  - destruct (workers p w) eqn:Hww; try done. injection Hstep as <-.
    split; [|done]. split; [done|]. simpl. by apply Hupd.
  - destruct o as [o|].
    + assert (p' = run_ o p) as ->.
      { destruct (dtor p); try done; destruct (free p); try done;
          by injection Hstep. }
      simpl in Ha. apply Nat.eqb_neq in Ha.
      split; [|done]. split; simpl.
      * rewrite elem_of_app, list_elem_of_singleton. by intros [?|?].
      * intros u. destruct (Hw u). by destruct (workers p u).
    + assert (p' = p) as -> by (destruct (dtor p); try done; by injection Hstep).
      done.
  - destruct (dtor p); try done. by injection Hstep as <-.
  - destruct (dtor p); try done. injection Hstep as <-.
    split; [|done]. split; [done|]. simpl.
    intros u. destruct (Hw u). by destruct (workers p u).
  - destruct (dtor p); try done. destruct (decide _); [|done].
    destruct (_threads p !! i); [|done].
    destruct (workers p n); try done. by injection Hstep as <-.
  - destruct (dtor p); try done. destruct (decide _); [done|].
    destruct (free p); [|done].
    injection Hstep as <-. split; [|done]. split; [|done]. simpl.
    apply not_elem_of_nil.
Qed.

Lemma pool_gone_run op acts : ∀ p p',
  existsb (resubmits op) acts = false → gone p op →
  run step acts p = Some p' →
  gone p' op ∧ ∃ l, executed p' = executed p ++ l ∧ op ∉ l.
Proof.
  induction acts as [|a acts IH]; intros p p' Hacts Hg Hrun.
  - simpl in Hrun. injection Hrun as <-. split; [done|].
    exists []. rewrite app_nil_r. split; [done|apply not_elem_of_nil].
  - simpl in Hacts. apply orb_false_elim in Hacts as [Ha Hacts].
    apply run_cons_inv in Hrun as (p1 & H1 & Hrun).
    destruct (pool_gone_step op a p p1 Ha Hg H1) as (Hg1 & l1 & He1 & Hl1).
    destruct (IH p1 p' Hacts Hg1 Hrun) as (Hg' & l2 & He2 & Hl2).
    split; [done|]. exists (l1 ++ l2). split.
    + by rewrite He2, He1, app_assoc.
    + rewrite elem_of_app. by intros [?|?].
Qed.

Lemma pool_times_app op l1 l2 : times op (l1 ++ l2) = times op l1 + times op l2.
Proof. unfold times. by rewrite filter_app, length_app. Qed.

Lemma pool_times_self op : times op [op] = 1.
Proof. unfold times. rewrite filter_cons_True by done. done. Qed.

(** A worker standing at its wait, with [op] somewhere in the queue, works
    its way through the queue and runs [op]. *)
Lemma pool_drive_gate w op pre : ∀ p post,
  workers p w = AtWait ∨ workers p w = Woken → _queueMutex p = None →
  _queue p = pre ++ op :: post → _done p = false →
  ∃ acts p', run step acts p = Some p' ∧ workers p' w = Ran op ∧
             frame w p p' ∧ ∃ l, executed p' = executed p ++ l ++ [op].
Proof.
  induction pre as [|x pre IH]; intros p post Hw Hfree Hq Hd.
  - set (p1 := wait_body w p).
    assert (H1 : workers p1 w = Has op ∧ executed p1 = executed p ∧ frame w p p1).
    { unfold p1, wait_body. rewrite Hq, Hd. simpl. rewrite upd_eq.
      repeat split; simpl; try done; try (by rewrite Hd).
      intros u Hu. by rewrite upd_ne. }
    destruct H1 as (Hw1 & He1 & Hf1).
    exists [Enter w; Exec w], (run_op execute w op p1).
    split; [|split; [|split]].
    + cbn [run]. rewrite (pool_step_enter w p Hw Hfree). fold p1.
      by rewrite (pool_step_exec w op p1 Hw1).
    + simpl. by rewrite upd_eq.
    + eapply pool_frame_trans; [exact Hf1|apply pool_frame_run_op].
    + exists []. simpl. by rewrite He1.
  - destruct (pool_worker_turn w x (pre ++ op :: post) p Hw Hfree Hq Hd)
      as (p3 & Hrun3 & He3 & _ & Hq3 & Hw3 & Hf3).
    assert (Hd3 : _done p3 = false).
    { destruct Hf3 as (_ & -> & _). done. }
    assert (Hfree3 : _queueMutex p3 = None).
    { destruct Hf3 as (_ & _ & _ & _ & _ & ->). done. }
    set (p4 := set_worker p3 w AtWait).
    assert (Hstep4 : step (Loop w) p3 = Some p4).
    { rewrite (pool_step_loop w p3 Hw3), Hd3. done. }
    destruct (IH p4 (post ++ (if getKeep x (world p3) then [x] else [])))
      as (acts & p' & Hrun & Hw' & Hf' & l & He').
    + left. simpl. by rewrite upd_eq.
    + done.
    + simpl. rewrite Hq3. by rewrite <- app_assoc.
    + done.
    + exists ([Enter w; Exec w; Requeue w] ++ Loop w :: acts), p'.
      split; [|split; [|split]].
      * eapply run_app_Some; [exact Hrun3|]. cbn [run]. by rewrite Hstep4.
      * done.
      * eapply pool_frame_trans; [exact Hf3|].
        eapply pool_frame_trans; [apply pool_frame_set_worker|exact Hf'].
      * exists (x :: l). rewrite He'. simpl. rewrite He3.
        by rewrite <- !app_assoc.
Qed.

(** A worker that is not parked gets to run [op] when [op] is queued or
    already in its hands and keeps its keep flag. *)
Lemma pool_drive w op p :
  always_keep getKeep op →
  unblocked (workers p w) → _queueMutex p = None → _done p = false →
  op ∈ _queue p ∨ workers p w = Has op ∨ workers p w = Ran op →
  ∃ acts p', run step acts p = Some p' ∧ workers p' w = Ran op ∧
             frame w p p' ∧ ∃ l, executed p' = executed p ++ l ++ [op].
Proof.
  intros Hkeep Hunb Hfree Hd Hop.
  assert (Hgate : ∀ q l0 acts0,
            run step acts0 p = Some q → frame w p q →
            executed q = executed p ++ l0 →
            workers q w = AtWait ∨ workers q w = Woken → op ∈ _queue q →
            ∃ acts p', run step acts p = Some p' ∧ workers p' w = Ran op ∧
                       frame w p p' ∧ ∃ l, executed p' = executed p ++ l ++ [op]).
  { intros q l0 acts0 Hrun0 Hf Heq Hwq Hin.
    apply list_elem_of_split in Hin as (pre & post & Hq).
    assert (Hdq : _done q = false) by (destruct Hf as (_ & -> & _); done).
    assert (Hfq : _queueMutex q = None).
    { destruct Hf as (_ & _ & _ & _ & _ & ->). done. }
    destruct (pool_drive_gate w op pre q post Hwq Hfq Hq Hdq)
      as (acts & p' & Hrun & Hw' & Hf' & l & He').
    exists (acts0 ++ acts), p'. split; [|split; [|split]].
    - eapply run_app_Some; eauto.
    - done.
    - eapply pool_frame_trans; eauto.
    - exists (l0 ++ l). by rewrite He', Heq, <- !app_assoc. }
  assert (Htop : ∀ q l0 acts0,
            run step acts0 p = Some q → frame w p q →
            executed q = executed p ++ l0 →
            workers q w = Top → op ∈ _queue q →
            ∃ acts p', run step acts p = Some p' ∧ workers p' w = Ran op ∧
                       frame w p p' ∧ ∃ l, executed p' = executed p ++ l ++ [op]).
  { intros q l0 acts0 Hrun0 Hf Heq Hwq Hin.
    assert (Hdq : _done q = false) by (destruct Hf as (_ & -> & _); done).
    apply (Hgate (set_worker q w AtWait) l0 (acts0 ++ [Loop w])).
    - eapply run_app_Some; [exact Hrun0|]. cbn [run].
      by rewrite (pool_step_loop w q Hwq), Hdq.
    - eapply pool_frame_trans; [exact Hf|apply pool_frame_set_worker].
    - done.
    - left. simpl. by rewrite upd_eq.
    - done. }
  assert (Hran : ∀ q l0 acts0 x,
            run step acts0 p = Some q → frame w p q →
            executed q = executed p ++ l0 →
            workers q w = Ran x → op ∈ _queue q ∨ x = op →
            ∃ acts p', run step acts p = Some p' ∧ workers p' w = Ran op ∧
                       frame w p p' ∧ ∃ l, executed p' = executed p ++ l ++ [op]).
  { intros q l0 acts0 x Hrun0 Hf Heq Hwq Hin.
    assert (Hfq : _queueMutex q = None).
    { destruct Hf as (_ & _ & _ & _ & _ & ->). done. }
    apply (Htop (requeue getKeep w x q) l0 (acts0 ++ [Requeue w])).
    - eapply run_app_Some; [exact Hrun0|]. cbn [run].
      by rewrite (pool_step_requeue w x q Hwq Hfq).
    - eapply pool_frame_trans; [exact Hf|apply pool_frame_requeue].
    - done.
    - simpl. by rewrite upd_eq.
    - simpl. destruct Hin as [Hin| ->].
      + destruct (getKeep x (world q)); [|done]. apply elem_of_app. by left.
      + rewrite Hkeep. apply elem_of_app. right. by apply list_elem_of_singleton. }
  destruct (workers p w) as [| | | | | |x|x|] eqn:Hw; simpl in Hunb; try done.
  - destruct Hop as [Hin|[?|?]]; try done.
    apply (Htop p [] []); try done; try apply pool_frame_refl;
      by rewrite app_nil_r.
  - destruct Hop as [Hin|[?|?]]; try done.
    apply (Hgate p [] []); auto; try done; try apply pool_frame_refl;
      by rewrite app_nil_r.
  - destruct Hop as [Hin|[?|?]]; try done.
    apply (Hgate p [] []); auto; try done; try apply pool_frame_refl;
      by rewrite app_nil_r.
  - destruct (decide (x = op)) as [->|Hne].
    + exists [Exec w], (run_op execute w op p). split; [|split; [|split]].
      * cbn [run]. by rewrite (pool_step_exec w op p Hw).
      * simpl. by rewrite upd_eq.
      * apply pool_frame_run_op.
      * by exists [].
    + destruct Hop as [Hin|[[= ?]|?]]; try done.
      apply (Hran (run_op execute w x p) [x] [Exec w] x).
      * cbn [run]. by rewrite (pool_step_exec w x p Hw).
      * apply pool_frame_run_op.
      * done.
      * simpl. by rewrite upd_eq.
      * by left.
  - apply (Hran p [] [] x); try done; try apply pool_frame_refl;
      try (by rewrite app_nil_r).
    destruct Hop as [Hin|[?|[= ?]]]; auto. done.
Qed.

(** A worker that holds the mutex on its way to park releases it by
    parking; nothing else changes. *)
Lemma pool_release_mutex n p :
  wf n p →
  ∃ acts p', run step acts p = Some p' ∧ _queueMutex p' = None ∧
             _queue p' = _queue p ∧ _done p' = _done p ∧
             executed p' = executed p ∧
             (∀ u, workers p u ≠ Parking → workers p' u = workers p u).
Proof.
  intros Hwf. destruct (_queueMutex p) as [u|] eqn:Hm.
  - apply (wf_mutex _ _ Hwf) in Hm.
    exists [Park u], (park u p). repeat split.
    + cbn [run step]. by rewrite Hm.
    + intros v Hv. simpl. unfold upd. by destruct (decide (v = u)) as [->|].
  - exists [], p. by repeat split.
Qed.

(** An operation that always keeps its flag and is queued or in a
    worker's hands is run as many more times as one cares to wait for, as
    long as the pool is not shut down, and is still there afterwards. *)
Lemma pool_keeper_runs_again n op k : ∀ p,
  0 < n → always_keep getKeep op → wf n p → _done p = false → present p op →
  ∃ acts p', run step acts p = Some p' ∧
             k + times op (executed p) ≤ times op (executed p') ∧
             present p' op ∧ _done p' = false.
Proof.
  induction k as [|k IH]; intros p Hn Hkeep Hwf Hd Hpres.
  - by exists [], p.
  - destruct (pool_release_mutex n p Hwf)
      as (acts0 & p0 & Hrun0 & Hfree0 & Hq0 & Hd0 & He0 & Hw0).
    pose proof (pool_run_wf n _ _ _ Hwf Hrun0) as Hwf0.
    rewrite <- Hd0 in Hd.
    assert (Hw : ∃ w, unblocked (workers p0 w) ∧
              (op ∈ _queue p0 ∨ workers p0 w = Has op ∨ workers p0 w = Ran op)).
    { destruct Hpres as [Hin|[w [Hw|Hw]]].
      - rewrite <- Hq0 in Hin.
        destruct (wf_unblocked _ _ Hwf0 Hn Hd) as [w Hw].
        { intros Hq. rewrite Hq in Hin. by apply elem_of_nil in Hin. }
        exists w. auto.
      - exists w. rewrite Hw0 by (by rewrite Hw).
        rewrite Hw. simpl. auto.
      - exists w. rewrite Hw0 by (by rewrite Hw).
        rewrite Hw. simpl. auto. }
    destruct Hw as (w & Hunb & Hop).
    destruct (pool_drive w op p0 Hkeep Hunb Hfree0 Hd Hop)
      as (acts1 & p1 & Hrun1 & Hw1 & Hf1 & l & He1).
    assert (Hd1 : _done p1 = false) by (destruct Hf1 as (_ & -> & _); done).
    destruct (IH p1 Hn Hkeep (pool_run_wf n _ _ _ Hwf0 Hrun1) Hd1)
      as (acts2 & p' & Hrun2 & Hcnt & Hpres' & Hd').
    { right. exists w. auto. }
    exists (acts0 ++ acts1 ++ acts2), p'. split; [|split; [|done]].
    + eapply run_app_Some; [exact Hrun0|]. eapply run_app_Some; eauto.
    + rewrite He1, He0, !pool_times_app, pool_times_self in Hcnt. lia.
Qed.

(** C8. For a pool of [n] threads, in any state it can reach, and any
    operation [op]:
    a worker at its wait that finds [op] at the front of the queue
    dequeues it, runs it once, and pushes it back at the tail exactly when
    its keep flag reads true after the run (and when the flag reads false
    and no other copy of the pointer is around, [op] is gone);
    a worker that holds an operation can do nothing but run it, then read
    the flag;
    once gone, [op] is never queued or run again unless it is submitted
    again;
    and an operation whose flag always reads true, once queued, is run
    again and again for as long as the pool is not shut down. *)
Theorem pool_keep_flag_decides n (w0 : World) p op :
  reachable n w0 p →
  (∀ w rest,
     workers p w = AtWait ∨ workers p w = Woken → _queueMutex p = None →
     _queue p = op :: rest → _done p = false →
     ∃ p', run step [Enter w; Exec w; Requeue w] p = Some p' ∧
           executed p' = executed p ++ [op] ∧
           world p' = execute op (world p) ∧
           _queue p' = rest ++ (if getKeep op (world p') then [op] else []) ∧
           workers p' w = Top ∧
           (getKeep op (world p') = false → op ∉ rest →
            (∀ u, workers p u ≠ Has op ∧ workers p u ≠ Ran op) →
            gone p' op)) ∧
  (∀ w a p', actor a = Some w → step a p = Some p' →
     (∀ o, workers p w = Has o → a = Exec w ∧ p' = run_op execute w o p) ∧
     (∀ o, workers p w = Ran o →
           a = Requeue w ∧ p' = requeue getKeep w o p)) ∧
  (gone p op → ∀ acts p',
     existsb (resubmits op) acts = false → run step acts p = Some p' →
     gone p' op ∧ ∃ l, executed p' = executed p ++ l ∧ op ∉ l) ∧
  (0 < n → always_keep getKeep op → present p op → _done p = false →
   ∀ k, ∃ acts p', run step acts p = Some p' ∧
                   k + times op (executed p) ≤ times op (executed p') ∧
                   present p' op ∧ _done p' = false).
Proof.
  intros Hreach. pose proof (pool_reachable_wf n w0 p Hreach) as Hwf.
  split; [|split; [|split]].
  - intros w rest Hw Hfree Hq Hd.
    destruct (pool_worker_turn w op rest p Hw Hfree Hq Hd)
      as (p' & Hrun & He & Hwo & Hq' & Hw' & Hf).
    exists p'. do 5 (split; [done|]).
    intros Hk Hrest Hheld. split.
    + by rewrite Hq', Hk, app_nil_r.
    + intros u. destruct (decide (u = w)) as [->|Hne]; [by rewrite Hw'|].
      destruct Hf as (Hoth & _). rewrite Hoth by done. apply Hheld.
  - intros w a p' Ha Hstep. by apply (pool_worker_forced w a p p').
  - intros Hg acts p' Hacts Hrun. by apply (pool_gone_run op acts p).
  - intros Hn Hkeep Hpres Hd k. by apply (pool_keeper_runs_again n).
Qed.

End ThreadPoolFacts.

Lemma pool_keep_flag_decides_witness :
  ∃ acts p',
    run (ThreadPool.step (λ _ w, w) (λ _ _, true)) acts
      (ThreadPool.run_ 7 (ThreadPool.init 1 tt)) = Some p'
    ∧ 3 + 0 ≤ ThreadPool.times 7 (ThreadPool.executed p')
    ∧ ThreadPool.present p' 7 ∧ ThreadPool._done p' = false.
Proof.
  refine (proj2 (proj2 (proj2
    (pool_keep_flag_decides (λ _ w, w) (λ _ _, true) 1 tt
       (ThreadPool.run_ 7 (ThreadPool.init 1 tt)) 7 _))) _ _ _ _ 3).
  - apply (run_reach _ _ [ThreadPool.Run (Some 7)]). reflexivity.
  - lia.
  - intros w. reflexivity.
  - left. simpl. apply list_elem_of_singleton. reflexivity.
  - reflexivity.
Defined.

(** The scenario of the specification, on one worker: op 1 (keep false)
    and op 2 (keep true) are submitted; op 1 runs once and is dropped,
    op 2 comes back to the queue after every run. *)
Example pool_scenario :
  let st := ThreadPool.step (λ _ (w : unit), w) (λ op _, op =? 2) in
  let acts :=
    [ThreadPool.Run (Some 1); ThreadPool.Run (Some 2);
     ThreadPool.Loop 0; ThreadPool.Enter 0; ThreadPool.Exec 0; ThreadPool.Requeue 0;
     ThreadPool.Loop 0; ThreadPool.Enter 0; ThreadPool.Exec 0; ThreadPool.Requeue 0;
     ThreadPool.Loop 0; ThreadPool.Enter 0; ThreadPool.Exec 0; ThreadPool.Requeue 0] in
  (λ p, (ThreadPool.executed p, ThreadPool._queue p))
    <$> run st acts (ThreadPool.init 1 tt)
  = Some ([1; 2; 2], [2]).
Proof. reflexivity. Qed.

(** With every critical section finished before the destructor starts,
    shutdown goes through: here the worker is parked when [_done] is
    written, hears the broadcast and exits, and the queued operation is
    dropped unrun. *)
Example pool_orderly_shutdown :
  let st := ThreadPool.step (λ _ (w : unit), w) (λ _ _, false) in
  let acts :=
    [ThreadPool.Loop 0; ThreadPool.Enter 0; ThreadPool.Park 0;
     ThreadPool.StopSetDone; ThreadPool.Run (Some 5); ThreadPool.StopNotify;
     ThreadPool.Enter 0; ThreadPool.Loop 0;
     ThreadPool.StopJoin; ThreadPool.StopClear] in
  (λ p, (ThreadPool.dtor p, ThreadPool.workers p 0,
         ThreadPool.executed p, ThreadPool._queue p))
    <$> run st acts (ThreadPool.init 1 tt)
  = Some (ThreadPool.Destroyed, ThreadPool.Exited, [], []).
Proof. reflexivity. Qed.

(** * Further properties *)

(** ** Event: broadcast, destructor, auto-reset *)

Section EventBroadcastFacts.
Import Event.

(** Woken threads that re-acquire the mutex one after the other all return
    true; the flag survives unless one of them is in waitAndReset(). *)
Lemma ev_resume_all ts : ∀ e,
  NoDup ts →
  (∀ t, t ∈ ts → ∃ k, thr e t = Woken k no_timeout) →
  ∃ e', run step (map Resume ts) e = Some e' ∧
        (∀ t, t ∈ ts → thr e' t = Returned true) ∧
        (∀ t, t ∉ ts → thr e' t = thr e t) ∧
        (_set e' = true ↔
           _set e = true ∧ ∀ t, t ∈ ts → thr e t ≠ Woken AndReset no_timeout).
Proof.
  induction ts as [|t ts IH]; intros e Hnd Hall.
  - exists e. split; [done|].
    split; [intros ? Hin; by apply elem_of_nil in Hin|].
    split; [done|]. split; [|by intros [? _]].
    intros Hs. split; [done|]. intros ? Hin. by apply elem_of_nil in Hin.
  - apply NoDup_cons in Hnd as [Hnotin Hnd].
    destruct (Hall t) as [k Hk]; [left|].
    set (e1 := resume t k no_timeout e).
    assert (Hthr1 : ∀ u, thr e1 u = upd (thr e) t (Returned true) u)
      by (intros u; unfold e1; by destruct k).
    destruct (IH e1 Hnd) as (e' & Hrun & Hret & Hrest & Hset).
    { intros u Hu. rewrite Hthr1, upd_ne by (intros ->; done).
      apply Hall. by right. }
    exists e'. split; [|split; [|split]].
    + cbn [map run]. rewrite (ev_step_resume _ _ _ _ Hk). exact Hrun.
    + intros u [->|Hu]%elem_of_cons; [|by apply Hret].
      by rewrite Hrest, Hthr1, upd_eq.
    + intros u Hu. apply not_elem_of_cons in Hu as [Hne Hu].
      by rewrite Hrest, Hthr1, upd_ne.
    + rewrite Hset. unfold e1 at 1. rewrite ev_set_resume. split.
      * intros [Hs Hno]. destruct k; try done.
        all: split; [done|]; intros u [->|Hu]%elem_of_cons; [by rewrite Hk|].
        all: specialize (Hno u Hu); rewrite Hthr1, upd_ne in Hno by (intros ->; done);
          done.
      * intros [Hs Hno]. destruct k.
        1,2: split; [done|]; intros u Hu; rewrite Hthr1, upd_ne by (intros ->; done);
          apply Hno; by right.
        exfalso. apply (Hno t); [left|done].
Qed.



(** Calls of one member function made by threads that are outside the
    event, one after the other. *)
Lemma ev_wait_calls_signaled ts : ∀ e,
  _set e = true → NoDup ts → (∀ t, t ∈ ts → ready (thr e t) = true) →
  ∃ e', run step (map (λ t, Call t CWait) ts) e = Some e' ∧
        (∀ t, t ∈ ts → thr e' t = Returned true) ∧
        (∀ t, t ∉ ts → thr e' t = thr e t) ∧ _set e' = true.
Proof.
  induction ts as [|t ts IH]; intros e Hs Hnd Hall.
  - exists e. split; [done|].
    split; [intros ? Hin; by apply elem_of_nil in Hin|done].
  - apply NoDup_cons in Hnd as [Hnotin Hnd].
    set (e1 := wait_enter t e).
    assert (He1 : _set e1 = true ∧ thr e1 = upd (thr e) t (Returned true))
      by (unfold e1, wait_enter; by rewrite Hs).
    destruct He1 as [Hs1 Hthr1].
    destruct (IH e1 Hs1 Hnd) as (e' & Hrun & Hret & Hrest & Hset).
    { intros u Hu. rewrite Hthr1, upd_ne by (intros ->; done).
      apply Hall. by right. }
    exists e'. split; [|split; [|split]]; [| | |done].
    + cbn [map run]. simpl. rewrite (Hall t) by left. exact Hrun.
    + intros u [->|Hu]%elem_of_cons; [|by apply Hret].
      by rewrite Hrest, Hthr1, upd_eq.
    + intros u Hu. apply not_elem_of_cons in Hu as [Hne Hu].
      by rewrite Hrest, Hthr1, upd_ne.
Qed.

Lemma ev_waitAndReset_calls_unsignaled ts : ∀ e,
  _set e = false → NoDup ts → (∀ t, t ∈ ts → ready (thr e t) = true) →
  ∃ e', run step (map (λ t, Call t CWaitAndReset) ts) e = Some e' ∧
        (∀ t, t ∈ ts → thr e' t = Blocked AndReset) ∧
        (∀ t, t ∉ ts → thr e' t = thr e t) ∧ _set e' = false.
Proof.
  induction ts as [|t ts IH]; intros e Hs Hnd Hall.
  - exists e. split; [done|].
    split; [intros ? Hin; by apply elem_of_nil in Hin|done].
  - apply NoDup_cons in Hnd as [Hnotin Hnd].
    set (e1 := waitAndReset_enter t e).
    assert (He1 : _set e1 = false ∧ thr e1 = upd (thr e) t (Blocked AndReset))
      by (unfold e1, waitAndReset_enter; by rewrite Hs).
    destruct He1 as [Hs1 Hthr1].
    destruct (IH e1 Hs1 Hnd) as (e' & Hrun & Hret & Hrest & Hset).
    { intros u Hu. rewrite Hthr1, upd_ne by (intros ->; done).
      apply Hall. by right. }
    exists e'. split; [|split; [|split]]; [| | |done].
    + cbn [map run]. simpl. rewrite (Hall t) by left. exact Hrun.
    + intros u [->|Hu]%elem_of_cons; [|by apply Hret].
      by rewrite Hrest, Hthr1, upd_eq.
    + intros u Hu. apply not_elem_of_cons in Hu as [Hne Hu].
      by rewrite Hrest, Hthr1, upd_ne.
Qed.

(** X3. wait() leaves a signaled event signaled, so any number of callers
    return true at once; waitAndReset() takes the signal away: of a series
    of callers the first returns true and all the others park on an
    unsignaled event. *)
Theorem ev_signal_consumed_once e t ts :
  _set e = true →
  NoDup (t :: ts) →
  (∀ u, u ∈ t :: ts → ready (thr e u) = true) →
  (∃ e', run step (map (λ u, Call u CWait) (t :: ts)) e = Some e' ∧
         (∀ u, u ∈ t :: ts → thr e' u = Returned true) ∧ _set e' = true) ∧
  (∃ e', run step (map (λ u, Call u CWaitAndReset) (t :: ts)) e = Some e' ∧
         thr e' t = Returned true ∧
         (∀ u, u ∈ ts → thr e' u = Blocked AndReset) ∧ _set e' = false).
Proof.
  intros Hs Hnd Hall. split.
  - destruct (ev_wait_calls_signaled (t :: ts) e Hs Hnd Hall)
      as (e' & Hrun & Hret & _ & Hset).
    by exists e'.
  - apply NoDup_cons in Hnd as [Hnotin Hnd].
    set (e1 := waitAndReset_enter t e).
    assert (He1 : _set e1 = false ∧ thr e1 = upd (thr e) t (Returned true))
      by (unfold e1, waitAndReset_enter; by rewrite Hs).
    destruct He1 as [Hs1 Hthr1].
    destruct (ev_waitAndReset_calls_unsignaled ts e1 Hs1 Hnd)
      as (e' & Hrun & Hblk & Hrest & Hset).
    { intros u Hu. rewrite Hthr1, upd_ne by (intros ->; done).
      apply Hall. by right. }
    exists e'. split; [|split; [|split]]; [| |done|done].
    + cbn [map run]. simpl. rewrite (Hall t) by left. exact Hrun.
    + by rewrite Hrest, Hthr1, upd_eq.
Qed.

End EventBroadcastFacts.


Lemma ev_signal_consumed_once_witness :
  (∃ e', run Event.step (map (λ u, Event.Call u Event.CWait) [0; 1])
           (Event.set Event.init) = Some e' ∧
         (∀ u, u ∈ [0; 1] → Event.thr e' u = Event.Returned true) ∧
         Event._set e' = true) ∧
  (∃ e', run Event.step (map (λ u, Event.Call u Event.CWaitAndReset) [0; 1])
           (Event.set Event.init) = Some e' ∧
         Event.thr e' 0 = Event.Returned true ∧
         (∀ u, u ∈ [1] → Event.thr e' u = Event.Blocked Event.AndReset) ∧
         Event._set e' = false).
Proof.
  apply (ev_signal_consumed_once (Event.set Event.init) 0 [1]).
  - reflexivity.
  - refine (bool_decide_unpack _ _). reflexivity.
  - intros u Hu. apply elem_of_cons in Hu as [->|Hu]; [done|].
    by apply list_elem_of_singleton in Hu as ->.
Defined.

(** ** Future / Promise: cancellation, release, FutureResult *)

Section FutureHandleFacts.
Import Future.
Context {T : Type}.
Implicit Types (c : shared T) (s : channel T) (polls : list cv_status).

(** X5. get(cancelable): with a null cancelable, or one that is never
    canceled, it is get(); a resolved future is returned whether canceled
    or not; [isCanceled()] is consulted only after a wait that timed out,
    and then ends the call with null; cancellation never changes the
    result into anything but null. *)
Theorem fut_get_cancelable_cases has (cpolls : list (cv_status * bool)) c :
  (has = false ∨ forallb (λ p, negb (snd p)) cpolls = true →
     get_cancelable has cpolls c = get (map fst cpolls) c) ∧
  (isAvailable c = true → get_cancelable has cpolls c = Some (_obj c)) ∧
  (∀ b, get_cancelable has ((no_timeout, b) :: cpolls) c = Some (_obj c)) ∧
  (isAvailable c = false →
     get_cancelable true ((timeout, true) :: cpolls) c = Some None) ∧
  (get_cancelable has cpolls c = get (map fst cpolls) c ∨
   get_cancelable has cpolls c = Some None).
Proof.
  split; [|split; [|split; [|split]]].
  - intros Hno. induction cpolls as [|[r b] cpolls IH]; [done|].
    simpl in *. destruct (Event.wait_for_result _ r); [done|].
    destruct (isAbandoned c); [done|].
    destruct Hno as [->|Hno]; [simpl; apply IH; by left|].
    apply andb_true_iff in Hno as [Hb Hno]. apply negb_true_iff in Hb as ->.
    rewrite andb_false_r. apply IH. by right.
  - unfold isAvailable. intros Hs.
    destruct cpolls as [|[r b] cpolls]; simpl; rewrite Hs; done.
  - intros b. simpl. unfold Event.wait_for_result.
    by destruct (Event._set (_ev c)).
  - unfold isAvailable. intros Hs. simpl. rewrite Hs. simpl.
    by destruct (isAbandoned c).
  - induction cpolls as [|[r b] cpolls IH]; [by left|].
    simpl. destruct (Event.wait_for_result _ r); [by left|].
    destruct (isAbandoned c); [by left|].
    destruct (has && b); [by right|exact IH].
Qed.

(** X6. release() returns exactly what get() would return, with or without a
    cancelable.  When it returns because the future was abandoned or the
    call canceled, the cell is untouched; otherwise the pointer has been
    taken out and the event reset, the reference count unchanged. *)
Theorem fut_release_as_get has (cpolls : list (cv_status * bool)) polls c :
  fst <$> release polls c = get polls c ∧
  fst <$> release_cancelable has cpolls c = get_cancelable has cpolls c ∧
  (has = false →
     release_cancelable has cpolls c = release (map fst cpolls) c) ∧
  (∀ v c', release_cancelable has cpolls c = Some (v, c') →
     (v = None ∧ c' = c) ∨
     (v = _obj c ∧ isAvailable c' = false ∧ _obj c' = None ∧
      referenceCount c' = referenceCount c)).
Proof.
  split; [|split; [|split]].
  - induction polls as [|r polls IH]; simpl.
    + by destruct (Event._set (_ev c)).
    + destruct (Event.wait_for_result _ r); [done|].
      by destruct (isAbandoned c).
  - induction cpolls as [|[r b] cpolls IH]; simpl.
    + by destruct (Event._set (_ev c)).
    + destruct (Event.wait_for_result _ r); [done|].
      destruct (isAbandoned c); [done|]. by destruct (has && b).
  - intros ->. induction cpolls as [|[r b] cpolls IH]; [done|].
    simpl. destruct (Event.wait_for_result _ r); [done|].
    by destruct (isAbandoned c).
  - induction cpolls as [|[r b] cpolls IH]; simpl; intros v c'.
    + destruct (Event._set (_ev c)); [|done]. intros [= <- <-]. by right.
    + destruct (Event.wait_for_result _ r); [intros [= <- <-]; by right|].
      destruct (isAbandoned c); [intros [= <- <-]; by left|].
      destruct (has && b); [intros [= <- <-]; by left|apply IH].
Qed.

(** X7. release() after resolve() hands over the value and puts the future
    back into its unresolved state: while other handles exist a further
    get() or release() waits, and after the next resolve() get() returns
    the new value. *)
Theorem fut_release_round_trip c (v v' : option T) polls polls' :
  ∃ c1, release polls (resolve v c) = Some (v, c1) ∧
        isAvailable c1 = false ∧ _obj c1 = None ∧
        referenceCount c1 = referenceCount c ∧
        get polls' (resolve v' c1) = Some v' ∧
        (referenceCount c ≠ 1 →
           ∀ n, get (repeat timeout n) c1 = None ∧
                release (repeat timeout n) c1 = None).
Proof.
  set (c1 := {| _ev := Event.reset (_ev (resolve v c)); _obj := @None T;
                referenceCount := referenceCount c |}).
  assert (Hs : Event._set (_ev (resolve v c)) = true)
    by apply fut_event_set_signals.
  exists c1. split; [|split; [done|split; [done|split; [done|split]]]].
  - simpl in Hs. destruct polls as [|r polls]; simpl; rewrite Hs; done.
  - apply (fut_get_signaled polls' (resolve v' c1)). apply fut_event_set_signals.
  - intros Hrc n.
    assert (Hab : isAbandoned c1 = false).
    { unfold isAbandoned. simpl. by apply Nat.eqb_neq. }
    induction n as [|n [IHg IHr]]; [done|].
    split; simpl; rewrite Hab; simpl; [exact IHg|exact IHr].
Qed.

(** X8. FutureResult::isReady() says whether get() can block: when it is true
    get() returns during its first timed wait at the latest; when it is
    false get() is still waiting after any number of timed-out waits. *)
Theorem fut_isReady_decides_blocking c :
  (isReady c = true → ∀ r polls, ∃ v, get (r :: polls) c = Some v) ∧
  (isReady c = false → ∀ n, get (repeat timeout n) c = None).
Proof.
  unfold isReady, isAvailable. split.
  - intros Hr r polls. simpl.
    destruct (Event.wait_for_result _ r) eqn:Hw; [by eexists|].
    destruct (Event._set (_ev c)) eqn:Hs; [done|]. simpl in Hr.
    rewrite Hr. by eexists.
  - intros Hr n. apply orb_false_iff in Hr as [Hs Hab].
    induction n as [|n IH]; simpl; rewrite Hs; [done|]. simpl.
    by rewrite Hab.
Qed.

(** X9. The synchronous constructor FutureResult(T* data) yields a result that
    is ready and whose get() returns [data] without waiting.  The promise
    it used is gone when it returns, so the future is available and
    abandoned at the same time. *)
Theorem fut_immediate_result (data : option T) polls :
  isReady (FutureResult_immediate data) = true ∧
  get polls (FutureResult_immediate data) = Some data ∧
  isAvailable (FutureResult_immediate data) = true ∧
  isAbandoned (FutureResult_immediate data) = true ∧
  referenceCount (FutureResult_immediate data) = 1.
Proof.
  assert (Hs : Event._set (_ev (FutureResult_immediate data)) = true) by done.
  split; [|split; [|done]].
  - unfold isReady, isAvailable. by rewrite Hs.
  - by rewrite (fut_get_signaled polls _ Hs).
Qed.

(** X10. Promise::isAbandoned() is true exactly when the calling promise is the
    only handle on the cell: with a single promise, when no future is
    left; never while the promise has a copy.  Future::isAbandoned() on
    the last future is true exactly when every promise is gone. *)
Theorem fut_abandoned_counts_handles s :
  reachable s →
  (Promise_isAbandoned (cell s) = true ↔ promises s + futures s = 1) ∧
  (promises s = 1 → (Promise_isAbandoned (cell s) = true ↔ futures s = 0)) ∧
  (1 < promises s → Promise_isAbandoned (cell s) = false) ∧
  (futures s = 1 → (isAbandoned (cell s) = true ↔ promises s = 0)).
Proof.
  intros Hreach. pose proof (fut_reachable_inv s Hreach) as Hrc.
  unfold Promise_isAbandoned, isAbandoned. rewrite Hrc.
  split; [apply Nat.eqb_eq|]. split; [|split].
  - intros ->. rewrite Nat.eqb_eq. lia.
  - intros Hp. apply Nat.eqb_neq. lia.
  - intros ->. rewrite Nat.eqb_eq. lia.
Qed.

End FutureHandleFacts.

Lemma fut_abandoned_counts_handles_witness :
  (Future.Promise_isAbandoned (Future.Future_copy (@Future.Future_new nat)) = true
   ↔ 1 + 1 = 1) ∧
  (1 = 1 →
     (Future.Promise_isAbandoned (Future.Future_copy (@Future.Future_new nat)) = true
      ↔ 1 = 0)) ∧
  (1 < 1 →
     Future.Promise_isAbandoned (Future.Future_copy (@Future.Future_new nat)) = false) ∧
  (1 = 1 →
     (Future.isAbandoned (Future.Future_copy (@Future.Future_new nat)) = true
      ↔ 1 = 0)).
Proof.
  apply (fut_abandoned_counts_handles
           {| Future.cell := Future.Future_copy (@Future.Future_new nat);
              Future.promises := 1; Future.futures := 1 |}).
  apply (run_reach Future.step Future.init [Future.GetFuture]). reflexivity.
Defined.

(** ** Gate: per-key independence, hand-over, round trip, misuse *)

Section GateUseFacts.
Import Gate.
Context {K : Type} `{Countable K}.
Implicit Types (g : gate K) (k key : K).

Lemma gate_consistent_free g k :
  consistent g → holders g k = [] → _users g !! k = None.
Proof.
  intros Hc Hh. destruct (Hc k) as [[Hm _]|[_ [t Ht]]]; [done|congruence].
Qed.

Lemma gate_consistent_held g k t :
  consistent g → t ∈ holders g k →
  _users g !! k = Some 1%Z ∧ holders g k = [t].
Proof.
  intros Hc Hin. destruct (Hc k) as [[_ Hh]|[Hm [t0 Hh]]]; rewrite Hh in Hin.
  - by apply elem_of_nil in Hin.
  - apply list_elem_of_singleton in Hin as ->. by rewrite Hh.
Qed.

(** What unlock(k) by the holder of [k] leaves. *)
Lemma gate_unlock_held g k t :
  _users g !! k = Some 1%Z → holders g k = [t] →
  _users (unlock t k g) = delete k (_users g) ∧
  (∀ u, thr (unlock t k g) u = wake (thr g u)) ∧
  holders (unlock t k g) = upd (holders g) k [].
Proof.
  intros Hm Hh. unfold unlock, index. rewrite Hm.
  change (int (1 - 1)) with 0%Z. rewrite lookup_insert_eq. simpl.
  rewrite delete_insert_eq, Hh. simpl. by rewrite decide_True.
Qed.

(** X11. Keys are independent: lock(k) on a key nobody holds returns at once,
    whatever other keys are held and whoever waits for them, and touches
    neither the other keys nor the other threads. *)
Theorem gate_lock_free_key g t k :
  reachable g →
  holders g k = [] →
  thr g t = Idle →
  ∃ g', step (Lock t k) g = Some g' ∧
        thr g' t = Idle ∧ holders g' k = [t] ∧ _users g' !! k = Some 1%Z ∧
        (∀ k', k' ≠ k →
           holders g' k' = holders g k' ∧ _users g' !! k' = _users g !! k') ∧
        (∀ u, u ≠ t → thr g' u = thr g u).
Proof.
  intros Hreach Hh Ht.
  pose proof (gate_consistent_free g k (gate_reachable_consistent g Hreach) Hh) as Hm.
  exists (lock_body t k g). simpl. rewrite Ht. split; [done|].
  rewrite (gate_lock_body_free t k g Hm). simpl.
  rewrite !upd_eq, Hh, lookup_insert_eq. do 3 (split; [done|]). split.
  - intros k' Hne. by rewrite upd_ne, !lookup_insert_ne.
  - intros u Hne. by rewrite upd_ne.
Qed.

(** X12. Hand-over: when the holder of [k] unlocks, a thread parked in lock(k)
    is woken, and once it re-acquires the mutex it holds [k]. *)
Theorem gate_unlock_hands_over g t u k :
  reachable g →
  holders g k = [t] →
  thr g t = Idle →
  thr g u = Blocked k →
  ∃ g', run step [Unlock t k; Retry u] g = Some g' ∧
        holders g' k = [u] ∧ thr g' u = Idle ∧ _users g' !! k = Some 1%Z ∧
        (∀ v, v ≠ u → thr g' v = wake (thr g v)).
Proof.
  intros Hreach Hh Ht Hu.
  destruct (gate_consistent_held g k t (gate_reachable_consistent g Hreach))
    as [Hm _]; [rewrite Hh; left|].
  destruct (gate_unlock_held g k t Hm Hh) as (Hus & Hthr & Hho).
  set (g1 := unlock t k g) in *.
  assert (Hm1 : _users g1 !! k = None) by (rewrite Hus; apply lookup_delete_eq).
  exists (lock_body u k g1). split.
  - cbn [run]. simpl. rewrite Ht, decide_True by (rewrite Hh; left).
    fold g1. simpl. by rewrite Hthr, Hu.
  - rewrite (gate_lock_body_free u k g1 Hm1). simpl.
    rewrite !upd_eq, Hho, upd_eq, lookup_insert_eq. do 3 (split; [done|]).
    intros v Hne. by rewrite upd_ne, Hthr.
Qed.

(** X13. There is one condition variable for all keys: unlock(k) also wakes the
    threads parked for another key that is still held; such a thread
    re-tests its own key and parks again, changing nothing. *)
Theorem gate_unlock_wakes_other_keys g t u v k k' :
  reachable g →
  holders g k = [t] →
  thr g t = Idle →
  k' ≠ k →
  v ∈ holders g k' →
  thr g u = Blocked k' →
  ∃ g1 g2, step (Unlock t k) g = Some g1 ∧ thr g1 u = Woken k' ∧
           step (Retry u) g1 = Some g2 ∧ thr g2 u = Blocked k' ∧
           _users g2 = _users g1 ∧ holders g2 = holders g1 ∧
           (∀ w, w ≠ u → thr g2 w = thr g1 w).
Proof.
  intros Hreach Hh Ht Hne Hv Hu.
  pose proof (gate_reachable_consistent g Hreach) as Hc.
  destruct (gate_consistent_held g k t Hc) as [Hm _]; [rewrite Hh; left|].
  destruct (gate_consistent_held g k' v Hc Hv) as [Hm' _].
  destruct (gate_unlock_held g k t Hm Hh) as (Hus & Hthr & Hho).
  set (g1 := unlock t k g) in *.
  assert (Hm1 : _users g1 !! k' = Some 1%Z)
    by (by rewrite Hus, lookup_delete_ne).
  exists g1, (lock_body u k' g1).
  assert (Hu1 : thr g1 u = Woken k') by (by rewrite Hthr, Hu).
  split; [|split; [done|split]].
  - simpl. rewrite Ht, decide_True by (rewrite Hh; left). done.
  - simpl. by rewrite Hu1.
  - rewrite (gate_lock_body_held u k' g1 1 Hm1) by done. simpl.
    rewrite upd_eq. do 3 (split; [done|]). intros w Hw. by rewrite upd_ne.
Qed.

(** X14. Lock followed by unlock (the life of a ScopedGate) restores the map
    of counts and the holders exactly: a key occupies an entry only while
    it is held. *)
Theorem gate_scoped_round_trip g t k :
  reachable g →
  holders g k = [] →
  thr g t = Idle →
  (∀ k', _users g !! k' = None ↔ holders g k' = []) ∧
  ∃ g', run step [Lock t k; Unlock t k] g = Some g' ∧
        _users g' = _users g ∧
        (∀ k', holders g' k' = holders g k') ∧
        (∀ u, thr g' u = wake (thr g u)).
Proof.
  intros Hreach Hh Ht.
  pose proof (gate_reachable_consistent g Hreach) as Hc. split.
  { intros k'. destruct (Hc k') as [[Hm Hh']|[Hm [t0 Hh']]];
      rewrite Hm, Hh'; done. }
  pose proof (gate_consistent_free g k Hc Hh) as Hm.
  pose proof (gate_lock_body_free t k g Hm) as Hl.
  set (g1 := lock_body t k g) in *.
  assert (Hm1 : _users g1 !! k = Some 1%Z)
    by (rewrite Hl; simpl; apply lookup_insert_eq).
  assert (Hh1 : holders g1 k = [t])
    by (rewrite Hl; simpl; by rewrite upd_eq, Hh).
  destruct (gate_unlock_held g1 k t Hm1 Hh1) as (Hus & Hthr & Hho).
  exists (unlock t k g1). split; [|split; [|split]].
  - cbn [run]. simpl. rewrite Ht. fold g1. simpl.
    assert (thr g1 t = Idle) as -> by (rewrite Hl; simpl; apply upd_eq).
    rewrite decide_True by (rewrite Hh1; left). done.
  - rewrite Hus, Hl. simpl.
    by rewrite insert_insert_eq, delete_insert_eq, delete_id.
  - intros k'. rewrite Hho. destruct (decide (k' = k)) as [->|Hne].
    + by rewrite upd_eq.
    + rewrite upd_ne, Hl by done. simpl. by rewrite upd_ne.
  - intros u. rewrite Hthr, Hl. simpl. destruct (decide (u = t)) as [->|Hne].
    + by rewrite upd_eq, Ht.
    + by rewrite upd_ne.
Qed.

(** A holder parked in lock(k) on its own key stays there. *)
Lemma gate_relock_stuck_step g g' t k a :
  consistent g →
  holders g k = [t] → thr g t = Blocked k ∨ thr g t = Woken k →
  step a g = Some g' →
  holders g' k = [t] ∧ (thr g' t = Blocked k ∨ thr g' t = Woken k).
Proof.
  intros Hc Hh Ht Hstep.
  destruct (gate_consistent_held g k t Hc) as [Hm _]; [rewrite Hh; left|].
  assert (Hlock : ∀ u key, u ≠ t ∨ (u = t ∧ key = k) →
            holders (lock_body u key g) k = [t] ∧
            (thr (lock_body u key g) t = Blocked k ∨
             thr (lock_body u key g) t = Woken k)).
  { intros u key Hcase. destruct (decide (key = k)) as [->|Hne].
    - rewrite (gate_lock_body_held u k g 1 Hm) by done. simpl.
      split; [done|]. destruct Hcase as [Hu|[-> _]].
      + by rewrite upd_ne.
      + rewrite upd_eq. by left.
    - destruct Hcase as [Hu|[_ ?]]; [|done].
      destruct (Hc key) as [[Hk _]|[Hk _]].
      + rewrite (gate_lock_body_free u key g Hk). simpl.
        by rewrite !upd_ne.
      + rewrite (gate_lock_body_held u key g 1 Hk) by done. simpl.
        by rewrite upd_ne. }
  destruct a as [u key|u|u key|u]; simpl in Hstep.
  - destruct (thr g u) eqn:Hu; try done. injection Hstep as <-.
    apply Hlock. left. intros ->. destruct Ht; congruence.
  - destruct (thr g u) as [| |key] eqn:Hu; try done. injection Hstep as <-.
    apply Hlock. destruct (decide (u = t)) as [->|Hne]; [|by left].
    right. split; [done|]. destruct Ht; congruence.
  - destruct (thr g u) eqn:Hu; try done.
    destruct (decide (u ∈ holders g key)) as [Hin|]; [|done].
    injection Hstep as <-.
    destruct (gate_consistent_held g key u Hc Hin) as [Hk Hhk].
    destruct (gate_unlock_held g key u Hk Hhk) as (_ & Hthr & Hho).
    assert (key ≠ k) as Hne.
    { intros ->. rewrite Hh in Hhk. injection Hhk as ->.
      destruct Ht; congruence. }
    rewrite Hho, Hthr, upd_ne by done. split; [done|].
    destruct Ht as [->| ->]; by right.
  - destruct (thr g u) as [|key|] eqn:Hu; try done. injection Hstep as <-.
    simpl. split; [done|]. destruct (decide (u = t)) as [->|Hne].
    + rewrite upd_eq. right. destruct Ht; congruence.
    + by rewrite upd_ne.
Qed.

Lemma gate_relock_stuck_run acts : ∀ g t k,
  reachable g →
  holders g k = [t] → thr g t = Blocked k ∨ thr g t = Woken k →
  ∀ g', run step acts g = Some g' →
  holders g' k = [t] ∧ (thr g' t = Blocked k ∨ thr g' t = Woken k).
Proof.
  induction acts as [|a acts IH]; intros g t k Hreach Hh Ht g' Hrun.
  - injection Hrun as <-. done.
  - apply run_cons_inv in Hrun as (g2 & Hstep & Hrun).
    destruct (gate_relock_stuck_step g g2 t k a
                (gate_reachable_consistent g Hreach) Hh Ht Hstep) as [Hh2 Ht2].
    apply (IH g2); try done. by apply (reach_step _ _ a g).
Qed.

(** X15. The gate is not recursive: a thread that calls lock(k) while it holds
    [k] parks, and nothing that any thread can do afterwards lets it
    return; it keeps [k] for ever. *)
Theorem gate_relock_deadlocks g t k :
  reachable g →
  t ∈ holders g k →
  thr g t = Idle →
  ∃ g1, step (Lock t k) g = Some g1 ∧ thr g1 t = Blocked k ∧
        ∀ acts g', run step acts g1 = Some g' →
          holders g' k = [t] ∧ (thr g' t = Blocked k ∨ thr g' t = Woken k).
Proof.
  intros Hreach Hin Ht.
  pose proof (gate_reachable_consistent g Hreach) as Hc.
  destruct (gate_consistent_held g k t Hc Hin) as [Hm Hh].
  pose proof (gate_lock_body_held t k g 1 Hm eq_refl) as Hl.
  exists (lock_body t k g).
  assert (Hstep : step (Lock t k) g = Some (lock_body t k g))
    by (simpl; by rewrite Ht).
  split; [done|]. split; [rewrite Hl; simpl; apply upd_eq|].
  intros acts. apply gate_relock_stuck_run.
  - by apply (reach_step _ _ (Lock t k) g).
  - by rewrite Hl.
  - left. rewrite Hl. simpl. apply upd_eq.
Qed.

(** X16. Misuse: unlock(k) on a key that is not in the map creates the entry
    (operator[] inserts 0) and leaves the count -1 there.  The next two
    lock(k) calls both return at once, so two threads hold [k] together. *)
Theorem gate_stray_unlock_breaks_exclusion g t0 t1 t2 k :
  _users g !! k = None →
  let g0 := unlock t0 k g in
  let g1 := lock_body t1 k g0 in
  let g2 := lock_body t2 k g1 in
  _users g0 !! k = Some (-1)%Z ∧ thr g0 = thr g ∧
  _users g1 !! k = Some 0%Z ∧ thr g1 t1 = Idle ∧
  _users g2 !! k = Some 1%Z ∧ thr g2 t2 = Idle ∧
  t1 ∈ holders g2 k ∧ t2 ∈ holders g2 k.
Proof.
  intros Hm g0 g1 g2.
  assert (H0 : _users g0 !! k = Some (-1)%Z ∧ thr g0 = thr g).
  { unfold g0, unlock, index. rewrite Hm.
    change (int (0 - 1)) with (-1)%Z. rewrite lookup_insert_eq. simpl.
    by rewrite lookup_insert_eq. }
  destruct H0 as [H0 H0t].
  assert (H1 : _users g1 !! k = Some 0%Z ∧ thr g1 t1 = Idle ∧
               holders g1 k = t1 :: holders g0 k).
  { unfold g1, lock_body, index. rewrite H0. simpl. rewrite H0. simpl.
    change (int (-1 + 1)) with 0%Z. by rewrite lookup_insert_eq, !upd_eq. }
  destruct H1 as (H1 & H1t & H1h).
  assert (H2 : _users g2 !! k = Some 1%Z ∧ thr g2 t2 = Idle ∧
               holders g2 k = t2 :: holders g1 k).
  { unfold g2, lock_body, index. rewrite H1. simpl. rewrite H1. simpl.
    change (int (0 + 1)) with 1%Z. by rewrite lookup_insert_eq, !upd_eq. }
  destruct H2 as (H2 & H2t & H2h).
  do 6 (split; [done|]). rewrite H2h, H1h. split; [right; left|left].
Qed.

End GateUseFacts.

Lemma gate_lock_free_key_witness :
  ∃ g', Gate.step (Gate.Lock 1 6) (Gate.lock_body 0 5 (@Gate.init nat _ _)) = Some g' ∧
        Gate.thr g' 1 = Gate.Idle ∧ Gate.holders g' 6 = [1] ∧
        Gate._users g' !! 6 = Some 1%Z ∧
        (∀ k', k' ≠ 6 →
           Gate.holders g' k' = Gate.holders (Gate.lock_body 0 5 Gate.init) k' ∧
           Gate._users g' !! k' = Gate._users (Gate.lock_body 0 5 Gate.init) !! k') ∧
        (∀ u, u ≠ 1 → Gate.thr g' u = Gate.thr (Gate.lock_body 0 5 Gate.init) u).
Proof.
  apply (gate_lock_free_key (Gate.lock_body 0 5 Gate.init) 1 6).
  - apply (run_reach Gate.step Gate.init [Gate.Lock 0 5]). reflexivity.
  - reflexivity.
  - reflexivity.
Defined.

Lemma gate_unlock_hands_over_witness :
  ∃ g', run Gate.step [Gate.Unlock 0 5; Gate.Retry 1]
          (Gate.lock_body 1 5 (Gate.lock_body 0 5 (@Gate.init nat _ _))) = Some g' ∧
        Gate.holders g' 5 = [1] ∧ Gate.thr g' 1 = Gate.Idle ∧
        Gate._users g' !! 5 = Some 1%Z ∧
        (∀ v, v ≠ 1 →
           Gate.thr g' v =
           Gate.wake (Gate.thr (Gate.lock_body 1 5 (Gate.lock_body 0 5 Gate.init)) v)).
Proof.
  apply (gate_unlock_hands_over
           (Gate.lock_body 1 5 (Gate.lock_body 0 5 Gate.init)) 0 1 5).
  - apply (run_reach Gate.step Gate.init [Gate.Lock 0 5; Gate.Lock 1 5]).
    reflexivity.
  - reflexivity.
  - reflexivity.
  - reflexivity.
Defined.

Lemma gate_unlock_wakes_other_keys_witness :
  ∃ g1 g2,
    Gate.step (Gate.Unlock 0 5)
      (Gate.lock_body 2 6 (Gate.lock_body 1 6 (Gate.lock_body 0 5 (@Gate.init nat _ _))))
    = Some g1 ∧ Gate.thr g1 2 = Gate.Woken 6 ∧
    Gate.step (Gate.Retry 2) g1 = Some g2 ∧ Gate.thr g2 2 = Gate.Blocked 6 ∧
    Gate._users g2 = Gate._users g1 ∧ Gate.holders g2 = Gate.holders g1 ∧
    (∀ w, w ≠ 2 → Gate.thr g2 w = Gate.thr g1 w).
Proof.
  apply (gate_unlock_wakes_other_keys
           (Gate.lock_body 2 6 (Gate.lock_body 1 6 (Gate.lock_body 0 5 Gate.init)))
           0 2 1 5 6).
  - apply (run_reach Gate.step Gate.init
             [Gate.Lock 0 5; Gate.Lock 1 6; Gate.Lock 2 6]).
    reflexivity.
  - reflexivity.
  - reflexivity.
  - done.
  - left.
  - reflexivity.
Defined.

Lemma gate_scoped_round_trip_witness :
  (∀ k', Gate._users (Gate.lock_body 0 5 (@Gate.init nat _ _)) !! k' = None
         ↔ Gate.holders (Gate.lock_body 0 5 (@Gate.init nat _ _)) k' = []) ∧
  ∃ g', run Gate.step [Gate.Lock 1 6; Gate.Unlock 1 6]
          (Gate.lock_body 0 5 (@Gate.init nat _ _)) = Some g' ∧
        Gate._users g' = Gate._users (Gate.lock_body 0 5 (@Gate.init nat _ _)) ∧
        (∀ k', Gate.holders g' k' = Gate.holders (Gate.lock_body 0 5 Gate.init) k') ∧
        (∀ u, Gate.thr g' u =
              Gate.wake (Gate.thr (Gate.lock_body 0 5 Gate.init) u)).
Proof.
  apply (gate_scoped_round_trip (Gate.lock_body 0 5 Gate.init) 1 6).
  - apply (run_reach Gate.step Gate.init [Gate.Lock 0 5]). reflexivity.
  - reflexivity.
  - reflexivity.
Defined.

Lemma gate_relock_deadlocks_witness :
  ∃ g1, Gate.step (Gate.Lock 0 5) (Gate.lock_body 0 5 (@Gate.init nat _ _)) = Some g1 ∧
        Gate.thr g1 0 = Gate.Blocked 5 ∧
        ∀ acts g', run Gate.step acts g1 = Some g' →
          Gate.holders g' 5 = [0] ∧
          (Gate.thr g' 0 = Gate.Blocked 5 ∨ Gate.thr g' 0 = Gate.Woken 5).
Proof.
  apply (gate_relock_deadlocks (Gate.lock_body 0 5 Gate.init) 0 5).
  - apply (run_reach Gate.step Gate.init [Gate.Lock 0 5]). reflexivity.
  - left.
  - reflexivity.
Defined.

Lemma gate_stray_unlock_breaks_exclusion_witness :
  1 ∈ Gate.holders
        (Gate.lock_body 2 5 (Gate.lock_body 1 5 (Gate.unlock 0 5 (@Gate.init nat _ _)))) 5 ∧
  2 ∈ Gate.holders
        (Gate.lock_body 2 5 (Gate.lock_body 1 5 (Gate.unlock 0 5 (@Gate.init nat _ _)))) 5.
Proof.
  destruct (gate_stray_unlock_breaks_exclusion (@Gate.init nat _ _) 0 1 2 5 eq_refl)
    as (_ & _ & _ & _ & _ & _ & H1 & H2).
  split; [exact H1|exact H2].
Defined.

(** ** ReadWriteMutex: admission, hand-over, writer starvation, misuse *)

Section ReadWriteMutexUseFacts.
Import ReadWriteMutex.
Local Open Scope Z_scope.

(** X17. Who gets in.  While a writer holds the mutex, read_lock() and
    write_lock() park; while readers hold it, write_lock() parks and
    read_lock() returns; on an unlocked mutex both return. *)
Theorem rw_admission m t :
  reachable_below m →
  thr m t = Idle →
  (writer_holds m →
     (∃ m', step (ReadLock t) m = Some m' ∧ thr m' t = BlockedR ∧
            read_holds m' = read_holds m) ∧
     (∃ m', step (WriteLock t) m = Some m' ∧ thr m' t = BlockedW ∧
            write_holds m' = write_holds m)) ∧
  (readers_hold m →
     ∃ m', step (WriteLock t) m = Some m' ∧ thr m' t = BlockedW ∧
           write_holds m' = write_holds m) ∧
  (¬ writer_holds m →
     ∃ m', step (ReadLock t) m = Some m' ∧ thr m' t = Idle ∧
           read_holds m' = read_holds m + 1) ∧
  (unlocked m →
     ∃ m', step (WriteLock t) m = Some m' ∧ thr m' t = Idle ∧
           write_holds m' = 1 ∧ _writers m' = 1).
Proof.
  intros Hreach Ht.
  destruct (rw_below_counted m Hreach) as (Hw & Hwh & Hr & Hrh & Hex).
  unfold writer_holds, readers_hold, unlocked.
  split; [|split; [|split]].
  - intros Hhold. split.
    + exists (read_lock_body t m). simpl. rewrite Ht. split; [done|].
      unfold read_lock_body. destruct (Z.ltb_spec 0 (_writers m)); [|lia].
      simpl. by rewrite upd_eq.
    + exists (write_lock_body t m). simpl. rewrite Ht. split; [done|].
      unfold write_lock_body. destruct (Z.ltb_spec 0 (_writers m)); [|lia].
      simpl. by rewrite upd_eq.
  - intros Hhold. exists (write_lock_body t m). simpl. rewrite Ht.
    split; [done|]. unfold write_lock_body.
    destruct (Z.ltb_spec 0 (_writers m)); simpl; [by rewrite upd_eq|].
    destruct (Z.ltb_spec 0 (_readers m)); [|lia]. simpl. by rewrite upd_eq.
  - intros Hno. exists (read_lock_body t m). simpl. rewrite Ht.
    split; [done|]. unfold read_lock_body.
    destruct (Z.ltb_spec 0 (_writers m)); [lia|]. simpl. by rewrite upd_eq.
  - intros [Hr0 Hw0]. exists (write_lock_body t m). simpl. rewrite Ht.
    split; [done|]. unfold write_lock_body.
    destruct (Z.ltb_spec 0 (_writers m)); [lia|].
    destruct (Z.ltb_spec 0 (_readers m)); [lia|]. simpl.
    rewrite upd_eq, Hw, Hw0. done.
Qed.

(** X18. Hand-over.  The read_unlock() of the last reader wakes the parked
    threads, and a parked writer that re-tests then holds the mutex; a
    read_unlock() that leaves other readers notifies nobody; after
    write_unlock() a parked reader that re-tests holds a read lock. *)
Theorem rw_unlock_hands_over m t u :
  reachable_below m →
  thr m t = Idle →
  (read_holds m = 1 → thr m u = BlockedW →
     ∃ m', run step [ReadUnlock t; Retry u] m = Some m' ∧
           thr m' u = Idle ∧ write_holds m' = 1 ∧ read_holds m' = 0 ∧
           _writers m' = 1 ∧ _readers m' = 0) ∧
  (1 < read_holds m →
     ∃ m', step (ReadUnlock t) m = Some m' ∧ thr m' = thr m ∧
           read_holds m' = read_holds m - 1) ∧
  (write_holds m = 1 → thr m u = BlockedR →
     ∃ m', run step [WriteUnlock t; Retry u] m = Some m' ∧
           thr m' u = Idle ∧ read_holds m' = 1 ∧ write_holds m' = 0 ∧
           _readers m' = 1 ∧ _writers m' = 0).
Proof.
  intros Hreach Ht.
  destruct (rw_below_counted m Hreach) as (Hw & Hwh & Hr & Hrh & Hex).
  split; [|split].
  - intros H1 Hu.
    assert (Hw0 : write_holds m = 0) by (destruct Hwh as [?|Hw1]; [done|]; specialize (Hex Hw1); lia).
    exists (write_lock_body u (read_unlock m)). split.
    + cbn [run]. simpl. rewrite Ht.
      destruct (Z.ltb_spec 0 (read_holds m)); [|lia]. simpl.
      rewrite Hr, H1. simpl. by rewrite Hu.
    + unfold write_lock_body, read_unlock. simpl.
      rewrite Hw, Hw0, Hr, H1. simpl. by rewrite upd_eq.
  - intros H1. exists (read_unlock m). simpl. rewrite Ht.
    destruct (Z.ltb_spec 0 (read_holds m)); [|lia]. split; [done|].
    unfold read_unlock. simpl. rewrite Hr, rw_unsigned_small by lia.
    destruct (Z.eqb_spec (read_holds m - 1) 0); [lia|done].
  - intros H1 Hu. specialize (Hex H1).
    exists (read_lock_body u (write_unlock m)). split.
    + cbn [run]. simpl. rewrite Ht.
      destruct (Z.ltb_spec 0 (write_holds m)); [|lia]. simpl.
      by rewrite Hu.
    + unfold read_lock_body, write_unlock. simpl.
      rewrite Hr, Hex, H1. simpl. by rewrite upd_eq.
Qed.

(** X19. Readers that overlap keep writers out for as long as they like: while
    two or more read locks are held, a reader can unlock and lock again any
    number of times, and no thread (a parked writer in particular) is ever
    notified or changes state. *)
Theorem rw_writers_can_starve m t n :
  reachable_below m →
  2 ≤ read_holds m →
  thr m t = Idle →
  ∃ m', run step (concat (repeat [ReadUnlock t; ReadLock t] n)) m = Some m' ∧
        reachable_below m' ∧
        _readers m' = _readers m ∧ _writers m' = _writers m ∧
        read_holds m' = read_holds m ∧ write_holds m' = write_holds m ∧
        ∀ u, thr m' u = thr m u.
Proof.
  intros Hreach H2 Ht. revert m Hreach H2 Ht.
  induction n as [|n IH]; intros m Hreach H2 Ht.
  { exists m. by repeat split. }
  destruct (rw_below_counted m Hreach) as (Hw & Hwh & Hr & Hrh & Hex).
  assert (Hw0 : write_holds m = 0)
    by (destruct Hwh as [?|Hw1]; [done|]; specialize (Hex Hw1); lia).
  set (m1 := read_unlock m).
  assert (Hs1 : step (ReadUnlock t) m = Some m1).
  { simpl. rewrite Ht. by destruct (Z.ltb_spec 0 (read_holds m)); [|lia]. }
  assert (H1 : _readers m1 = read_holds m - 1 ∧ thr m1 = thr m ∧
               read_holds m1 = read_holds m - 1 ∧ _writers m1 = _writers m ∧
               write_holds m1 = write_holds m).
  { unfold m1, read_unlock. simpl. rewrite Hr, rw_unsigned_small by lia.
    by destruct (Z.eqb_spec (read_holds m - 1) 0); [lia|]. }
  destruct H1 as (Hr1 & Ht1 & Hrh1 & Hw1 & Hwh1). clearbody m1.
  set (m2 := read_lock_body t m1).
  assert (Hs2 : step (ReadLock t) m1 = Some m2).
  { unfold step. by rewrite Ht1, Ht. }
  assert (H2' : _readers m2 = _readers m ∧ (∀ u, thr m2 u = thr m u) ∧
                read_holds m2 = read_holds m ∧ _writers m2 = _writers m ∧
                write_holds m2 = write_holds m).
  { unfold m2, read_lock_body. rewrite Hw1, Hw, Hw0. simpl.
    rewrite Hr1, Hrh1, Ht1, Hwh1, rw_unsigned_small by lia.
    split; [lia|]. split; [|lia].
    intros u. unfold upd. by case_decide; subst. }
  destruct H2' as (Hr2 & Ht2 & Hrh2 & Hw2 & Hwh2). clearbody m2.
  assert (Hreach2 : reachable_below m2).
  { apply (below_step (ReadLock t) m1); [|done|lia].
    apply (below_step (ReadUnlock t) m); [done|done|lia]. }
  destruct (IH m2 Hreach2) as (m' & Hrun & Hreach' & Hr' & Hw' & Hrh' & Hwh' & Ht').
  { lia. } { by rewrite Ht2. }
  exists m'. split.
  { cbn [repeat concat app run]. rewrite Hs1. cbn [mbind option_bind].
    rewrite Hs2. exact Hrun. }
  split; [done|]. rewrite Hr', Hw', Hrh', Hwh'.
  do 4 (split; [done|]). intros u. by rewrite Ht', Ht2.
Qed.

(** X20. Misuse: the unlock functions do not check that the caller holds
    anything.  read_unlock() with no reader wraps [_readers] to 2^32-1,
    notifies nobody, and every write_lock() afterwards parks;
    write_unlock() sets [_writers] to 0 whoever calls it, so that after it
    a second writer is let in although the first still holds. *)
Theorem rw_unbalanced_unlock m t :
  _readers m = 0 →
  (_readers (read_unlock m) = 2 ^ 32 - 1 ∧
   thr (read_unlock m) = thr m ∧
   thr (write_lock_body t (read_unlock m)) t = BlockedW) ∧
  (_writers (write_unlock m) = 0 ∧
   thr (write_lock_body t (write_unlock m)) t = Idle ∧
   _writers (write_lock_body t (write_unlock m)) = 1 ∧
   write_holds (write_lock_body t (write_unlock m)) = write_holds m).
Proof.
  intros Hr. split.
  - unfold read_unlock, write_lock_body. simpl. rewrite Hr.
    change (unsigned (0 - 1)) with 4294967295. simpl.
    split; [done|]. split; [done|].
    rewrite orb_true_r. simpl. apply upd_eq.
  - unfold write_unlock, write_lock_body. simpl. rewrite Hr. simpl.
    rewrite upd_eq. repeat split; lia.
Qed.

End ReadWriteMutexUseFacts.

Lemma rw_admission_witness :
  ∃ m', ReadWriteMutex.step (ReadWriteMutex.WriteLock 1)
          (ReadWriteMutex.read_lock_body 0 ReadWriteMutex.init) = Some m' ∧
        ReadWriteMutex.thr m' 1 = ReadWriteMutex.BlockedW ∧
        ReadWriteMutex.write_holds m' =
        ReadWriteMutex.write_holds (ReadWriteMutex.read_lock_body 0 ReadWriteMutex.init).
Proof.
  refine (proj1 (proj2 (rw_admission
            (ReadWriteMutex.read_lock_body 0 ReadWriteMutex.init) 1 _ _)) _).
  - apply (ReadWriteMutex.below_step (ReadWriteMutex.ReadLock 0) ReadWriteMutex.init);
      [apply ReadWriteMutex.below_init|reflexivity|reflexivity].
  - reflexivity.
  - reflexivity.
Defined.

Lemma rw_unlock_hands_over_witness :
  ∃ m', run ReadWriteMutex.step
          [ReadWriteMutex.ReadUnlock 0; ReadWriteMutex.Retry 1]
          (ReadWriteMutex.write_lock_body 1
             (ReadWriteMutex.read_lock_body 0 ReadWriteMutex.init)) = Some m' ∧
        ReadWriteMutex.thr m' 1 = ReadWriteMutex.Idle ∧
        ReadWriteMutex.write_holds m' = 1%Z ∧ ReadWriteMutex.read_holds m' = 0%Z ∧
        ReadWriteMutex._writers m' = 1%Z ∧ ReadWriteMutex._readers m' = 0%Z.
Proof.
  refine (proj1 (rw_unlock_hands_over
            (ReadWriteMutex.write_lock_body 1
               (ReadWriteMutex.read_lock_body 0 ReadWriteMutex.init)) 0 1 _ _) _ _).
  - apply (ReadWriteMutex.below_step (ReadWriteMutex.WriteLock 1)
             (ReadWriteMutex.read_lock_body 0 ReadWriteMutex.init));
      [|reflexivity|reflexivity].
    apply (ReadWriteMutex.below_step (ReadWriteMutex.ReadLock 0) ReadWriteMutex.init);
      [apply ReadWriteMutex.below_init|reflexivity|reflexivity].
  - reflexivity.
  - reflexivity.
  - reflexivity.
Defined.

Lemma rw_writers_can_starve_witness :
  ∃ m', run ReadWriteMutex.step
          (concat (repeat [ReadWriteMutex.ReadUnlock 0; ReadWriteMutex.ReadLock 0] 3))
          (ReadWriteMutex.write_lock_body 2
             (ReadWriteMutex.read_lock_body 1
                (ReadWriteMutex.read_lock_body 0 ReadWriteMutex.init))) = Some m' ∧
        ReadWriteMutex.thr m' 2 = ReadWriteMutex.BlockedW.
Proof.
  destruct (rw_writers_can_starve
              (ReadWriteMutex.write_lock_body 2
                 (ReadWriteMutex.read_lock_body 1
                    (ReadWriteMutex.read_lock_body 0 ReadWriteMutex.init))) 0 3)
    as (m' & Hrun & _ & _ & _ & _ & _ & Hthr).
  - apply (ReadWriteMutex.below_step (ReadWriteMutex.WriteLock 2)
             (ReadWriteMutex.read_lock_body 1
                (ReadWriteMutex.read_lock_body 0 ReadWriteMutex.init)));
      [|reflexivity|reflexivity].
    apply (ReadWriteMutex.below_step (ReadWriteMutex.ReadLock 1)
             (ReadWriteMutex.read_lock_body 0 ReadWriteMutex.init));
      [|reflexivity|reflexivity].
    apply (ReadWriteMutex.below_step (ReadWriteMutex.ReadLock 0) ReadWriteMutex.init);
      [apply ReadWriteMutex.below_init|reflexivity|reflexivity].
  - discriminate.
  - reflexivity.
  - exists m'. split; [exact Hrun|]. rewrite Hthr. reflexivity.
Defined.

Lemma rw_unbalanced_unlock_witness :
  ReadWriteMutex._readers (ReadWriteMutex.read_unlock ReadWriteMutex.init)
  = (2 ^ 32 - 1)%Z ∧
  ReadWriteMutex.thr
    (ReadWriteMutex.write_lock_body 0
       (ReadWriteMutex.read_unlock ReadWriteMutex.init)) 0
  = ReadWriteMutex.BlockedW.
Proof.
  destruct (rw_unbalanced_unlock ReadWriteMutex.init 0 eq_refl)
    as [(H1 & _ & H2) _].
  split; [exact H1|exact H2].
Defined.

(** ** ThreadPool: orderly shutdown, submissions, draining *)

Section ThreadPoolUseFacts.
Import ThreadPool.
Context {World : Type} (execute : nat → World → World)
  (getKeep : nat → World → bool).

Local Abbreviation pool := (ThreadPool.pool World).
Local Abbreviation step := (ThreadPool.step execute getKeep).
Local Abbreviation reachable := (ThreadPool.reachable execute getKeep).
Implicit Types (p : pool) (w op : nat).

(** Once [_done] is set, a worker that is neither parked nor about to park
    runs to its exit by itself. *)
Lemma pool_exit_path w p :
  _done p = true → _queueMutex p = None →
  workers p w ≠ Blocked → workers p w ≠ Parking → workers p w ≠ NoThread →
  ∃ p', run step (exit_path (workers p w) w) p = Some p' ∧
        workers p' w = Exited ∧ frame w p p'.
Proof.
  intros Hd Hfree Hnb Hnp Hnn.
  assert (Htop : ∀ q, workers q w = Top → frame w p q →
            ∃ p', run step [Loop w] q = Some p' ∧
                  workers p' w = Exited ∧ frame w p p').
  { intros q Hq Hf.
    assert (Hdq : _done q = true) by (destruct Hf as (_ & -> & _); done).
    exists (set_worker q w Exited).
    unfold run. rewrite (pool_step_loop execute getKeep w q Hq), Hdq.
    split; [done|]. split; [simpl; by rewrite upd_eq|].
    eapply pool_frame_trans; [exact Hf|apply pool_frame_set_worker]. }
  assert (Hran : ∀ q op, workers q w = Ran op → frame w p q →
            ∃ p', run step [Requeue w; Loop w] q = Some p' ∧
                  workers p' w = Exited ∧ frame w p p').
  { intros q op Hq Hf.
    assert (Hfq : _queueMutex q = None).
    { destruct Hf as (_ & _ & _ & _ & _ & ->). done. }
    destruct (Htop (requeue getKeep w op q)) as (p' & Hrun & Hex & Hf').
    - simpl. by rewrite upd_eq.
    - eapply pool_frame_trans; [exact Hf|apply pool_frame_requeue].
    - exists p'. split; [|done].
      change [Requeue w; Loop w] with ([Requeue w] ++ [Loop w]).
      eapply run_app_Some; [|exact Hrun].
      unfold run. by rewrite (pool_step_requeue execute getKeep w op q Hq Hfq). }
  assert (Hgate : workers p w = AtWait ∨ workers p w = Woken →
            ∃ p', run step [Enter w; Loop w] p = Some p' ∧
                  workers p' w = Exited ∧ frame w p p').
  { intros Hq.
    destruct (Htop (set_worker p w Top)) as (p' & Hrun & Hex & Hf').
    - simpl. by rewrite upd_eq.
    - apply pool_frame_set_worker.
    - exists p'. split; [|done].
      change [Enter w; Loop w] with ([Enter w] ++ [Loop w]).
      eapply run_app_Some; [|exact Hrun].
      unfold run. by rewrite (pool_step_enter execute getKeep w p Hq Hfree), pool_wait_body_done. }
  destruct (workers p w) as [| | | | | |op|op|] eqn:Hw; cbn [exit_path]; try done.
  - apply Htop; [done|apply pool_frame_refl].
  - apply Hgate. auto.
  - apply Hgate. auto.
  - destruct (Hran (run_op execute w op p) op) as (p' & Hrun & Hex & Hf').
    + simpl. by rewrite upd_eq.
    + apply pool_frame_run_op.
    + exists p'. split; [|done].
      change [Exec w; Requeue w; Loop w] with ([Exec w] ++ [Requeue w; Loop w]).
      eapply run_app_Some; [|exact Hrun].
      unfold run. by rewrite (pool_step_exec execute getKeep w op p Hw).
  - eapply Hran; [done|apply pool_frame_refl].
  - exists p. split; [done|]. split; [done|apply pool_frame_refl].
Qed.

(** The join loop gets through when no worker is parked: each worker in
    turn runs to its exit and its join() returns. *)
Lemma pool_join_all n k : ∀ i p,
  wf n p → dtor p = Joining i → i + k = n →
  _queueMutex p = None → (∀ w, workers p w ≠ Blocked) →
  ∃ acts p', run step acts p = Some p' ∧ dtor p' = Joining n ∧ wf n p' ∧
             _queueMutex p' = None.
Proof.
  induction k as [|k IH]; intros i p Hwf Hd Hik Hfree Hnb.
  - assert (i = n) as -> by lia. by exists [], p.
  - assert (Hdone : _done p = true).
    { apply (wf_done _ _ Hwf). by rewrite Hd. }
    destruct (pool_exit_path i p Hdone Hfree (Hnb i)) as (p1 & Hrun1 & Hex1 & Hf1).
    { intros Hp. apply (wf_mutex _ _ Hwf) in Hp. congruence. }
    { apply (wf_some _ _ Hwf). lia. }
    destruct Hf1 as (Hoth & Hd1 & Hdt1 & Hn1 & Ht1 & Hm1).
    pose proof (pool_run_wf execute getKeep n _ _ _ Hwf Hrun1) as Hwf1.
    assert (Hjoin : step StopJoin p1 = Some (set_dtor p1 (Joining (S i)))).
    { simpl. rewrite Hdt1, Hd. rewrite (wf_num _ _ Hwf1).
      rewrite decide_True by lia.
      rewrite (wf_threads _ _ Hwf1) by (by rewrite Hdt1, Hd).
      rewrite lookup_seq_lt by lia. simpl. by rewrite Hex1. }
    destruct (IH (S i) (set_dtor p1 (Joining (S i))))
      as (acts & p' & Hrun & Hd' & Hwf' & Hm').
    + eapply pool_wf_step; eauto.
    + done.
    + lia.
    + simpl. by rewrite Hm1.
    + intros w. simpl. destruct (decide (w = i)) as [->|Hne].
      * by rewrite Hex1.
      * rewrite Hoth by done. apply Hnb.
    + exists (exit_path (workers p i) i ++ StopJoin :: acts), p'.
      split; [|done].
      eapply run_app_Some; [exact Hrun1|]. cbn [run]. rewrite Hjoin. exact Hrun.
Qed.

(** A worker that is about to park parks, which frees the mutex. *)
Lemma pool_let_park n p :
  wf n p →
  ∃ acts p', run step acts p = Some p' ∧ _queueMutex p' = None ∧
             _done p' = _done p ∧ dtor p' = dtor p ∧
             executed p' = executed p ∧
             (∀ op, pending p' op → pending p op).
Proof.
  intros Hwf. destruct (_queueMutex p) as [u|] eqn:Hm.
  - apply (wf_mutex _ _ Hwf) in Hm.
    exists [Park u], (park u p). split; [|do 4 (split; [done|])].
    + cbn [run step]. by rewrite Hm.
    + intros op [v Hv]. exists v. simpl in Hv. unfold upd in Hv.
      by destruct (decide (v = u)).
  - exists [], p. by repeat split.
Qed.

(** X23. ~ThreadPool() can always return: from every state of a live pool there
    is a schedule in which the destructor sets the flag, broadcasts, joins
    every worker and clears the queue.  On that schedule only operations
    that a worker had already dequeued are still run, and at the end all
    workers have exited and the queue is empty. *)
Theorem pool_shutdown_can_complete n (w0 : World) p :
  reachable n w0 p →
  dtor p = Live →
  ∃ acts p', run step acts p = Some p' ∧ dtor p' = Destroyed ∧
             (∀ w, w < n → workers p' w = Exited) ∧
             _threads p' = [] ∧ _queue p' = [] ∧
             ∃ l, executed p' = executed p ++ l ∧ ∀ op, op ∈ l → pending p op.
Proof.
  intros Hreach Hd. pose proof (pool_reachable_wf execute getKeep n w0 p Hreach) as Hwf.
  destruct (pool_let_park n p Hwf) as (acts0 & p0 & Hrun0 & Hm0 & Hd0 & Hdt0 & He0 & Hp0).
  pose proof (pool_run_wf execute getKeep n _ _ _ Hwf Hrun0) as Hwf0.
  rewrite Hd in Hdt0.
  assert (H1 : step StopSetDone p0 = Some (stop_set_done p0)).
  { simpl. by rewrite Hdt0. }
  set (p2 := set_dtor (notify_all (stop_set_done p0)) (Joining 0)).
  assert (H2 : step StopNotify (stop_set_done p0) = Some p2) by done.
  pose proof (pool_wf_step execute getKeep n _ _ _ Hwf0 H1) as Hwf1.
  pose proof (pool_wf_step execute getKeep n _ _ _ Hwf1 H2) as Hwf2.
  destruct (pool_join_all n n 0 p2 Hwf2 eq_refl eq_refl)
    as (acts & p3 & Hrun & Hd3 & Hwf3 & Hm3).
  { done. }
  { intros w. simpl. by destruct (workers p0 w). }
  assert (H4 : step StopClear p3 = Some (stop_clear p3)).
  { simpl. rewrite Hd3, (wf_num _ _ Hwf3).
    rewrite decide_False by lia. unfold free. by rewrite Hm3. }
  assert (Hrest : run step (StopNotify :: acts ++ [StopClear]) (stop_set_done p0)
                  = Some (stop_clear p3)).
  { cbn [run]. rewrite H2. cbn [mbind option_bind].
    eapply run_app_Some; [exact Hrun|]. cbn [run]. by rewrite H4. }
  exists (acts0 ++ StopSetDone :: StopNotify :: acts ++ [StopClear]), (stop_clear p3).
  split.
  { eapply run_app_Some; [exact Hrun0|]. cbn [run]. rewrite H1. exact Hrest. }
  pose proof (pool_wf_step execute getKeep n _ _ _ Hwf3 H4) as Hwf4.
  destruct (wf_destroyed _ _ Hwf4 eq_refl) as (Hex & Ht & Hq).
  do 4 (split; [done|]).
  destruct (pool_done_run execute getKeep _ (stop_set_done p0) _ eq_refl Hrest)
    as (_ & l & He & Hl).
  exists l. split.
  - rewrite He. simpl. by rewrite He0.
  - intros op Hop. apply Hp0. destruct (Hl op Hop) as [v Hv]. by exists v.
Qed.

(** In a pool without threads nobody runs anything. *)
Lemma pool_no_workers_step a p p' :
  (∀ w, workers p w = NoThread) → step a p = Some p' →
  (∀ w, workers p' w = NoThread) ∧ executed p' = executed p ∧
  world p' = world p ∧ dtor p ≠ Destroyed ∧
  (dtor p' ≠ Destroyed → _queue p' = _queue p ++ submitted [a]).
Proof.
  intros Hno Hstep.
  destruct a as [w|w|w|w|w|w|o| | | |]; simpl in Hstep;
    try (rewrite Hno in Hstep; discriminate Hstep).
  - destruct (dtor p) eqn:Hd; try done;
      (destruct o as [o|];
       [destruct (free p); [|done]; injection Hstep as <-; simpl;
        split; [intros w; by rewrite Hno|done]
       |injection Hstep as <-; rewrite Hd; simpl; by rewrite app_nil_r]).
  - destruct (dtor p) eqn:Hd; try done. injection Hstep as <-. simpl.
    by rewrite app_nil_r.
  - destruct (dtor p) eqn:Hd; try done. injection Hstep as <-. simpl.
    rewrite app_nil_r. split; [intros w; by rewrite Hno|done].
  - destruct (dtor p) as [| |i|] eqn:Hd; try done.
    destruct (decide (i < _numThreads p)); [|done].
    destruct (_threads p !! i) as [w|]; [|done].
    by rewrite Hno in Hstep.
  - destruct (dtor p) as [| |i|] eqn:Hd; try done.
    destruct (decide (i < _numThreads p)); [done|].
    destruct (free p); [|done]. injection Hstep as <-. simpl. done.
Qed.

Lemma pool_no_workers_run acts : ∀ p p',
  (∀ w, workers p w = NoThread) → run step acts p = Some p' →
  (∀ w, workers p' w = NoThread) ∧ executed p' = executed p ∧
  world p' = world p ∧ (dtor p = Destroyed → dtor p' = Destroyed) ∧
  (dtor p' ≠ Destroyed → _queue p' = _queue p ++ submitted acts).
Proof.
  induction acts as [|a acts IH]; intros p p' Hno Hrun.
  - injection Hrun as <-. simpl. by rewrite app_nil_r.
  - apply run_cons_inv in Hrun as (p1 & Hstep & Hrun).
    destruct (pool_no_workers_step a p p1 Hno Hstep) as (Hno1 & He1 & Hw1 & Hd & Hq1).
    destruct (IH p1 p' Hno1 Hrun) as (Hno' & He' & Hw' & Hd' & Hq').
    split; [done|]. split; [congruence|]. split; [congruence|].
    split; [done|]. intros Hnd.
    rewrite Hq' by done. rewrite Hq1 by (intros Hx; by apply Hnd, Hd').
    rewrite <- app_assoc. f_equal. unfold submitted. simpl.
    by destruct a as [| | | | | |[o|]| | | |].
Qed.

(** X24. ThreadPool(0): operations submitted to a pool without threads are
    queued in the order of the run() calls (null pointers left out) and
    never run; getNumOperationsInQueue() returns their number as an
    [unsigned], that is modulo 2^32: the number itself while fewer than
    2^32 are queued. *)
Theorem pool_without_threads_runs_nothing (w0 : World) acts p :
  run step acts (init 0 w0) = Some p →
  executed p = [] ∧ world p = w0 ∧
  (dtor p ≠ Destroyed →
     _queue p = submitted acts ∧
     getNumOperationsInQueue p
       = (Z.of_nat (length (submitted acts)) `mod` 2 ^ 32)%Z ∧
     ((Z.of_nat (length (submitted acts)) < 2 ^ 32)%Z →
        getNumOperationsInQueue p = Z.of_nat (length (submitted acts)))).
Proof.
  intros Hrun.
  destruct (pool_no_workers_run acts (init 0 w0) p) as (_ & He & Hw & _ & Hq);
    [done|done|].
  do 2 (split; [done|]). intros Hd. unfold getNumOperationsInQueue.
  rewrite (Hq Hd). do 2 (split; [done|]). intros Hlt.
  apply Z.mod_small. lia.
Qed.

Lemma pool_in_flight_upd p w s op :
  (∃ u, upd (workers p) w s u = Has op ∨ upd (workers p) w s u = Ran op) →
  (s = Has op ∨ s = Ran op) ∨ in_flight p op.
Proof.
  intros [u Hu]. unfold upd in Hu. destruct (decide (u = w)); [by left|].
  right. by exists u.
Qed.

Lemma pool_in_flight_wake p op :
  (∃ u, wake (workers p u) = Has op ∨ wake (workers p u) = Ran op) →
  in_flight p op.
Proof.
  intros [u Hu]. exists u.
  destruct (workers p u); simpl in Hu; try done. by destruct Hu.
Qed.

(** A transition makes no operation known that was not known before, a
    run(op) apart. *)
Lemma pool_known_step a p p' op :
  step a p = Some p' → known p' op → known p op ∨ a = Run (Some op).
Proof.
  unfold known. intros Hstep Hk.
  assert (Hset : ∀ w s, (∀ o, s ≠ Has o) → (∀ o, s ≠ Ran o) →
            in_flight (set_worker p w s) op → in_flight p op).
  { intros w s Hs1 Hs2 Hin. apply pool_in_flight_upd in Hin as [[?|?]|?]; try done.
    - by apply Hs1 in H.
    - by apply Hs2 in H. }
  destruct a as [w|w|w|w|w|w|o| | | |]; simpl in Hstep.
  - destruct (workers p w) eqn:Hw; try done. injection Hstep as <-. left.
    destruct Hk as [?|[?|Hin]]; auto. right; right.
    apply (Hset w (if _done p then Exited else AtWait)); [| |done];
      by destruct (_done p).
  - assert (p' = wait_body w p) as ->.
    { destruct (workers p w); try done; destruct (free p); try done;
        by injection Hstep. }
    clear Hstep. left. unfold wait_body in Hk.
    destruct (negb (bool_decide (_queue p = [])) || _done p).
    + destruct (_queue p) as [|x rest] eqn:Hq.
      * destruct Hk as [?|[Hin|Hin]]; auto.
        -- simpl in Hin. rewrite Hq in Hin. auto.
        -- right; right. by apply (Hset w Top).
      * destruct (negb (_done p)).
        -- simpl in Hk. destruct Hk as [?|[?|Hin]]; auto.
           ++ right; left. by right.
           ++ apply pool_in_flight_upd in Hin as [[[= ->]|?]|?]; try done.
              ** right; left. left.
              ** auto.
        -- destruct Hk as [?|[Hin|Hin]]; auto.
           ++ simpl in Hin. rewrite Hq in Hin. auto.
           ++ right; right. by apply (Hset w Top).
    + simpl in Hk. destruct Hk as [?|[?|Hin]]; auto.
      apply pool_in_flight_upd in Hin as [[?|?]|?]; try done. auto.
  - destruct (workers p w) eqn:Hw; try done. injection Hstep as <-. left.
    simpl in Hk. destruct Hk as [?|[?|Hin]]; auto.
    apply pool_in_flight_upd in Hin as [[?|?]|?]; try done. auto.
  - destruct (workers p w) as [| | | | | |x|x|] eqn:Hw; try done.
    injection Hstep as <-. left. simpl in Hk.
    assert (Hx : in_flight p x) by (exists w; by left).
    destruct Hk as [Hin|[?|Hin]]; auto.
    + apply elem_of_app in Hin as [?|Hin]; auto.
      apply list_elem_of_singleton in Hin as ->. auto.
    + apply pool_in_flight_upd in Hin as [[?|[= ->]]|?]; try done; auto.
  - destruct (workers p w) as [| | | | | |x|x|] eqn:Hw; try done.
    destruct (getKeep x (world p) && negb (free p)); [done|].
    injection Hstep as <-. left. simpl in Hk.
    assert (Hx : in_flight p x) by (exists w; by right).
    destruct Hk as [?|[Hin|Hin]]; auto.
    + destruct (getKeep x (world p)); auto.
      apply elem_of_app in Hin as [?|Hin]; auto.
      apply list_elem_of_singleton in Hin as ->. auto.
    + apply pool_in_flight_upd in Hin as [[?|?]|?]; try done. auto.
  - destruct (workers p w) eqn:Hw; try done. injection Hstep as <-. left.
    destruct Hk as [?|[?|Hin]]; auto. right; right. by apply (Hset w Woken).
  - destruct (dtor p); try done;
      (destruct o as [o|];
       [destruct (free p); [|done]; injection Hstep as <-; simpl in Hk;
        destruct Hk as [?|[Hin|Hin]]; auto;
        [apply elem_of_app in Hin as [?|Hin]; auto;
         apply list_elem_of_singleton in Hin as ->; by right
        |left; right; right; by apply pool_in_flight_wake]
       |injection Hstep as <-; by left]).
  - destruct (dtor p); try done. injection Hstep as <-. by left.
  - destruct (dtor p); try done. injection Hstep as <-. left. simpl in Hk.
    destruct Hk as [?|[?|Hin]]; auto. right; right.
    by apply pool_in_flight_wake.
  - destruct (dtor p) as [| |i|]; try done.
    destruct (decide (i < _numThreads p)); [|done].
    destruct (_threads p !! i) as [w|]; [|done].
    destruct (workers p w); try done. injection Hstep as <-. by left.
  - destruct (dtor p) as [| |i|]; try done.
    destruct (decide (i < _numThreads p)); [done|].
    destruct (free p); [|done]. injection Hstep as <-. left. simpl in Hk.
    destruct Hk as [?|[Hin|?]]; auto. by apply elem_of_nil in Hin.
Qed.

Lemma pool_known_run acts : ∀ p p' op,
  run step acts p = Some p' → known p' op → known p op ∨ op ∈ submitted acts.
Proof.
  induction acts as [|a acts IH]; intros p p' op Hrun Hk.
  - injection Hrun as <-. by left.
  - apply run_cons_inv in Hrun as (p1 & Hstep & Hrun).
    destruct (IH p1 p' op Hrun Hk) as [Hk1|Hin].
    + destruct (pool_known_step a p p1 op Hstep Hk1) as [?| ->]; [by left|].
      right. unfold submitted. simpl. left.
    + right. unfold submitted in *. simpl.
      destruct a as [| | | | | |[o|]| | | |]; try done. by right.
Qed.

(** X25. The pool never invents work: whatever has been run, is queued, or is
    in a worker's hands was passed to run() before. *)
Theorem pool_runs_only_submitted n (w0 : World) acts p op :
  run step acts (init n w0) = Some p →
  known p op →
  op ∈ submitted acts.
Proof.
  intros Hrun Hk. destruct (pool_known_run acts _ _ op Hrun Hk) as [Hk0|?]; [|done].
  destruct Hk0 as [Hin|[Hin|[w [Hw|Hw]]]].
  - by apply elem_of_nil in Hin.
  - by apply elem_of_nil in Hin.
  - simpl in Hw. by destruct (decide (w < n)).
  - simpl in Hw. by destruct (decide (w < n)).
Qed.

(** X26. First in, first out: a worker at its wait takes the queued operations
    one by one from the front and, when none of them asks to be kept,
    runs them in queue order and leaves the queue empty. *)
Theorem pool_drains_in_order w q : ∀ p,
  workers p w = AtWait ∨ workers p w = Woken →
  _queueMutex p = None →
  _done p = false →
  _queue p = q →
  (∀ op, op ∈ q → never_keep getKeep op) →
  ∃ acts p', run step acts p = Some p' ∧
             executed p' = executed p ++ q ∧
             world p' = fold_left (λ wd op, execute op wd) q (world p) ∧
             _queue p' = [] ∧ getNumOperationsInQueue p' = 0%Z ∧
             frame w p p'.
Proof.
  induction q as [|op rest IH]; intros p Hw Hfree Hd Hq Hkeep.
  - exists [], p. rewrite app_nil_r. unfold getNumOperationsInQueue.
    rewrite Hq. do 5 (split; [done|]). apply pool_frame_refl.
  - destruct (pool_worker_turn execute getKeep w op rest p Hw Hfree Hq Hd)
      as (p3 & Hrun3 & He3 & Hw3 & Hq3 & Hs3 & Hf3).
    rewrite (Hkeep op) in Hq3 by left. rewrite app_nil_r in Hq3.
    assert (Hd3 : _done p3 = false) by (destruct Hf3 as (_ & -> & _); done).
    assert (Hfree3 : _queueMutex p3 = None).
    { destruct Hf3 as (_ & _ & _ & _ & _ & ->). done. }
    set (p4 := set_worker p3 w AtWait).
    assert (Hstep4 : step (Loop w) p3 = Some p4).
    { rewrite (pool_step_loop execute getKeep w p3 Hs3), Hd3. done. }
    destruct (IH p4) as (acts & p' & Hrun & He' & Hw' & Hq' & Hn' & Hf').
    + left. simpl. by rewrite upd_eq.
    + done.
    + done.
    + done.
    + intros o Ho. apply Hkeep. by right.
    + exists ([Enter w; Exec w; Requeue w] ++ Loop w :: acts), p'.
      split; [|split; [|split; [|split; [done|split; [done|]]]]].
      * eapply run_app_Some; [exact Hrun3|]. cbn [run]. by rewrite Hstep4.
      * rewrite He'. simpl. rewrite He3. by rewrite <- app_assoc.
      * rewrite Hw'. simpl. by rewrite Hw3.
      * eapply pool_frame_trans; [exact Hf3|].
        eapply pool_frame_trans; [apply pool_frame_set_worker|exact Hf'].
Qed.

(** A worker that is not parked gets to its wait. *)
Lemma pool_reach_wait w p :
  unblocked (workers p w) → _queueMutex p = None → _done p = false →
  ∃ acts q, run step acts p = Some q ∧
            (workers q w = AtWait ∨ workers q w = Woken) ∧ frame w p q ∧
            (∃ l, executed q = executed p ++ l) ∧
            (∀ op, op ∈ _queue p → op ∈ _queue q).
Proof.
  intros Hunb Hfree Hd.
  assert (Htop : ∀ q l0 acts0,
            run step acts0 p = Some q → frame w p q →
            executed q = executed p ++ l0 →
            (∀ op, op ∈ _queue p → op ∈ _queue q) →
            workers q w = Top →
            ∃ acts q', run step acts p = Some q' ∧
              (workers q' w = AtWait ∨ workers q' w = Woken) ∧ frame w p q' ∧
              (∃ l, executed q' = executed p ++ l) ∧
              (∀ op, op ∈ _queue p → op ∈ _queue q')).
  { intros q l0 acts0 Hrun0 Hf Heq Hqq Hwq.
    assert (Hdq : _done q = false) by (destruct Hf as (_ & -> & _); done).
    exists (acts0 ++ [Loop w]), (set_worker q w AtWait).
    split; [|split; [|split; [|split]]].
    - eapply run_app_Some; [exact Hrun0|]. cbn [run].
      by rewrite (pool_step_loop execute getKeep w q Hwq), Hdq.
    - left. simpl. by rewrite upd_eq.
    - eapply pool_frame_trans; [exact Hf|apply pool_frame_set_worker].
    - by exists l0.
    - done. }
  assert (Hran : ∀ q l0 acts0 x,
            run step acts0 p = Some q → frame w p q →
            executed q = executed p ++ l0 →
            (∀ op, op ∈ _queue p → op ∈ _queue q) →
            workers q w = Ran x →
            ∃ acts q', run step acts p = Some q' ∧
              (workers q' w = AtWait ∨ workers q' w = Woken) ∧ frame w p q' ∧
              (∃ l, executed q' = executed p ++ l) ∧
              (∀ op, op ∈ _queue p → op ∈ _queue q')).
  { intros q l0 acts0 x Hrun0 Hf Heq Hqq Hwq.
    assert (Hfq : _queueMutex q = None).
    { destruct Hf as (_ & _ & _ & _ & _ & ->). done. }
    apply (Htop (requeue getKeep w x q) l0 (acts0 ++ [Requeue w])).
    - eapply run_app_Some; [exact Hrun0|]. cbn [run].
      by rewrite (pool_step_requeue execute getKeep w x q Hwq Hfq).
    - eapply pool_frame_trans; [exact Hf|apply pool_frame_requeue].
    - done.
    - intros op Hop. simpl. destruct (getKeep x (world q)); [|by apply Hqq].
      apply elem_of_app. left. by apply Hqq.
    - simpl. by rewrite upd_eq. }
  destruct (workers p w) as [| | | | | |x|x|] eqn:Hw; simpl in Hunb; try done.
  - apply (Htop p [] []); try done; try apply pool_frame_refl; by rewrite app_nil_r.
  - exists [], p. split; [done|]. split; [by left|].
    split; [apply pool_frame_refl|]. split; [|done]. exists []. by rewrite app_nil_r.
  - exists [], p. split; [done|]. split; [by right|].
    split; [apply pool_frame_refl|]. split; [|done]. exists []. by rewrite app_nil_r.
  - apply (Hran (run_op execute w x p) [x] [Exec w] x).
    + cbn [run]. by rewrite (pool_step_exec execute getKeep w x p Hw).
    + apply pool_frame_run_op.
    + done.
    + done.
    + simpl. by rewrite upd_eq.
  - apply (Hran p [] [] x); try done; try apply pool_frame_refl; by rewrite app_nil_r.
Qed.

(** X27. No submission is lost: while the pool is live and its queue is not
    empty, some worker is neither parked nor about to park (run() notifies
    with the mutex held), and every queued operation can be run. *)
Theorem pool_queued_op_can_run n (w0 : World) p op :
  reachable n w0 p →
  0 < n →
  _done p = false →
  op ∈ _queue p →
  (∃ w, w < n ∧ unblocked (workers p w)) ∧
  ∃ acts p' l, run step acts p = Some p' ∧
               executed p' = executed p ++ l ++ [op] ∧ _done p' = false.
Proof.
  intros Hreach Hn Hd Hop.
  pose proof (pool_reachable_wf execute getKeep n w0 p Hreach) as Hwf.
  assert (Hne : _queue p ≠ []) by (intros Hq; rewrite Hq in Hop; by apply elem_of_nil in Hop).
  split.
  { destruct (wf_unblocked _ _ Hwf Hn Hd Hne) as [w Hw]. exists w. split; [|done].
    apply (pool_worker_exists n p w Hwf). intros Hx. by rewrite Hx in Hw. }
  destruct (pool_release_mutex execute getKeep n p Hwf)
    as (acts0 & p0 & Hrun0 & Hm0 & Hq0 & Hd0 & He0 & _).
  pose proof (pool_run_wf execute getKeep n _ _ _ Hwf Hrun0) as Hwf0.
  rewrite Hd in Hd0.
  destruct (wf_unblocked _ _ Hwf0 Hn Hd0) as [w Hw]; [by rewrite Hq0|].
  destruct (pool_reach_wait w p0 Hw Hm0 Hd0)
    as (acts1 & p1 & Hrun1 & Hw1 & Hf1 & [l1 He1] & Hq1).
  assert (Hin1 : op ∈ _queue p1) by (apply Hq1; by rewrite Hq0).
  apply list_elem_of_split in Hin1 as (pre & post & Hqq).
  assert (Hd1 : _done p1 = false) by (destruct Hf1 as (_ & -> & _); done).
  assert (Hm1 : _queueMutex p1 = None).
  { destruct Hf1 as (_ & _ & _ & _ & _ & ->). done. }
  destruct (pool_drive_gate execute getKeep w op pre p1 post Hw1 Hm1 Hqq Hd1)
    as (acts2 & p2 & Hrun2 & _ & Hf2 & l2 & He2).
  exists (acts0 ++ acts1 ++ acts2), p2, (l1 ++ l2). split; [|split].
  - eapply run_app_Some; [exact Hrun0|]. eapply run_app_Some; eauto.
  - by rewrite He2, He1, He0, <- !app_assoc.
  - destruct Hf2 as (_ & -> & _). done.
Qed.

End ThreadPoolUseFacts.

Lemma pool_shutdown_safety_witness :
  ThreadPool._done
    (ThreadPool.set_dtor
       (ThreadPool.notify_all (ThreadPool.stop_set_done (ThreadPool.init 1 tt)))
       (ThreadPool.Joining 0)) = true ∧
  ∃ l, ThreadPool.executed
         (ThreadPool.set_dtor
            (ThreadPool.notify_all (ThreadPool.stop_set_done (ThreadPool.init 1 tt)))
            (ThreadPool.Joining 0))
       = ThreadPool.executed (ThreadPool.stop_set_done (ThreadPool.init 1 tt)) ++ l ∧
       ∀ op, op ∈ l →
             ThreadPool.pending (ThreadPool.stop_set_done (ThreadPool.init 1 tt)) op.
Proof.
  refine (proj2 (proj2 (proj2 (proj2
            (pool_shutdown_safety (λ _ w, w) (λ _ _, false) 1 tt
               (ThreadPool.stop_set_done (ThreadPool.init 1 tt)) _))))
            eq_refl [ThreadPool.StopNotify] _ eq_refl).
  apply (run_reach (ThreadPool.step (λ _ w, w) (λ _ _, false)) (ThreadPool.init 1 tt)
           [ThreadPool.StopSetDone]).
  reflexivity.
Defined.

Lemma pool_shutdown_can_complete_witness :
  ∃ acts p',
    run (ThreadPool.step (λ _ w, w) (λ _ _, false)) acts (ThreadPool.init 2 tt)
    = Some p' ∧
    ThreadPool.dtor p' = ThreadPool.Destroyed ∧
    (∀ w, w < 2 → ThreadPool.workers p' w = ThreadPool.Exited) ∧
    ThreadPool._threads p' = [] ∧ ThreadPool._queue p' = [] ∧
    ∃ l, ThreadPool.executed p' = ThreadPool.executed (ThreadPool.init 2 tt) ++ l ∧
         ∀ op, op ∈ l → ThreadPool.pending (ThreadPool.init 2 tt) op.
Proof.
  apply (pool_shutdown_can_complete (λ _ w, w) (λ _ _, false) 2 tt
           (ThreadPool.init 2 tt)).
  - apply reach_init.
  - reflexivity.
Defined.

Lemma pool_without_threads_runs_nothing_witness :
  ThreadPool.executed (ThreadPool.run_ 4 (ThreadPool.run_ 3 (ThreadPool.init 0 tt))) = [] ∧
  ThreadPool.world (ThreadPool.run_ 4 (ThreadPool.run_ 3 (ThreadPool.init 0 tt))) = tt ∧
  (ThreadPool.dtor (ThreadPool.run_ 4 (ThreadPool.run_ 3 (ThreadPool.init 0 tt)))
   ≠ ThreadPool.Destroyed →
   ThreadPool._queue (ThreadPool.run_ 4 (ThreadPool.run_ 3 (ThreadPool.init 0 tt)))
   = ThreadPool.submitted
       [ThreadPool.Run (Some 3); ThreadPool.Run None; ThreadPool.Run (Some 4)] ∧
   ThreadPool.getNumOperationsInQueue
     (ThreadPool.run_ 4 (ThreadPool.run_ 3 (ThreadPool.init 0 tt)))
   = Z.modulo
       (Z.of_nat
          (length (ThreadPool.submitted
                     [ThreadPool.Run (Some 3); ThreadPool.Run None;
                      ThreadPool.Run (Some 4)])))
       (2 ^ 32)%Z ∧
   (Z.lt
      (Z.of_nat
         (length (ThreadPool.submitted
                    [ThreadPool.Run (Some 3); ThreadPool.Run None;
                     ThreadPool.Run (Some 4)])))
      (2 ^ 32)%Z →
    ThreadPool.getNumOperationsInQueue
      (ThreadPool.run_ 4 (ThreadPool.run_ 3 (ThreadPool.init 0 tt)))
    = Z.of_nat
        (length (ThreadPool.submitted
                   [ThreadPool.Run (Some 3); ThreadPool.Run None;
                    ThreadPool.Run (Some 4)])))).
Proof.
  apply (pool_without_threads_runs_nothing (λ _ w, w) (λ _ _, false) tt
           [ThreadPool.Run (Some 3); ThreadPool.Run None; ThreadPool.Run (Some 4)]).
  reflexivity.
Defined.

Lemma pool_runs_only_submitted_witness :
  3 ∈ ThreadPool.submitted
        [ThreadPool.Run (Some 3); ThreadPool.Loop 0; ThreadPool.Enter 0;
         ThreadPool.Exec 0].
Proof.
  apply (pool_runs_only_submitted (λ _ w, w) (λ _ _, false) 1 tt
           [ThreadPool.Run (Some 3); ThreadPool.Loop 0; ThreadPool.Enter 0;
            ThreadPool.Exec 0]
           (ThreadPool.run_op (λ _ w, w) 0 3
              (ThreadPool.wait_body 0
                 (ThreadPool.set_worker (ThreadPool.run_ 3 (ThreadPool.init 1 tt)) 0
                    ThreadPool.AtWait)))).
  - reflexivity.
  - left. apply list_elem_of_singleton. reflexivity.
Defined.

Lemma pool_drains_in_order_witness :
  ∃ acts p',
    run (ThreadPool.step (λ _ w, w) (λ _ _, false)) acts
      (ThreadPool.run_ 2
         (ThreadPool.run_ 1
            (ThreadPool.set_worker (ThreadPool.init 1 tt) 0 ThreadPool.AtWait)))
    = Some p' ∧
    ThreadPool.executed p' =
      ThreadPool.executed
        (ThreadPool.run_ 2
           (ThreadPool.run_ 1
              (ThreadPool.set_worker (ThreadPool.init 1 tt) 0 ThreadPool.AtWait)))
      ++ [1; 2] ∧
    ThreadPool.world p' =
      fold_left (λ wd op, (λ _ w, w) op wd) [1; 2]
        (ThreadPool.world
           (ThreadPool.run_ 2
              (ThreadPool.run_ 1
                 (ThreadPool.set_worker (ThreadPool.init 1 tt) 0 ThreadPool.AtWait)))) ∧
    ThreadPool._queue p' = [] ∧ ThreadPool.getNumOperationsInQueue p' = 0%Z ∧
    ThreadPool.frame 0
      (ThreadPool.run_ 2
         (ThreadPool.run_ 1
            (ThreadPool.set_worker (ThreadPool.init 1 tt) 0 ThreadPool.AtWait))) p'.
Proof.
  apply (pool_drains_in_order (λ _ w, w) (λ _ _, false) 0 [1; 2]).
  - left. reflexivity.
  - reflexivity.
  - reflexivity.
  - reflexivity.
  - intros op _ w. reflexivity.
Defined.

Lemma pool_queued_op_can_run_witness :
  (∃ w, w < 1 ∧
        ThreadPool.unblocked
          (ThreadPool.workers (ThreadPool.run_ 7 (ThreadPool.init 1 tt)) w)) ∧
  ∃ acts p' l,
    run (ThreadPool.step (λ _ w, w) (λ _ _, false)) acts
      (ThreadPool.run_ 7 (ThreadPool.init 1 tt)) = Some p' ∧
    ThreadPool.executed p' =
      ThreadPool.executed (ThreadPool.run_ 7 (ThreadPool.init 1 tt)) ++ l ++ [7] ∧
    ThreadPool._done p' = false.
Proof.
  apply (pool_queued_op_can_run (λ _ w, w) (λ _ _, false) 1 tt
           (ThreadPool.run_ 7 (ThreadPool.init 1 tt)) 7).
  - apply (run_reach (ThreadPool.step (λ _ w, w) (λ _ _, false)) (ThreadPool.init 1 tt)
             [ThreadPool.Run (Some 7)]).
    reflexivity.
  - lia.
  - reflexivity.
  - apply list_elem_of_singleton. reflexivity.
Defined.

(** ** RecursiveMutex *)

Section RecursiveMutexFacts.
Import RecursiveMutex.

Lemma rmutex_disabled_step a m :
  _enabled m = false → step a m = Some m ∨ (a = Disable ∧ step a m = Some (disable m)).
Proof.
  intros Hd. destruct a as [t|t|t|]; simpl.
  - left. unfold lock. by rewrite Hd.
  - left. unfold try_lock. by rewrite Hd.
  - left. rewrite Hd. unfold unlock. by rewrite Hd.
  - by right.
Qed.

(** X28. disable() switches the mutex off for good: afterwards every lock()
    returns at once and every try_lock() returns true, for any thread and
    whoever owns the underlying mutex, unlock() does nothing, and no
    sequence of calls touches the underlying mutex again.  In particular
    two threads can be inside the "locked" region together, and a lock
    held at the time of disable() is never given back. *)
Theorem rmutex_disable_is_final m acts :
  (∀ t, lock t (disable m) = Some (disable m) ∧
        try_lock t (disable m) = (true, disable m) ∧
        unlock t (disable m) = disable m) ∧
  ∃ m', run step acts (disable m) = Some m' ∧
        _enabled m' = false ∧ _handle m' = _handle m.
Proof.
  split; [done|].
  assert (Hgen : ∀ m0, _enabled m0 = false →
            ∃ m', run step acts m0 = Some m' ∧
                  _enabled m' = false ∧ _handle m' = _handle m0).
  { induction acts as [|a acts IH]; intros m0 Hd; [by exists m0|].
    destruct (rmutex_disabled_step a m0 Hd) as [Hs|[-> Hs]].
    - destruct (IH m0 Hd) as (m' & Hrun & He & Hh).
      exists m'. cbn [run]. by rewrite Hs.
    - destruct (IH (disable m0) eq_refl) as (m' & Hrun & He & Hh).
      exists m'. cbn [run]. by rewrite Hs. }
  apply (Hgen (disable m) eq_refl).
Qed.

Lemma rmutex_lock_n_owned t n : ∀ m d,
  _enabled m = true → owner (_handle m) = Some t → depth (_handle m) = d →
  lock_n t n m = Some {| _enabled := true;
                         _handle := {| owner := Some t; depth := n + d |} |}.
Proof.
  induction n as [|n IH]; intros m d He Ho Hd.
  - simpl. destruct m as [e [o dd]]. simpl in *. by subst.
  - change (lock_n t (S n) m) with (lock_n t n m ≫= lock t).
    rewrite (IH m d He Ho Hd). simpl.
    unfold lock, native_lock. simpl. by rewrite decide_True.
Qed.

Lemma rmutex_unlock_n_owned t n : ∀ d,
  unlock_n t n {| _enabled := true;
                  _handle := {| owner := Some t; depth := n + S d |} |}
  = {| _enabled := true; _handle := {| owner := Some t; depth := S d |} |}.
Proof.
  induction n as [|n IH]; intros d; [done|].
  unfold unlock_n in *. rewrite Nat.iter_succ_r.
  unfold unlock at 2, native_unlock. simpl. rewrite decide_True by done.
  replace (n + S d) with (S (n + d)) by lia.
  replace (S (n + d)) with (n + S d) by lia. apply IH.
Qed.

(** X29. While enabled the mutex is recursive and exclusive: a thread that
    takes the free mutex can lock it any number of times more; meanwhile
    the lock() of any other thread has to wait and its try_lock() returns
    false without changing anything; and as many unlock() calls as there
    were lock() calls set the mutex free again, not one fewer. *)
Theorem rmutex_recursive_round_trip t u n :
  u ≠ t →
  ∃ m1, lock_n t (S n) init = Some m1 ∧
        owner (_handle m1) = Some t ∧
        lock u m1 = None ∧ try_lock u m1 = (false, m1) ∧
        owner (_handle (unlock_n t n m1)) = Some t ∧
        unlock_n t (S n) m1 = init.
Proof.
  intros Hne.
  set (m0 := {| _enabled := true; _handle := {| owner := Some t; depth := 1 |} |}).
  assert (H0 : lock t init = Some m0) by done.
  exists {| _enabled := true; _handle := {| owner := Some t; depth := n + 1 |} |}.
  split; [|split; [done|split; [|split; [|split]]]].
  - unfold lock_n. rewrite Nat.iter_succ_r. cbn [mbind option_bind].
    change (Some init ≫= lock t) with (lock t init). rewrite H0.
    by apply (rmutex_lock_n_owned t n m0 1).
  - unfold lock, native_lock. simpl. by rewrite decide_False by congruence.
  - unfold try_lock, native_try_lock, native_lock. simpl.
    by rewrite decide_False by congruence.
  - by rewrite (rmutex_unlock_n_owned t n 0).
  - change (unlock_n t (S n) ?m) with (unlock t (unlock_n t n m)).
    rewrite (rmutex_unlock_n_owned t n 0).
    unfold unlock, native_unlock. simpl. by rewrite decide_True.
Qed.

End RecursiveMutexFacts.

Lemma rmutex_recursive_round_trip_witness :
  ∃ m1, RecursiveMutex.lock_n 0 3 RecursiveMutex.init = Some m1 ∧
        RecursiveMutex.owner (RecursiveMutex._handle m1) = Some 0 ∧
        RecursiveMutex.lock 1 m1 = None ∧
        RecursiveMutex.try_lock 1 m1 = (false, m1) ∧
        RecursiveMutex.owner
          (RecursiveMutex._handle (RecursiveMutex.unlock_n 0 2 m1)) = Some 0 ∧
        RecursiveMutex.unlock_n 0 3 m1 = RecursiveMutex.init.
Proof. apply (rmutex_recursive_round_trip 0 1 2). discriminate. Defined.

(** ** ScopedAtomicCounter *)

Section ScopedAtomicCounterFacts.
Import ScopedAtomicCounter.
Local Open Scope Z_scope.

Lemma sac_atomic_int_range z : in_range (atomic_int z).
Proof.
  unfold in_range, atomic_int.
  pose proof (Z.mod_pos_bound (z + 2 ^ 31) (2 ^ 32)). lia.
Qed.

Lemma sac_atomic_int_id z : in_range z → atomic_int z = z.
Proof.
  unfold in_range, atomic_int. intros Hz.
  rewrite Z.mod_small by lia. lia.
Qed.

Lemma sac_leave_enter a : in_range a → leave (enter a) = a.
Proof.
  intros Ha. unfold leave, enter. unfold atomic_int at 1 2.
  replace ((a + 1 + 2 ^ 31) `mod` 2 ^ 32 - 2 ^ 31 - 1 + 2 ^ 31)
    with ((a + 1 + 2 ^ 31) `mod` 2 ^ 32 - 1) by lia.
  rewrite Zminus_mod_idemp_l.
  replace (a + 1 + 2 ^ 31 - 1) with (a + 2 ^ 31) by lia.
  by apply sac_atomic_int_id.
Qed.

Lemma sac_enter_iter_range n a : in_range a → in_range (Nat.iter n enter a).
Proof. destruct n; [done|]. intros _. apply sac_atomic_int_range. Qed.

(** X30. A scope restores the counter: after the constructor and the destructor
    of a ScopedAtomicCounter the atomic holds what it held before, also
    when the increment wraps around at the largest int, and so do [n]
    nested scopes. *)
Theorem sac_scope_restores_counter a n :
  in_range a →
  leave (enter a) = a ∧
  Nat.iter n leave (Nat.iter n enter a) = a ∧
  (a < 2 ^ 31 - 1 → enter a = a + 1) ∧
  (a = 2 ^ 31 - 1 → enter a = - 2 ^ 31 ∧ leave (enter a) = 2 ^ 31 - 1).
Proof.
  intros Ha. split; [by apply sac_leave_enter|]. split; [|split].
  - revert a Ha. induction n as [|n IH]; intros a Ha; [done|].
    rewrite Nat.iter_succ_r. cbn [Nat.iter].
    rewrite <- (Nat.iter_succ_r n leave), Nat.iter_succ.
    rewrite (Nat.iter_succ_r n enter). rewrite IH by apply sac_atomic_int_range.
    by apply sac_leave_enter.
  - intros Hlt. unfold enter. apply sac_atomic_int_id. unfold in_range in *. lia.
  - intros ->. split; [done|]. by apply sac_leave_enter.
Qed.

End ScopedAtomicCounterFacts.

Lemma sac_scope_restores_counter_witness :
  ScopedAtomicCounter.leave (ScopedAtomicCounter.enter (2 ^ 31 - 1)%Z)
  = (2 ^ 31 - 1)%Z ∧
  Nat.iter 3 ScopedAtomicCounter.leave
    (Nat.iter 3 ScopedAtomicCounter.enter (2 ^ 31 - 1)%Z) = (2 ^ 31 - 1)%Z.
Proof.
  destruct (sac_scope_restores_counter (2 ^ 31 - 1)%Z 3) as (H1 & H2 & _).
  - unfold ScopedAtomicCounter.in_range. lia.
  - split; [exact H1|exact H2].
Defined.

(** ** ScopedReadLock / ScopedWriteLock *)

Section ScopedLockFacts.
Import ReadWriteMutex.
Local Open Scope Z_scope.

(** X21. The scoped locks give back what they take: after the constructor and
    the destructor of a ScopedReadLock (no writer holding) or of a
    ScopedWriteLock (mutex unlocked) both counters are what they were;
    the write lock's release wakes every parked thread. *)
Theorem rw_scoped_locks_restore m t :
  reachable_below m →
  thr m t = Idle →
  (¬ writer_holds m → read_holds m + 1 < 2 ^ 32 →
     ∃ m', run step [ReadLock t; ReadUnlock t] m = Some m' ∧
           _readers m' = _readers m ∧ _writers m' = _writers m ∧
           read_holds m' = read_holds m ∧ write_holds m' = write_holds m ∧
           reachable_below m') ∧
  (unlocked m →
     ∃ m', run step [WriteLock t; WriteUnlock t] m = Some m' ∧
           _readers m' = 0 ∧ _writers m' = 0 ∧
           read_holds m' = 0 ∧ write_holds m' = 0 ∧
           (∀ u, u ≠ t → thr m' u = wake (thr m u)) ∧ thr m' t = Idle).
Proof.
  intros Hreach Ht.
  destruct (rw_below_counted m Hreach) as (Hw & Hwh & Hr & Hrh & Hex).
  unfold writer_holds, unlocked. split.
  - intros Hno Hb.
    set (m1 := read_lock_body t m).
    assert (H1 : _readers m1 = read_holds m + 1 ∧ thr m1 t = Idle ∧
                 read_holds m1 = read_holds m + 1 ∧ _writers m1 = _writers m ∧
                 write_holds m1 = write_holds m).
    { unfold m1, read_lock_body. destruct (Z.ltb_spec 0 (_writers m)); [lia|].
      simpl. rewrite Hr, rw_unsigned_small, upd_eq by lia. done. }
    destruct H1 as (Hr1 & Ht1 & Hrh1 & Hw1 & Hwh1).
    assert (Hs1 : step (ReadLock t) m = Some m1) by (simpl; by rewrite Ht).
    assert (Hs2 : step (ReadUnlock t) m1 = Some (read_unlock m1)).
    { clearbody m1. simpl. rewrite Ht1.
      by destruct (Z.ltb_spec 0 (read_holds m1)); [|lia]. }
    exists (read_unlock m1). split; [|split; [|split; [|split; [|split]]]].
    + cbn [run]. rewrite Hs1. cbn [mbind option_bind]. by rewrite Hs2.
    + clearbody m1. unfold read_unlock. simpl.
      rewrite Hr1, rw_unsigned_small by lia. lia.
    + clearbody m1. done.
    + clearbody m1. unfold read_unlock. simpl. lia.
    + clearbody m1. done.
    + apply (below_step (ReadUnlock t) m1); [|done|].
      * apply (below_step (ReadLock t) m); [done|done|lia].
      * clearbody m1. unfold read_unlock. simpl. lia.
  - intros [Hr0 Hw0].
    set (m1 := write_lock_body t m).
    assert (H1 : _readers m1 = 0 ∧ thr m1 = upd (thr m) t Idle ∧
                 read_holds m1 = 0 ∧ _writers m1 = 1 ∧ write_holds m1 = 1).
    { unfold m1, write_lock_body. destruct (Z.ltb_spec 0 (_writers m)); [lia|].
      destruct (Z.ltb_spec 0 (_readers m)); [lia|]. simpl.
      rewrite Hw, Hw0, Hr, Hr0. done. }
    destruct H1 as (Hr1 & Ht1 & Hrh1 & Hw1 & Hwh1).
    assert (Hs1 : step (WriteLock t) m = Some m1) by (simpl; by rewrite Ht).
    assert (Hs2 : step (WriteUnlock t) m1 = Some (write_unlock m1)).
    { clearbody m1. simpl. rewrite Ht1, upd_eq.
      by destruct (Z.ltb_spec 0 (write_holds m1)); [|lia]. }
    exists (write_unlock m1). clearbody m1.
    split; [|split; [|split; [|split; [|split; [|split]]]]].
    + cbn [run]. rewrite Hs1. cbn [mbind option_bind]. by rewrite Hs2.
    + done.
    + done.
    + done.
    + simpl. lia.
    + intros u Hu. simpl. by rewrite Ht1, upd_ne.
    + simpl. by rewrite Ht1, upd_eq.
Qed.

End ScopedLockFacts.

Lemma rw_scoped_locks_restore_witness :
  ∃ m', run ReadWriteMutex.step
          [ReadWriteMutex.WriteLock 0; ReadWriteMutex.WriteUnlock 0]
          ReadWriteMutex.init = Some m' ∧
        ReadWriteMutex._readers m' = 0%Z ∧ ReadWriteMutex._writers m' = 0%Z ∧
        ReadWriteMutex.read_holds m' = 0%Z ∧ ReadWriteMutex.write_holds m' = 0%Z ∧
        (∀ u, u ≠ 0 →
           ReadWriteMutex.thr m' u =
           ReadWriteMutex.wake (ReadWriteMutex.thr ReadWriteMutex.init u)) ∧
        ReadWriteMutex.thr m' 0 = ReadWriteMutex.Idle.
Proof.
  refine (proj2 (rw_scoped_locks_restore ReadWriteMutex.init 0 _ _) _).
  - apply ReadWriteMutex.below_init.
  - reflexivity.
  - split; reflexivity.
Defined.
